(** * KWin compositing core: scene occlusion, damage history, item tree and
      DRM output presentation.

    A shallow embedding of the parts of the compositor that the
    specification's testable properties talk about:

    - [Qt]            the integer geometry types of Qt the code computes with
                      ([QPoint], [QSize], [QRect], [QRegion]);
    - [OpenGLBackend] the damage history of src/platformsupport/scenes/opengl;
    - [EglGbmBackend] the frame bracket of the DRM EGL backend;
    - [DrmOutput]     the presentation state machine of the DRM output;
    - [Item]          the item tree of src/item.cpp;
    - [Scene]         the optimized paint path of src/scene.cpp;
    - [SceneRepaints] the scheduled repaints and the painting flags of
                      src/scene.cpp;
    - [SceneWindows]  the scene windows of the toplevels in src/scene.cpp;
    - [EglWaylandBackend], [EglGbmPerOutput]
                      the frame brackets of the render backends that keep a
                      damage history per output.

    Coordinates are C++ [int]s; every computation below stays far away from
    the limits of the type (signed overflow is undefined in C++), so they are
    modelled as unbounded [Z]. *)

From Stdlib Require Import ZArith Lia Bool List.
From stdpp Require Import base option list gmap.

Local Open Scope Z_scope.

(* ===================================================================== *)
(** * Qt geometry                                                          *)
(* ===================================================================== *)

Module Qt.

Record QPoint := mkPoint { px : Z; py : Z }.

Record QSize := mkSize { wd : Z; ht : Z }.

(** [QRect] stores its corners, as Qt does: a rectangle of width [w] placed
    at [x] has [x2 = x + w - 1]. *)
Record QRect := mkRect { x1 : Z; y1 : Z; x2 : Z; y2 : Z }.

(** [QRect()] *)
Definition QRect_null : QRect := mkRect 0 0 (-1) (-1).

(** [QRect(int x, int y, int w, int h)] *)
Definition QRect_xywh (x y w h : Z) : QRect := mkRect x y (x + w - 1) (y + h - 1).

(** [QRect(const QPoint &topLeft, const QSize &size)] *)
Definition QRect_of (p : QPoint) (s : QSize) : QRect :=
  QRect_xywh (px p) (py p) (wd s) (ht s).

Definition rect_width (r : QRect) : Z := x2 r - x1 r + 1.
Definition rect_height (r : QRect) : Z := y2 r - y1 r + 1.

(** [QRect::isNull]: width and height are both 0. *)
Definition rect_isNull (r : QRect) : bool :=
  (x2 r =? x1 r - 1) && (y2 r =? y1 r - 1).

(** [QRect::isEmpty] *)
Definition rect_isEmpty (r : QRect) : bool :=
  (x2 r <? x1 r) || (y2 r <? y1 r).

(** [operator==(const QRect &, const QRect &)] *)
Definition rect_eqb (a b : QRect) : bool :=
  (x1 a =? x1 b) && (y1 a =? y1 b) && (x2 a =? x2 b) && (y2 a =? y2 b).

(** [QRect::translated(const QPoint &)] *)
Definition rect_translated (r : QRect) (p : QPoint) : QRect :=
  mkRect (x1 r + px p) (y1 r + py p) (x2 r + px p) (y2 r + py p).

(** [QRect::operator|]: the bounding rectangle of both, a null rectangle
    being neutral; rectangles of negative size are normalised first. *)
Definition rect_united (a b : QRect) : QRect :=
  if rect_isNull a then b
  else if rect_isNull b then a
  else
    let l1 := if x2 a - x1 a + 1 <? 0 then x2 a else x1 a in
    let r1 := if x2 a - x1 a + 1 <? 0 then x1 a else x2 a in
    let l2 := if x2 b - x1 b + 1 <? 0 then x2 b else x1 b in
    let r2 := if x2 b - x1 b + 1 <? 0 then x1 b else x2 b in
    let t1 := if y2 a - y1 a + 1 <? 0 then y2 a else y1 a in
    let b1 := if y2 a - y1 a + 1 <? 0 then y1 a else y2 a in
    let t2 := if y2 b - y1 b + 1 <? 0 then y2 b else y1 b in
    let b2 := if y2 b - y1 b + 1 <? 0 then y1 b else y2 b in
    mkRect (Z.min l1 l2) (Z.min t1 t2) (Z.max r1 r2) (Z.max b1 b2).

(** [QRect::contains(int x, int y)] for a normalised rectangle. *)
Definition rect_contains (r : QRect) (x y : Z) : bool :=
  (x1 r <=? x) && (x <=? x2 r) && (y1 r <=? y) && (y <=? y2 r).

(** [QRect::operator&] *)
Definition rect_intersected (a b : QRect) : QRect :=
  mkRect (Z.max (x1 a) (x1 b)) (Z.max (y1 a) (y1 b))
         (Z.min (x2 a) (x2 b)) (Z.min (y2 a) (y2 b)).

(** The part of [r] outside [s], as at most four rectangles: the band above
    [s], the band below it, and what is left and right of [s] in between. *)
Definition rect_subtracted (r s : QRect) : list QRect :=
  [ mkRect (x1 r) (y1 r) (x2 r) (Z.min (y2 r) (y1 s - 1));
    mkRect (x1 r) (Z.max (y1 r) (y2 s + 1)) (x2 r) (y2 r);
    mkRect (x1 r) (Z.max (y1 r) (y1 s)) (Z.min (x2 r) (x1 s - 1)) (Z.min (y2 r) (y2 s));
    mkRect (Z.max (x1 r) (x2 s + 1)) (Z.max (y1 r) (y1 s)) (x2 r) (Z.min (y2 r) (y2 s)) ].

(** A [QRegion] is a finite union of rectangles.  Qt keeps the rectangles in
    a canonical banded order so that [operator==] is equality of the point
    sets; here the list is kept as built and [region_eqb] compares the point
    sets. *)
Definition QRegion := list QRect.

(** [QRegion()] *)
Definition QRegion_empty : QRegion := [].

(** [QRegion(const QRect &)] *)
Definition QRegion_of_rect (r : QRect) : QRegion :=
  if rect_isEmpty r then [] else [r].

(** [QRegion(int x, int y, int w, int h)] *)
Definition QRegion_xywh (x y w h : Z) : QRegion := QRegion_of_rect (QRect_xywh x y w h).

(** [QRegion::contains(const QPoint &)] *)
Definition contains (a : QRegion) (x y : Z) : bool :=
  existsb (fun r => rect_contains r x y) a.

(** [QRegion::isEmpty] *)
Definition isEmpty (a : QRegion) : bool := forallb rect_isEmpty a.

(** [QRegion::united], [operator|], [operator|=], [operator+=] *)
Definition united (a b : QRegion) : QRegion := a ++ b.

(** [QRegion::subtracted], [operator-], [operator-=] *)
Definition subtracted (a b : QRegion) : QRegion :=
  fold_left (fun acc s => flat_map (fun r => rect_subtracted r s) acc) b a.

(** [QRegion::intersected], [operator&], [operator&=] *)
Definition intersected (a b : QRegion) : QRegion :=
  flat_map (fun r => map (rect_intersected r) b) a.

(** [QRegion::translated] *)
Definition translated (a : QRegion) (p : QPoint) : QRegion :=
  map (fun r => rect_translated r p) a.

(** [operator==(const QRegion &, const QRegion &)] *)
Definition region_eqb (a b : QRegion) : bool :=
  isEmpty (subtracted a b) && isEmpty (subtracted b a).

(** Every point of [b] lies in [a]. *)
Definition covers (a b : QRegion) : Prop :=
  forall x y, contains b x y = true -> contains a x y = true.

End Qt.

Export Qt.

(* ===================================================================== *)
(** * Render backend: damage history                                       *)
(* ===================================================================== *)

Module OpenGLBackend.

(** [m_damageHistory]: newest entry first. *)
Definition DamageHistory := list QRegion.

(** [QList::removeLast] *)
Definition removeLast {A} (l : list A) : list A := removelast l.

(** [OpenGLBackend::addToDamageHistory] *)
Definition addToDamageHistory (m_damageHistory : DamageHistory) (region : QRegion)
  : DamageHistory :=
  let h := if 10 <? Z.of_nat (length m_damageHistory)
           then removeLast m_damageHistory
           else m_damageHistory in
  region :: h.

(** The loop [for (int i = 0; i < n; i++) region |= m_damageHistory[i]].
    The caller's guard keeps [i] below the length of the history; an index
    outside it is never read. *)
Definition replay (m_damageHistory : DamageHistory) (n : nat) (region : QRegion) : QRegion :=
  fold_left (fun acc i => united acc (default QRegion_empty (m_damageHistory !! i)))
            (seq 0 n) region.

(** [OpenGLBackend::accumulatedDamageHistory]; [s] is [screens()->size()]. *)
Definition accumulatedDamageHistory (s : QSize) (m_damageHistory : DamageHistory)
  (bufferAge : Z) : QRegion :=
  if (0 <? bufferAge) && (bufferAge <=? Z.of_nat (length m_damageHistory))
  then replay m_damageHistory (Z.to_nat (bufferAge - 1)) QRegion_empty
  else QRegion_xywh 0 0 (wd s) (ht s).

(** The contract in the words of the specification: the union of the
    [age - 1] most recently recorded regions when [0 < age <= length],
    the full output rectangle otherwise. *)
Definition union_all (l : list QRegion) : QRegion := concat l.

Definition accumulated_spec (s : QSize) (hist : DamageHistory) (age : Z) : QRegion :=
  if decide (0 < age /\ age <= Z.of_nat (length hist))
  then union_all (take (Z.to_nat (age - 1)) hist)
  else QRegion_xywh 0 0 (wd s) (ht s).

(** Recording [n] frames one after the other. *)
Fixpoint record_frames (frames : list QRegion) (h : DamageHistory) : DamageHistory :=
  match frames with
  | [] => h
  | r :: rest => record_frames rest (addToDamageHistory h r)
  end.

(** The eleven frames of the example: [(i, 0, 1, 1)] for [i] from 0 to 10. *)
Definition eleven_frames : list QRegion :=
  map (fun i => QRegion_xywh (Z.of_nat i) 0 1 1) (seq 0 11).

(** One [glBlitFramebuffer(x0, y0, x1, y1, x0, y0, x1, y1, ...)] call: source
    and destination are the same rectangle, given by two corners in GL
    window coordinates (origin at the bottom left, [x1] and [y1]
    exclusive). *)
Record Blit := mkBlit { blit_x0 : Z; blit_y0 : Z; blit_x1 : Z; blit_y1 : Z }.

(** [OpenGLBackend::copyPixels]: the blits, in the order of the rectangles
    of the region; [height] is [screens()->size().height()]. *)
Definition copyPixels (height : Z) (region : QRegion) : list Blit :=
  map (fun r =>
         let x0 := x1 r in
         let y0 := height - y1 r - rect_height r in
         let x1' := x1 r + rect_width r in
         let y1' := height - y1 r in
         mkBlit x0 y0 x1' y1')
      region.

(** The GL pixel [(gx, gy)] lies in the rectangle of the blit. *)
Definition blit_covers (b : Blit) (gx gy : Z) : bool :=
  (blit_x0 b <=? gx) && (gx <? blit_x1 b) && (blit_y0 b <=? gy) && (gy <? blit_y1 b).

End OpenGLBackend.

(* ===================================================================== *)
(** * DRM output: presentation state machine                               *)
(* ===================================================================== *)

Module DrmOutput.

(** [DrmOutput::DpmsMode] *)
Inductive DpmsMode := On | Standby | Suspend | Off.

(** [DrmOutput::AtomicCommitMode] *)
Inductive AtomicCommitMode := Test | Real.

(** [AbstractWaylandOutput::Transform] *)
Inductive Transform :=
  Normal | Rotated90 | Rotated180 | Rotated270 | Flipped | Flipped90 | Flipped180 | Flipped270.

#[global] Instance DpmsMode_eq_dec : EqDecision DpmsMode.
Proof. solve_decision. Defined.

#[global] Instance Transform_eq_dec : EqDecision Transform.
Proof. solve_decision. Defined.

(** A [DrmBuffer *] that is not null. *)
Definition Buffer := nat.

(** The fields of [drmModeModeInfo] this file reads. *)
Record drmModeModeInfo := mkMode { clock : Z; hdisplay : Z; vdisplay : Z; vrefresh : Z }.

(** Modelled from the spec: the buffer slots of a plane or CRTC ([DrmPlane]
    and [DrmCrtc] are declared outside the files at hand): a current buffer
    (on screen now) and a next buffer (submitted, awaiting confirmation). *)
Record DrmPlane := mkPlane {
  pl_current : option Buffer;
  pl_next : option Buffer;
  pl_transformation : Z
}.

Record DrmCrtc := mkCrtc { crtc_current : option Buffer; crtc_next : option Buffer }.

(** The planes [m_nextPlanesFlipList] can point to: only [m_primaryPlane]
    is ever appended. *)
Inductive PlaneRef := PrimaryPlane.

(** [m_lastWorkingState] *)
Record LastWorkingState := mkLws {
  valid : bool;
  lws_mode : drmModeModeInfo;
  lws_transform : Transform;
  lws_globalPos : QPoint;
  lws_planeTransformations : Z
}.

(** What the output reads from [m_gpu]; [HAVE_EGL_STREAMS] is the build
    option of the same name. *)
Record DrmGpu := mkGpu {
  atomicModeSetting : bool;
  deleteBufferAfterPageFlip : bool;
  useEglStreams : bool;
  HAVE_EGL_STREAMS : bool
}.

(** What the output reads from [m_backend] and from the buffers. *)
Record DrmBackend := mkBackend {
  sessionActive : bool;
  isCursorHidden : bool;
  needsModeChange : Buffer -> Buffer -> bool
}.

(** Calls that leave the output, in the order they are made. *)
Inductive Event :=
| AtomicCommit (mode : AtomicCommitMode) (allowModeset : bool) (dpms : DpmsMode) (ok : bool)
| PageFlipLegacy (b : Buffer) (ok : bool)
| SetCrtcLegacy (b : Buffer) (ok : bool)
| ConnectorSetDpms (dpms : DpmsMode) (ok : bool)
| WaylandDpms (dpms : DpmsMode)
| RenderLoopInhibit
| RenderLoopUninhibit
| RenderLoopRefreshRate (m : drmModeModeInfo)
| CheckOutputsAreOn
| CreateDpmsFilter
| Blank
| AddRepaintFull
| DeleteBuffer (b : Buffer)
| ReleaseGbm (b : Buffer)
| UpdateCursor
| ShowCursor
| SetWaylandMode (m : drmModeModeInfo)
| ScreensChanged
| DeleteLater.

Record DrmOutput := mkDrmOutput {
  gpu : DrmGpu;
  backend : DrmBackend;
  isEnabled : bool;
  m_dpms : bool;
  m_crtc : option DrmCrtc;
  m_primaryPlane : DrmPlane;
  m_nextPlanesFlipList : list PlaneRef;
  m_deleted : bool;
  m_dpmsMode : DpmsMode;
  m_dpmsModePending : DpmsMode;
  m_pageFlipPending : bool;
  m_atomicOffPending : bool;
  m_modesetRequested : bool;
  m_mode : drmModeModeInfo;
  transform : Transform;
  globalPos : QPoint;
  m_lastWorkingState : LastWorkingState;
  kernel : list bool;
  trace : list Event
}.

Definition set_m_crtc (v : option DrmCrtc) (o : DrmOutput) : DrmOutput :=
  {| gpu := gpu o; backend := backend o; isEnabled := isEnabled o; m_dpms := m_dpms o; m_crtc :=
     v; m_primaryPlane := m_primaryPlane o; m_nextPlanesFlipList := m_nextPlanesFlipList o;
     m_deleted := m_deleted o; m_dpmsMode := m_dpmsMode o; m_dpmsModePending :=
     m_dpmsModePending o; m_pageFlipPending := m_pageFlipPending o; m_atomicOffPending :=
     m_atomicOffPending o; m_modesetRequested := m_modesetRequested o; m_mode := m_mode o;
     transform := transform o; globalPos := globalPos o; m_lastWorkingState :=
     m_lastWorkingState o; kernel := kernel o; trace := trace o |}.

Definition set_m_primaryPlane (v : DrmPlane) (o : DrmOutput) : DrmOutput :=
  {| gpu := gpu o; backend := backend o; isEnabled := isEnabled o; m_dpms := m_dpms o; m_crtc :=
     m_crtc o; m_primaryPlane := v; m_nextPlanesFlipList := m_nextPlanesFlipList o; m_deleted :=
     m_deleted o; m_dpmsMode := m_dpmsMode o; m_dpmsModePending := m_dpmsModePending o;
     m_pageFlipPending := m_pageFlipPending o; m_atomicOffPending := m_atomicOffPending o;
     m_modesetRequested := m_modesetRequested o; m_mode := m_mode o; transform := transform o;
     globalPos := globalPos o; m_lastWorkingState := m_lastWorkingState o; kernel := kernel o;
     trace := trace o |}.

Definition set_m_nextPlanesFlipList (v : list PlaneRef) (o : DrmOutput) : DrmOutput :=
  {| gpu := gpu o; backend := backend o; isEnabled := isEnabled o; m_dpms := m_dpms o; m_crtc :=
     m_crtc o; m_primaryPlane := m_primaryPlane o; m_nextPlanesFlipList := v; m_deleted :=
     m_deleted o; m_dpmsMode := m_dpmsMode o; m_dpmsModePending := m_dpmsModePending o;
     m_pageFlipPending := m_pageFlipPending o; m_atomicOffPending := m_atomicOffPending o;
     m_modesetRequested := m_modesetRequested o; m_mode := m_mode o; transform := transform o;
     globalPos := globalPos o; m_lastWorkingState := m_lastWorkingState o; kernel := kernel o;
     trace := trace o |}.

Definition set_m_dpmsMode (v : DpmsMode) (o : DrmOutput) : DrmOutput :=
  {| gpu := gpu o; backend := backend o; isEnabled := isEnabled o; m_dpms := m_dpms o; m_crtc :=
     m_crtc o; m_primaryPlane := m_primaryPlane o; m_nextPlanesFlipList := m_nextPlanesFlipList
     o; m_deleted := m_deleted o; m_dpmsMode := v; m_dpmsModePending := m_dpmsModePending o;
     m_pageFlipPending := m_pageFlipPending o; m_atomicOffPending := m_atomicOffPending o;
     m_modesetRequested := m_modesetRequested o; m_mode := m_mode o; transform := transform o;
     globalPos := globalPos o; m_lastWorkingState := m_lastWorkingState o; kernel := kernel o;
     trace := trace o |}.

Definition set_m_dpmsModePending (v : DpmsMode) (o : DrmOutput) : DrmOutput :=
  {| gpu := gpu o; backend := backend o; isEnabled := isEnabled o; m_dpms := m_dpms o; m_crtc :=
     m_crtc o; m_primaryPlane := m_primaryPlane o; m_nextPlanesFlipList := m_nextPlanesFlipList
     o; m_deleted := m_deleted o; m_dpmsMode := m_dpmsMode o; m_dpmsModePending := v;
     m_pageFlipPending := m_pageFlipPending o; m_atomicOffPending := m_atomicOffPending o;
     m_modesetRequested := m_modesetRequested o; m_mode := m_mode o; transform := transform o;
     globalPos := globalPos o; m_lastWorkingState := m_lastWorkingState o; kernel := kernel o;
     trace := trace o |}.

Definition set_m_pageFlipPending (v : bool) (o : DrmOutput) : DrmOutput :=
  {| gpu := gpu o; backend := backend o; isEnabled := isEnabled o; m_dpms := m_dpms o; m_crtc :=
     m_crtc o; m_primaryPlane := m_primaryPlane o; m_nextPlanesFlipList := m_nextPlanesFlipList
     o; m_deleted := m_deleted o; m_dpmsMode := m_dpmsMode o; m_dpmsModePending :=
     m_dpmsModePending o; m_pageFlipPending := v; m_atomicOffPending := m_atomicOffPending o;
     m_modesetRequested := m_modesetRequested o; m_mode := m_mode o; transform := transform o;
     globalPos := globalPos o; m_lastWorkingState := m_lastWorkingState o; kernel := kernel o;
     trace := trace o |}.

Definition set_m_atomicOffPending (v : bool) (o : DrmOutput) : DrmOutput :=
  {| gpu := gpu o; backend := backend o; isEnabled := isEnabled o; m_dpms := m_dpms o; m_crtc :=
     m_crtc o; m_primaryPlane := m_primaryPlane o; m_nextPlanesFlipList := m_nextPlanesFlipList
     o; m_deleted := m_deleted o; m_dpmsMode := m_dpmsMode o; m_dpmsModePending :=
     m_dpmsModePending o; m_pageFlipPending := m_pageFlipPending o; m_atomicOffPending := v;
     m_modesetRequested := m_modesetRequested o; m_mode := m_mode o; transform := transform o;
     globalPos := globalPos o; m_lastWorkingState := m_lastWorkingState o; kernel := kernel o;
     trace := trace o |}.

Definition set_m_modesetRequested (v : bool) (o : DrmOutput) : DrmOutput :=
  {| gpu := gpu o; backend := backend o; isEnabled := isEnabled o; m_dpms := m_dpms o; m_crtc :=
     m_crtc o; m_primaryPlane := m_primaryPlane o; m_nextPlanesFlipList := m_nextPlanesFlipList
     o; m_deleted := m_deleted o; m_dpmsMode := m_dpmsMode o; m_dpmsModePending :=
     m_dpmsModePending o; m_pageFlipPending := m_pageFlipPending o; m_atomicOffPending :=
     m_atomicOffPending o; m_modesetRequested := v; m_mode := m_mode o; transform := transform
     o; globalPos := globalPos o; m_lastWorkingState := m_lastWorkingState o; kernel := kernel
     o; trace := trace o |}.

Definition set_m_mode (v : drmModeModeInfo) (o : DrmOutput) : DrmOutput :=
  {| gpu := gpu o; backend := backend o; isEnabled := isEnabled o; m_dpms := m_dpms o; m_crtc :=
     m_crtc o; m_primaryPlane := m_primaryPlane o; m_nextPlanesFlipList := m_nextPlanesFlipList
     o; m_deleted := m_deleted o; m_dpmsMode := m_dpmsMode o; m_dpmsModePending :=
     m_dpmsModePending o; m_pageFlipPending := m_pageFlipPending o; m_atomicOffPending :=
     m_atomicOffPending o; m_modesetRequested := m_modesetRequested o; m_mode := v; transform :=
     transform o; globalPos := globalPos o; m_lastWorkingState := m_lastWorkingState o; kernel
     := kernel o; trace := trace o |}.

Definition set_transform (v : Transform) (o : DrmOutput) : DrmOutput :=
  {| gpu := gpu o; backend := backend o; isEnabled := isEnabled o; m_dpms := m_dpms o; m_crtc :=
     m_crtc o; m_primaryPlane := m_primaryPlane o; m_nextPlanesFlipList := m_nextPlanesFlipList
     o; m_deleted := m_deleted o; m_dpmsMode := m_dpmsMode o; m_dpmsModePending :=
     m_dpmsModePending o; m_pageFlipPending := m_pageFlipPending o; m_atomicOffPending :=
     m_atomicOffPending o; m_modesetRequested := m_modesetRequested o; m_mode := m_mode o;
     transform := v; globalPos := globalPos o; m_lastWorkingState := m_lastWorkingState o;
     kernel := kernel o; trace := trace o |}.

Definition set_globalPos (v : QPoint) (o : DrmOutput) : DrmOutput :=
  {| gpu := gpu o; backend := backend o; isEnabled := isEnabled o; m_dpms := m_dpms o; m_crtc :=
     m_crtc o; m_primaryPlane := m_primaryPlane o; m_nextPlanesFlipList := m_nextPlanesFlipList
     o; m_deleted := m_deleted o; m_dpmsMode := m_dpmsMode o; m_dpmsModePending :=
     m_dpmsModePending o; m_pageFlipPending := m_pageFlipPending o; m_atomicOffPending :=
     m_atomicOffPending o; m_modesetRequested := m_modesetRequested o; m_mode := m_mode o;
     transform := transform o; globalPos := v; m_lastWorkingState := m_lastWorkingState o;
     kernel := kernel o; trace := trace o |}.

Definition set_m_lastWorkingState (v : LastWorkingState) (o : DrmOutput) : DrmOutput :=
  {| gpu := gpu o; backend := backend o; isEnabled := isEnabled o; m_dpms := m_dpms o; m_crtc :=
     m_crtc o; m_primaryPlane := m_primaryPlane o; m_nextPlanesFlipList := m_nextPlanesFlipList
     o; m_deleted := m_deleted o; m_dpmsMode := m_dpmsMode o; m_dpmsModePending :=
     m_dpmsModePending o; m_pageFlipPending := m_pageFlipPending o; m_atomicOffPending :=
     m_atomicOffPending o; m_modesetRequested := m_modesetRequested o; m_mode := m_mode o;
     transform := transform o; globalPos := globalPos o; m_lastWorkingState := v; kernel :=
     kernel o; trace := trace o |}.

Definition set_kernel (v : list bool) (o : DrmOutput) : DrmOutput :=
  {| gpu := gpu o; backend := backend o; isEnabled := isEnabled o; m_dpms := m_dpms o; m_crtc :=
     m_crtc o; m_primaryPlane := m_primaryPlane o; m_nextPlanesFlipList := m_nextPlanesFlipList
     o; m_deleted := m_deleted o; m_dpmsMode := m_dpmsMode o; m_dpmsModePending :=
     m_dpmsModePending o; m_pageFlipPending := m_pageFlipPending o; m_atomicOffPending :=
     m_atomicOffPending o; m_modesetRequested := m_modesetRequested o; m_mode := m_mode o;
     transform := transform o; globalPos := globalPos o; m_lastWorkingState :=
     m_lastWorkingState o; kernel := v; trace := trace o |}.

Definition set_trace (v : list Event) (o : DrmOutput) : DrmOutput :=
  {| gpu := gpu o; backend := backend o; isEnabled := isEnabled o; m_dpms := m_dpms o; m_crtc :=
     m_crtc o; m_primaryPlane := m_primaryPlane o; m_nextPlanesFlipList := m_nextPlanesFlipList
     o; m_deleted := m_deleted o; m_dpmsMode := m_dpmsMode o; m_dpmsModePending :=
     m_dpmsModePending o; m_pageFlipPending := m_pageFlipPending o; m_atomicOffPending :=
     m_atomicOffPending o; m_modesetRequested := m_modesetRequested o; m_mode := m_mode o;
     transform := transform o; globalPos := globalPos o; m_lastWorkingState :=
     m_lastWorkingState o; kernel := kernel o; trace := v |}.

(** Code that reads and writes the output.  [None] stands for undefined
    behaviour: a failed [Q_ASSERT] or a dereferenced null [m_crtc]. *)
Definition M (A : Type) : Type := DrmOutput -> option (A * DrmOutput).

Definition ret {A} (a : A) : M A := fun o => Some (a, o).

Definition bind {A B} (m : M A) (k : A -> M B) : M B :=
  fun o => match m o with Some (a, o') => k a o' | None => None end.

Definition crash {A} : M A := fun _ => None.

Definition gets {A} (f : DrmOutput -> A) : M A := fun o => Some (f o, o).

Definition modify (f : DrmOutput -> DrmOutput) : M unit := fun o => Some (tt, f o).

Notation "x <- m ;; k" := (bind m (fun x => k))
  (at level 100, m at next level, right associativity).
Notation "m ;; k" := (bind m (fun _ => k))
  (at level 100, right associativity).

Definition emit (e : Event) : M unit := modify (fun o => set_trace (trace o ++ [e]) o).

Definition Q_ASSERT (c : bool) : M unit := if c then ret tt else crash.

Definition when (c : bool) (m : M unit) : M unit := if c then m else ret tt.

Fixpoint for_each {A} (l : list A) (f : A -> M unit) : M unit :=
  match l with
  | [] => ret tt
  | a :: rest => f a ;; for_each rest f
  end.

(** The answer of the kernel, or of a DRM object asked to add itself to a
    request: [true] is success.  The answers to come are scripted in
    [kernel]; once the script is used up every call succeeds. *)
Definition kernel_call : M bool := fun o =>
  match kernel o with
  | [] => Some (true, o)
  | b :: rest => Some (b, set_kernel rest o)
  end.

(** [delete b] for a buffer pointer that may be null. *)
Definition delete_buffer (b : option Buffer) : M unit :=
  match b with Some b => emit (DeleteBuffer b) | None => ret tt end.

(** [m_crtc->...]: dereferencing a null [m_crtc] is undefined. *)
Definition the_crtc : M DrmCrtc :=
  c <- gets m_crtc ;; match c with Some c => ret c | None => crash end.

(** Modelled from the spec: [DrmPlane::setNext], [setCurrent],
    [setTransformation], and the flip that promotes "next" to "current"
    ([flipBufferWithDelete] also releases the previous buffer). *)
Definition plane_setNext (p : PlaneRef) (b : option Buffer) : M unit :=
  modify (fun o => let pl := m_primaryPlane o in
    set_m_primaryPlane (mkPlane (pl_current pl) b (pl_transformation pl)) o).

Definition plane_setCurrent (p : PlaneRef) (b : option Buffer) : M unit :=
  modify (fun o => let pl := m_primaryPlane o in
    set_m_primaryPlane (mkPlane b (pl_next pl) (pl_transformation pl)) o).

Definition plane_setTransformation (p : PlaneRef) (t : Z) : M unit :=
  modify (fun o => let pl := m_primaryPlane o in
    set_m_primaryPlane (mkPlane (pl_current pl) (pl_next pl) t) o).

Definition plane_flipBuffer (p : PlaneRef) : M unit :=
  modify (fun o => let pl := m_primaryPlane o in
    set_m_primaryPlane (mkPlane (pl_next pl) None (pl_transformation pl)) o).

Definition plane_flipBufferWithDelete (p : PlaneRef) : M unit :=
  pl <- gets m_primaryPlane ;;
  when (negb (bool_decide (pl_current pl = pl_next pl))) (delete_buffer (pl_current pl)) ;;
  plane_flipBuffer p.

(** Modelled from the spec: [DrmCrtc::setNext] and [DrmCrtc::flipBuffer]. *)
Definition crtc_setNext (b : option Buffer) : M unit :=
  c <- the_crtc ;;
  modify (set_m_crtc (Some (mkCrtc (crtc_current c) b))).

Definition crtc_flipBuffer : M unit :=
  c <- the_crtc ;;
  del <- gets (fun o => deleteBufferAfterPageFlip (gpu o)) ;;
  when (del && negb (bool_decide (crtc_current c = crtc_next c))) (delete_buffer (crtc_current c)) ;;
  modify (set_m_crtc (Some (mkCrtc (crtc_next c) None))).

(** [DrmOutput::dpmsFinishOn] *)
Definition dpmsFinishOn : M unit :=
  emit (WaylandDpms On) ;;
  emit CheckOutputsAreOn ;;
  the_crtc ;;
  emit Blank ;;
  emit RenderLoopUninhibit ;;
  emit AddRepaintFull.

(** [DrmOutput::dpmsFinishOff] *)
Definition dpmsFinishOff : M unit :=
  en <- gets isEnabled ;;
  (if en
   then p <- gets m_dpmsModePending ;; emit (WaylandDpms p) ;; emit CreateDpmsFilter
   else emit (WaylandDpms Off)) ;;
  emit RenderLoopInhibit.

(** [DrmOutput::dpmsLegacyApply] *)
Definition dpmsLegacyApply : M bool :=
  p <- gets m_dpmsModePending ;;
  ok <- kernel_call ;;
  emit (ConnectorSetDpms p ok) ;;
  if negb ok then
    cur <- gets m_dpmsMode ;;
    modify (set_m_dpmsModePending cur) ;;
    ret false
  else
    (if bool_decide (p = On) then dpmsFinishOn else dpmsFinishOff) ;;
    modify (set_m_dpmsMode p) ;;
    ret true.

(** The lambda [errorHandler] of [DrmOutput::doAtomicCommit]. *)
Definition errorHandler : M unit :=
  cur <- gets m_dpmsMode ;;
  pend <- gets m_dpmsModePending ;;
  when (negb (bool_decide (cur = pend)))
    (modify (set_m_dpmsModePending cur) ;;
     when (negb (bool_decide (cur = On))) dpmsFinishOff) ;;
  l <- gets m_nextPlanesFlipList ;;
  for_each l (fun p => plane_setNext p None) ;;
  modify (set_m_nextPlanesFlipList []).

(** [DrmOutput::atomicReqModesetPopulate]: with [enable] only property
    values of the request are written; the two answers are those of
    [m_conn->atomicPopulate] and [m_crtc->atomicPopulate]. *)
Definition atomicReqModesetPopulate (enable : bool) : M bool :=
  the_crtc ;;
  (if enable then ret tt
   else
     del <- gets (fun o => deleteBufferAfterPageFlip (gpu o)) ;;
     pl <- gets m_primaryPlane ;;
     when del (delete_buffer (pl_current pl) ;; delete_buffer (pl_next pl)) ;;
     plane_setCurrent PrimaryPlane None ;;
     plane_setNext PrimaryPlane None) ;;
  a <- kernel_call ;;
  b <- kernel_call ;;
  ret (a && b).

(** The loop of [doAtomicCommit] over [m_nextPlanesFlipList]. *)
Fixpoint populate_planes (l : list PlaneRef) : M bool :=
  match l with
  | [] => ret true
  | _ :: rest => a <- kernel_call ;; b <- populate_planes rest ;; ret (a && b)
  end.

(** [DrmOutput::doAtomicCommit] *)
Definition doAtomicCommit (mode : AtomicCommitMode) : M bool :=
  req <- kernel_call ;;
  if negb req then errorHandler ;; ret false
  else
    modeset <- gets m_modesetRequested ;;
    pend <- gets m_dpmsModePending ;;
    prepared <-
      (if modeset then
         blob <- (if bool_decide (pend = On) then kernel_call else ret true) ;;
         if negb blob then ret false
         else atomicReqModesetPopulate (bool_decide (pend = On))
       else ret true) ;;
    if negb prepared then errorHandler ;; ret false
    else
      l <- gets m_nextPlanesFlipList ;;
      populated <- populate_planes (rev l) ;;
      if negb populated then errorHandler ;; ret false
      else
        ok <- kernel_call ;;
        emit (AtomicCommit mode modeset pend ok) ;;
        if negb ok then errorHandler ;; ret false
        else
          when (match mode with Real => modeset | Test => false end)
            (modify (set_m_modesetRequested false) ;;
             modify (set_m_dpmsMode pend)) ;;
          ret true.

(** [DrmOutput::dpmsAtomicOff] *)
Definition dpmsAtomicOff : M bool :=
  modify (set_m_atomicOffPending false) ;;
  pl <- gets m_primaryPlane ;;
  delete_buffer (pl_next pl) ;;
  plane_setNext PrimaryPlane None ;;
  modify (fun o => set_m_nextPlanesFlipList (m_nextPlanesFlipList o ++ [PrimaryPlane]) o) ;;
  t <- doAtomicCommit Test ;;
  if negb t then ret false
  else
    r <- doAtomicCommit Real ;;
    if negb r then ret false
    else
      modify (set_m_nextPlanesFlipList []) ;;
      dpmsFinishOff ;;
      ret true.

(** [DrmOutput::updateDpms]; the Wayland mode maps one to one to [DpmsMode]. *)
Definition updateDpms (mode : DpmsMode) : M unit :=
  has <- gets m_dpms ;;
  en <- gets isEnabled ;;
  if negb has || negb en then ret tt
  else
    pend <- gets m_dpmsModePending ;;
    if bool_decide (mode = pend) then emit (WaylandDpms mode)
    else
      modify (set_m_dpmsModePending mode) ;;
      atomic <- gets (fun o => atomicModeSetting (gpu o)) ;;
      if atomic then
        modify (set_m_modesetRequested true) ;;
        if bool_decide (mode = On) then
          offPending <- gets m_atomicOffPending ;;
          when offPending
            (flip <- gets m_pageFlipPending ;;
             Q_ASSERT flip ;;
             modify (set_m_atomicOffPending false)) ;;
          dpmsFinishOn
        else
          modify (set_m_atomicOffPending true) ;;
          flip <- gets m_pageFlipPending ;;
          if negb flip then dpmsAtomicOff ;; ret tt else ret tt
      else dpmsLegacyApply ;; ret tt.

(** [DrmOutput::pageFlipped] *)
Definition pageFlipped : M unit :=
  flip <- gets m_pageFlipPending ;;
  atomic <- gets (fun o => atomicModeSetting (gpu o)) ;;
  Q_ASSERT (flip || negb atomic) ;;
  modify (set_m_pageFlipPending false) ;;
  deleted <- gets m_deleted ;;
  if deleted then emit DeleteLater
  else
    crtc <- gets m_crtc ;;
    match crtc with
    | None => ret tt
    | Some c =>
      del <- gets (fun o => deleteBufferAfterPageFlip (gpu o)) ;;
      pl <- gets m_primaryPlane ;;
      l <- gets m_nextPlanesFlipList ;;
      let offIfPending :=
        offPending <- gets m_atomicOffPending ;;
        if offPending then dpmsAtomicOff ;; ret tt else ret tt in
      if del then
        if atomic then
          match pl_next pl with
          | None =>
            match pl_current pl with Some b => emit (ReleaseGbm b) | None => ret tt end
          | Some _ =>
            for_each l plane_flipBufferWithDelete ;;
            modify (set_m_nextPlanesFlipList []) ;;
            offIfPending
          end
        else
          (match crtc_next c, crtc_current c with
           | None, Some b => emit (ReleaseGbm b)
           | _, _ => ret tt
           end) ;;
          crtc_flipBuffer ;;
          offIfPending
      else
        (if atomic
         then for_each l plane_flipBuffer ;; modify (set_m_nextPlanesFlipList [])
         else crtc_flipBuffer) ;;
        crtc_flipBuffer ;;
        offIfPending
    end.

(** [DrmOutput::setModeLegacy] *)
Definition setModeLegacy (buffer : Buffer) : M bool :=
  ok <- kernel_call ;;
  emit (SetCrtcLegacy buffer ok) ;;
  ret ok.

(** [DrmOutput::presentLegacy] *)
Definition presentLegacy (buffer : Buffer) : M bool :=
  c <- the_crtc ;;
  match crtc_next c with
  | Some _ => ret false
  | None =>
    active <- gets (fun o => sessionActive (backend o)) ;;
    if negb active then crtc_setNext (Some buffer) ;; ret false
    else
      needs <- gets (fun o =>
        match crtc_current c with
        | None => true
        | Some cur => needsModeChange (backend o) cur buffer
        end) ;;
      modeOk <- (if needs then setModeLegacy buffer else ret true) ;;
      if negb modeOk then ret false
      else
        ok <- kernel_call ;;
        emit (PageFlipLegacy buffer ok) ;;
        when ok (crtc_setNext (Some buffer) ;; modify (set_m_pageFlipPending true)) ;;
        ret ok
  end.

(** The two statements of [presentAtomically] that put the buffer into the
    "next" slot of the primary plane and the plane on the flip list. *)
Definition stage (buffer : Buffer) : M unit :=
  plane_setNext PrimaryPlane (Some buffer) ;;
  modify (fun o => set_m_nextPlanesFlipList (m_nextPlanesFlipList o ++ [PrimaryPlane]) o).

(** [DrmOutput::presentAtomically] *)
Definition presentAtomically (buffer : Buffer) : M bool :=
  active <- gets (fun o => sessionActive (backend o)) ;;
  if negb active then ret false
  else
    flip <- gets m_pageFlipPending ;;
    if flip then ret false
    else
      streams <- gets (fun o => HAVE_EGL_STREAMS (gpu o) && useEglStreams (gpu o)
                                && negb (m_modesetRequested o)) ;;
      if streams then modify (set_m_pageFlipPending true) ;; ret true
      else
        stage buffer ;;
        t <- doAtomicCommit Test ;;
        if negb t then
          lws <- gets m_lastWorkingState ;;
          when (valid lws)
            (modify (set_m_mode (lws_mode lws)) ;;
             modify (set_transform (lws_transform lws)) ;;
             modify (set_globalPos (lws_globalPos lws)) ;;
             plane_setTransformation PrimaryPlane (lws_planeTransformations lws) ;;
             modify (set_m_modesetRequested true) ;;
             hidden <- gets (fun o => isCursorHidden (backend o)) ;;
             when (negb hidden) (emit UpdateCursor ;; emit ShowCursor) ;;
             m <- gets m_mode ;;
             emit (SetWaylandMode m) ;;
             emit ScreensChanged) ;;
          ret false
        else
          wasModeset <- gets m_modesetRequested ;;
          r <- doAtomicCommit Real ;;
          if negb r then ret false
          else
            when wasModeset
              (modify (fun o => set_m_lastWorkingState
                 (mkLws true (m_mode o) (transform o) (globalPos o)
                        (pl_transformation (m_primaryPlane o))) o) ;;
               m <- gets m_mode ;;
               emit (RenderLoopRefreshRate m)) ;;
            modify (set_m_pageFlipPending true) ;;
            ret true.

(** [DrmOutput::present] *)
Definition present (buffer : Buffer) : M bool :=
  pend <- gets m_dpmsModePending ;;
  if negb (bool_decide (pend = On)) then ret false
  else
    atomic <- gets (fun o => atomicModeSetting (gpu o)) ;;
    if atomic then presentAtomically buffer else presentLegacy buffer.

(** [DrmOutput::atomicEnable] and [DrmOutput::atomicDisable];
    [m_backend->enableOutput] changes nothing in the output itself. *)
Definition atomicEnable : M unit :=
  modify (set_m_modesetRequested true) ;;
  offPending <- gets m_atomicOffPending ;;
  when offPending
    (flip <- gets m_pageFlipPending ;;
     Q_ASSERT flip ;;
     modify (set_m_atomicOffPending false)) ;;
  emit AddRepaintFull.

Definition atomicDisable : M unit :=
  modify (set_m_modesetRequested true) ;;
  modify (set_m_atomicOffPending true) ;;
  flip <- gets m_pageFlipPending ;;
  if negb flip then dpmsAtomicOff ;; ret tt else ret tt.

(** What can happen to an output between two page-flip events. *)
Inductive Call :=
| CallPresent (buffer : Buffer)
| CallUpdateDpms (mode : DpmsMode)
| CallAtomicEnable
| CallAtomicDisable.

Definition call (c : Call) : M unit :=
  match c with
  | CallPresent b => present b ;; ret tt
  | CallUpdateDpms m => updateDpms m
  | CallAtomicEnable => atomicEnable
  | CallAtomicDisable => atomicDisable
  end.

(** The atomic commits an output has issued so far. *)
Definition is_commit (e : Event) : bool :=
  match e with AtomicCommit _ _ _ _ => true | _ => false end.

Definition commits (o : DrmOutput) : list Event := filter (fun e => is_commit e = true) (trace o).

(** [m] changes nothing of what [R] relates. *)
Definition keeps {A} (R : DrmOutput -> DrmOutput -> Prop) (m : M A) : Prop :=
  forall o a o', m o = Some (a, o') -> R o o'.

(** The configuration a commit leaves alone: GPU, backend, mode, transform,
    position and the last working state. *)
Definition same_config (o o' : DrmOutput) : Prop :=
  gpu o' = gpu o /\ backend o' = backend o /\ m_mode o' = m_mode o
  /\ transform o' = transform o /\ globalPos o' = globalPos o
  /\ m_lastWorkingState o' = m_lastWorkingState o
  /\ m_pageFlipPending o' = m_pageFlipPending o
  /\ pl_transformation (m_primaryPlane o') = pl_transformation (m_primaryPlane o).

(** What a page flip leaves alone: everything but the buffer slots, the
    flip list and the events that are no commits. *)
Definition same_control (o o' : DrmOutput) : Prop :=
  gpu o' = gpu o /\ backend o' = backend o /\ isEnabled o' = isEnabled o
  /\ m_dpms o' = m_dpms o /\ m_crtc o' = m_crtc o /\ m_deleted o' = m_deleted o
  /\ m_dpmsMode o' = m_dpmsMode o /\ m_dpmsModePending o' = m_dpmsModePending o
  /\ m_pageFlipPending o' = m_pageFlipPending o
  /\ m_atomicOffPending o' = m_atomicOffPending o
  /\ m_modesetRequested o' = m_modesetRequested o
  /\ kernel o' = kernel o /\ commits o' = commits o.

(** Example outputs.  [mode_1080p] has been committed and is on screen;
    [mode_2160p] has been asked for since. *)
Definition mode_1080p : drmModeModeInfo := mkMode 148500 1920 1080 60.
Definition mode_2160p : drmModeModeInfo := mkMode 533250 3840 2160 60.

(** An atomic output that shows buffer 1 in 1080p and has just been told to
    switch to 2160p, rotated and moved; the kernel is going to reject the
    test commit (the sixth answer). *)
Definition output_mode_change : DrmOutput := {|
  gpu := mkGpu true true false false;
  backend := mkBackend true true (fun _ _ => false);
  isEnabled := true; m_dpms := true;
  m_crtc := Some (mkCrtc None None);
  m_primaryPlane := mkPlane (Some 1%nat) None 1;
  m_nextPlanesFlipList := [];
  m_deleted := false; m_dpmsMode := On; m_dpmsModePending := On;
  m_pageFlipPending := false; m_atomicOffPending := false; m_modesetRequested := true;
  m_mode := mode_2160p; transform := Rotated180; globalPos := mkPoint 1920 0;
  m_lastWorkingState := mkLws true mode_1080p Normal (mkPoint 0 0) 1;
  kernel := [true; true; true; true; true; false];
  trace := [] |}.

(** An atomic output in steady state with a flip in flight: buffer 1 is on
    screen, buffer 2 has been committed and waits for the flip event. *)
Definition output_flip_pending : DrmOutput := {|
  gpu := mkGpu true true false false;
  backend := mkBackend true true (fun _ _ => false);
  isEnabled := true; m_dpms := true;
  m_crtc := Some (mkCrtc None None);
  m_primaryPlane := mkPlane (Some 1%nat) (Some 2%nat) 1;
  m_nextPlanesFlipList := [PrimaryPlane];
  m_deleted := false; m_dpmsMode := On; m_dpmsModePending := On;
  m_pageFlipPending := true; m_atomicOffPending := false; m_modesetRequested := false;
  m_mode := mode_1080p; transform := Normal; globalPos := mkPoint 0 0;
  m_lastWorkingState := mkLws true mode_1080p Normal (mkPoint 0 0) 1;
  kernel := [];
  trace := [] |}.

(** The same output after a manual VT switch: the flip is in flight, but
    the primary plane holds no next buffer. *)
Definition output_flip_pending_no_next : DrmOutput := {|
  gpu := mkGpu true true false false;
  backend := mkBackend true true (fun _ _ => false);
  isEnabled := true; m_dpms := true;
  m_crtc := Some (mkCrtc None None);
  m_primaryPlane := mkPlane (Some 1%nat) None 1;
  m_nextPlanesFlipList := [];
  m_deleted := false; m_dpmsMode := On; m_dpmsModePending := On;
  m_pageFlipPending := true; m_atomicOffPending := false; m_modesetRequested := false;
  m_mode := mode_1080p; transform := Normal; globalPos := mkPoint 0 0;
  m_lastWorkingState := mkLws true mode_1080p Normal (mkPoint 0 0) 1;
  kernel := [];
  trace := [] |}.

(** The output of [output_flip_pending] as [teardown] leaves it: marked as
    deleted and without the current buffer of its primary plane; it is
    kept until the flip event. *)
Definition output_flip_pending_deleted : DrmOutput := {|
  gpu := mkGpu true true false false;
  backend := mkBackend true true (fun _ _ => false);
  isEnabled := true; m_dpms := true;
  m_crtc := Some (mkCrtc None None);
  m_primaryPlane := mkPlane None (Some 2%nat) 1;
  m_nextPlanesFlipList := [PrimaryPlane];
  m_deleted := true; m_dpmsMode := On; m_dpmsModePending := On;
  m_pageFlipPending := true; m_atomicOffPending := false; m_modesetRequested := false;
  m_mode := mode_1080p; transform := Normal; globalPos := mkPoint 0 0;
  m_lastWorkingState := mkLws true mode_1080p Normal (mkPoint 0 0) 1;
  kernel := [];
  trace := [] |}.

(** [pageFlipped] runs to its last statement: the output is not deleted,
    has a CRTC and, where buffers are deleted after a flip, its primary
    plane holds a next buffer. *)
Definition handler_reaches_end (o : DrmOutput) : bool :=
  negb (m_deleted o)
  && bool_decide (is_Some (m_crtc o))
  && (negb (deleteBufferAfterPageFlip (gpu o))
      || bool_decide (is_Some (pl_next (m_primaryPlane o)))).

(** A legacy (non-atomic) output whose flip flag is set while the "next"
    slot of its CRTC is free. *)
Definition output_legacy_flagged : DrmOutput := {|
  gpu := mkGpu false true false false;
  backend := mkBackend true true (fun _ _ => false);
  isEnabled := true; m_dpms := true;
  m_crtc := Some (mkCrtc (Some 1%nat) None);
  m_primaryPlane := mkPlane None None 1;
  m_nextPlanesFlipList := [];
  m_deleted := false; m_dpmsMode := On; m_dpmsModePending := On;
  m_pageFlipPending := true; m_atomicOffPending := false; m_modesetRequested := false;
  m_mode := mode_1080p; transform := Normal; globalPos := mkPoint 0 0;
  m_lastWorkingState := mkLws false mode_1080p Normal (mkPoint 0 0) 1;
  kernel := [];
  trace := [] |}.

(** What the steps of a commit before the commit itself leave alone. *)
Definition same_request (o o' : DrmOutput) : Prop :=
  m_dpmsMode o' = m_dpmsMode o /\ m_dpmsModePending o' = m_dpmsModePending o
  /\ m_modesetRequested o' = m_modesetRequested o
  /\ m_pageFlipPending o' = m_pageFlipPending o
  /\ m_nextPlanesFlipList o' = m_nextPlanesFlipList o
  /\ m_atomicOffPending o' = m_atomicOffPending o.

(** What the error handler of a commit leaves behind. *)
Definition unstaged (o o' : DrmOutput) : Prop :=
  m_nextPlanesFlipList o' = []
  /\ m_dpmsModePending o' = m_dpmsMode o'
  /\ m_dpmsMode o' = m_dpmsMode o
  /\ m_modesetRequested o' = m_modesetRequested o
  /\ m_pageFlipPending o' = m_pageFlipPending o
  /\ m_atomicOffPending o' = m_atomicOffPending o
  /\ (m_nextPlanesFlipList o <> [] -> pl_next (m_primaryPlane o') = None).

(** An atomic output that is about to be told a commit cannot be
    allocated: buffer 2 is staged behind buffer 1. *)
Definition output_commit_fails : DrmOutput := {|
  gpu := mkGpu true true false false;
  backend := mkBackend true true (fun _ _ => false);
  isEnabled := true; m_dpms := true;
  m_crtc := Some (mkCrtc None None);
  m_primaryPlane := mkPlane (Some 1%nat) (Some 2%nat) 1;
  m_nextPlanesFlipList := [PrimaryPlane];
  m_deleted := false; m_dpmsMode := On; m_dpmsModePending := On;
  m_pageFlipPending := false; m_atomicOffPending := false; m_modesetRequested := false;
  m_mode := mode_1080p; transform := Normal; globalPos := mkPoint 0 0;
  m_lastWorkingState := mkLws true mode_1080p Normal (mkPoint 0 0) 1;
  kernel := [false];
  trace := [] |}.

(** The buffers an output has deleted so far. *)
Definition deletions (o : DrmOutput) : list Buffer :=
  omap (fun e => match e with DeleteBuffer b => Some b | _ => None end) (trace o).

(** The fields of [drmModeModeInfo] that [refreshRateForMode] reads:
    [clock] and [flags] are [uint32_t], the others [uint16_t]. *)
Record ModeTimings := mkTimings {
  t_clock : Z; t_htotal : Z; t_vtotal : Z; t_vscan : Z; t_flags : Z
}.

Definition DRM_MODE_FLAG_INTERLACE : Z := Z.shiftl 1 4.
Definition DRM_MODE_FLAG_DBLSCAN : Z := Z.shiftl 1 5.

(** Arithmetic in [long long] and in [quint64]: the value a result of
    that type has, wrap-around written out. *)
Definition int64 (x : Z) : Z := (x + 2 ^ 63) mod 2 ^ 64 - 2 ^ 63.
Definition uint64 (x : Z) : Z := x mod 2 ^ 64.

(** [refreshRateForMode]: the refresh rate in mHz.  The first line is
    computed in [long long] (the literal [1000000LL] makes it so), the rest
    in [quint64]; a division by zero is undefined. *)
Definition refreshRateForMode (m : ModeTimings) : option Z :=
  if (t_htotal m =? 0) || (t_vtotal m =? 0) then None
  else
    let refreshRate :=
      uint64 (int64 (int64 (int64 (t_clock m * 1000000) ÷ t_htotal m + t_vtotal m ÷ 2)
                     ÷ t_vtotal m)) in
    let refreshRate :=
      if negb (Z.land (t_flags m) DRM_MODE_FLAG_INTERLACE =? 0)
      then uint64 (refreshRate * 2) else refreshRate in
    let refreshRate :=
      if negb (Z.land (t_flags m) DRM_MODE_FLAG_DBLSCAN =? 0)
      then refreshRate ÷ 2 else refreshRate in
    let refreshRate :=
      if 1 <? t_vscan m then refreshRate ÷ t_vscan m else refreshRate in
    Some refreshRate.

(** The timings of 1920x1080 at 60 Hz. *)
Definition timings_1080p : ModeTimings := mkTimings 148500 2200 1125 0 0.

End DrmOutput.


(* ===================================================================== *)
(** * Render backend: the frame bracket of the DRM EGL backend             *)
(* ===================================================================== *)

Module EglGbmBackend.
Import OpenGLBackend.

(** [EglGbmBackend::Output]: the DRM output it renders to, the buffer last
    handed to it and the age of the back buffer. *)
Record Output := mkOutput { output : nat; buffer : option nat; bufferAge : Z }.

(** Calls into EGL, GL and the DRM backend, in the order they are made. *)
Inductive Event :=
| GlFlush
| MakeContextCurrent (o : nat)
| EglSwapBuffers (o : nat)
| CreateBuffer (o : nat) (b : nat)
| BackendPresent (b : nat) (o : nat)
| DeleteBuffer (b : nat)
| QueryBufferAge (o : nat).

(** The backend.  [fresh] is the buffer [createBuffer] returns next and
    [ages] the answers [eglQuerySurface] is going to give; a query without
    an answer fails and leaves the age as it is. *)
Record Backend := mkEgl {
  m_outputs : list Output;
  m_damageHistory : DamageHistory;
  supportsBufferAge : bool;
  fresh : nat;
  ages : list Z;
  log : list Event
}.

(** The body of the loop of [EglGbmBackend::present] for one output. *)
Definition present_output (supports : bool) (st : nat * list Z * list Event) (o : Output)
  : (nat * list Z * list Event) * Output :=
  let '(fr, ag, lg) := st in
  let lg := lg ++ [MakeContextCurrent (output o); EglSwapBuffers (output o);
                   CreateBuffer (output o) fr; BackendPresent fr (output o)] in
  let lg := match buffer o with Some old => lg ++ [DeleteBuffer old] | None => lg end in
  if supports then
    match ag with
    | a :: rest => ((S fr, rest, lg ++ [QueryBufferAge (output o)]), mkOutput (output o) (Some fr) a)
    | [] => ((S fr, [], lg ++ [QueryBufferAge (output o)]),
             mkOutput (output o) (Some fr) (bufferAge o))
    end
  else ((S fr, ag, lg), mkOutput (output o) (Some fr) (bufferAge o)).

Fixpoint present_outputs (supports : bool) (st : nat * list Z * list Event) (os : list Output)
  : (nat * list Z * list Event) * list Output :=
  match os with
  | [] => (st, [])
  | o :: rest =>
    let '(st1, o1) := present_output supports st o in
    let '(st2, rest1) := present_outputs supports st1 rest in
    (st2, o1 :: rest1)
  end.

(** [EglGbmBackend::present] *)
Definition present (b : Backend) : Backend :=
  let '((fr, ag, lg), os) :=
    present_outputs (supportsBufferAge b) (fresh b, ages b, log b) (m_outputs b) in
  mkEgl os (m_damageHistory b) (supportsBufferAge b) fr ag lg.

(** [EglGbmBackend::endRenderingFrame] *)
Definition endRenderingFrame (b : Backend) (renderedRegion damagedRegion : QRegion) : Backend :=
  if isEmpty damagedRegion then
    let lg := if negb (isEmpty renderedRegion) then log b ++ [GlFlush] else log b in
    mkEgl (map (fun o => mkOutput (output o) (buffer o) 1) (m_outputs b))
          (m_damageHistory b) (supportsBufferAge b) (fresh b) (ages b) lg
  else
    let b1 := present b in
    if supportsBufferAge b1
    then mkEgl (m_outputs b1) (addToDamageHistory (m_damageHistory b1) damagedRegion)
               (supportsBufferAge b1) (fresh b1) (ages b1) (log b1)
    else b1.

(** A swap or a present call. *)
Definition is_presentation (e : Event) : bool :=
  match e with
  | EglSwapBuffers _ | BackendPresent _ _ => true
  | _ => false
  end.

(** A backend with two outputs, one of them with a buffer on screen, and
    one frame of recorded damage. *)
Definition backend_two_outputs : Backend :=
  mkEgl [mkOutput 0 (Some 7%nat) 3; mkOutput 1 None 0] [QRegion_xywh 0 0 4 4]
        true 8 [2] [].

(** [EglGbmBackend::prepareRenderingFrame]: the repaint the next frame
    starts with; [s] is [screens()->size()].  (The render timer that is
    started as well is no part of this state.) *)
Definition prepareRenderingFrame (s : QSize) (b : Backend) : QRegion :=
  if supportsBufferAge b then
    fold_left (fun repaint o =>
                 united repaint (accumulatedDamageHistory s (m_damageHistory b) (bufferAge o)))
              (m_outputs b) QRegion_empty
  else QRegion_empty.

(** The buffers deleted, and the buffers handed to the DRM backend with
    their outputs, in a stretch of the log. *)
Definition deleted (l : list Event) : list nat :=
  omap (fun e => match e with DeleteBuffer b => Some b | _ => None end) l.

Definition presented (l : list Event) : list (nat * nat) :=
  omap (fun e => match e with BackendPresent b o => Some (b, o) | _ => None end) l.

(** A backend with two outputs and double buffering: the driver is going to
    report an age of 2 for both after the next swap. *)
Definition backend_double_buffered : Backend :=
  mkEgl [mkOutput 0 (Some 7%nat) 2; mkOutput 1 (Some 8%nat) 2] [QRegion_xywh 0 0 4 4]
        true 9 [2; 2] [].

End EglGbmBackend.

(* ===================================================================== *)
(** * Item tree                                                            *)
(* ===================================================================== *)

Module Item.

(** An [Item *] that is not null. *)
Abbreviation ItemId := nat.

(** The members of [Item].  [connections] lists the items whose
    [updateBoundingRect] slot is connected to this item's [xChanged],
    [yChanged] and [boundingRectChanged] signals ([addChild] connects and
    [removeChild] disconnects the three together).  [scheduleRepaint] and
    [discardQuads] act on the owning [Scene::Window] only and are left
    out. *)
Record Item := mkItem {
  m_parentItem : option ItemId;
  m_childItems : list ItemId;
  connections : list ItemId;
  m_boundingRect : QRect;
  m_x : Z;
  m_y : Z;
  m_width : Z;
  m_implicitWidth : Z;
  m_height : Z;
  m_implicitHeight : Z;
  m_widthValid : bool;
  m_heightValid : bool
}.

Definition set_m_parentItem (v : option ItemId) (it : Item) : Item :=
  {| m_parentItem := v; m_childItems := m_childItems it; connections := connections it;
     m_boundingRect := m_boundingRect it; m_x := m_x it; m_y := m_y it; m_width := m_width it;
     m_implicitWidth := m_implicitWidth it; m_height := m_height it; m_implicitHeight :=
     m_implicitHeight it; m_widthValid := m_widthValid it; m_heightValid := m_heightValid it |}.

Definition set_m_childItems (v : list ItemId) (it : Item) : Item :=
  {| m_parentItem := m_parentItem it; m_childItems := v; connections := connections it;
     m_boundingRect := m_boundingRect it; m_x := m_x it; m_y := m_y it; m_width := m_width it;
     m_implicitWidth := m_implicitWidth it; m_height := m_height it; m_implicitHeight :=
     m_implicitHeight it; m_widthValid := m_widthValid it; m_heightValid := m_heightValid it |}.

Definition set_connections (v : list ItemId) (it : Item) : Item :=
  {| m_parentItem := m_parentItem it; m_childItems := m_childItems it; connections := v;
     m_boundingRect := m_boundingRect it; m_x := m_x it; m_y := m_y it; m_width := m_width it;
     m_implicitWidth := m_implicitWidth it; m_height := m_height it; m_implicitHeight :=
     m_implicitHeight it; m_widthValid := m_widthValid it; m_heightValid := m_heightValid it |}.

Definition set_m_boundingRect (v : QRect) (it : Item) : Item :=
  {| m_parentItem := m_parentItem it; m_childItems := m_childItems it; connections :=
     connections it; m_boundingRect := v; m_x := m_x it; m_y := m_y it; m_width := m_width it;
     m_implicitWidth := m_implicitWidth it; m_height := m_height it; m_implicitHeight :=
     m_implicitHeight it; m_widthValid := m_widthValid it; m_heightValid := m_heightValid it |}.

Definition set_m_x (v : Z) (it : Item) : Item :=
  {| m_parentItem := m_parentItem it; m_childItems := m_childItems it; connections :=
     connections it; m_boundingRect := m_boundingRect it; m_x := v; m_y := m_y it; m_width :=
     m_width it; m_implicitWidth := m_implicitWidth it; m_height := m_height it;
     m_implicitHeight := m_implicitHeight it; m_widthValid := m_widthValid it; m_heightValid :=
     m_heightValid it |}.

Definition set_m_y (v : Z) (it : Item) : Item :=
  {| m_parentItem := m_parentItem it; m_childItems := m_childItems it; connections :=
     connections it; m_boundingRect := m_boundingRect it; m_x := m_x it; m_y := v; m_width :=
     m_width it; m_implicitWidth := m_implicitWidth it; m_height := m_height it;
     m_implicitHeight := m_implicitHeight it; m_widthValid := m_widthValid it; m_heightValid :=
     m_heightValid it |}.

Definition set_m_width (v : Z) (it : Item) : Item :=
  {| m_parentItem := m_parentItem it; m_childItems := m_childItems it; connections :=
     connections it; m_boundingRect := m_boundingRect it; m_x := m_x it; m_y := m_y it; m_width
     := v; m_implicitWidth := m_implicitWidth it; m_height := m_height it; m_implicitHeight :=
     m_implicitHeight it; m_widthValid := m_widthValid it; m_heightValid := m_heightValid it |}.

Definition set_m_implicitWidth (v : Z) (it : Item) : Item :=
  {| m_parentItem := m_parentItem it; m_childItems := m_childItems it; connections :=
     connections it; m_boundingRect := m_boundingRect it; m_x := m_x it; m_y := m_y it; m_width
     := m_width it; m_implicitWidth := v; m_height := m_height it; m_implicitHeight :=
     m_implicitHeight it; m_widthValid := m_widthValid it; m_heightValid := m_heightValid it |}.

Definition set_m_height (v : Z) (it : Item) : Item :=
  {| m_parentItem := m_parentItem it; m_childItems := m_childItems it; connections :=
     connections it; m_boundingRect := m_boundingRect it; m_x := m_x it; m_y := m_y it; m_width
     := m_width it; m_implicitWidth := m_implicitWidth it; m_height := v; m_implicitHeight :=
     m_implicitHeight it; m_widthValid := m_widthValid it; m_heightValid := m_heightValid it |}.

Definition set_m_implicitHeight (v : Z) (it : Item) : Item :=
  {| m_parentItem := m_parentItem it; m_childItems := m_childItems it; connections :=
     connections it; m_boundingRect := m_boundingRect it; m_x := m_x it; m_y := m_y it; m_width
     := m_width it; m_implicitWidth := m_implicitWidth it; m_height := m_height it;
     m_implicitHeight := v; m_widthValid := m_widthValid it; m_heightValid := m_heightValid it
     |}.

Definition set_m_widthValid (v : bool) (it : Item) : Item :=
  {| m_parentItem := m_parentItem it; m_childItems := m_childItems it; connections :=
     connections it; m_boundingRect := m_boundingRect it; m_x := m_x it; m_y := m_y it; m_width
     := m_width it; m_implicitWidth := m_implicitWidth it; m_height := m_height it;
     m_implicitHeight := m_implicitHeight it; m_widthValid := v; m_heightValid := m_heightValid
     it |}.

Definition set_m_heightValid (v : bool) (it : Item) : Item :=
  {| m_parentItem := m_parentItem it; m_childItems := m_childItems it; connections :=
     connections it; m_boundingRect := m_boundingRect it; m_x := m_x it; m_y := m_y it; m_width
     := m_width it; m_implicitWidth := m_implicitWidth it; m_height := m_height it;
     m_implicitHeight := m_implicitHeight it; m_widthValid := m_widthValid it; m_heightValid :=
     v |}.

(** The members of a freshly constructed item. *)
Definition new_item : Item :=
  mkItem None [] [] QRect_null 0 0 0 0 0 0 false false.

(** [Item::width], [height], [size], [position], [rect], [boundingRect] *)
Definition width (it : Item) : Z := if m_widthValid it then m_width it else m_implicitWidth it.
Definition height (it : Item) : Z := if m_heightValid it then m_height it else m_implicitHeight it.
Definition size (it : Item) : QSize := mkSize (width it) (height it).
Definition position (it : Item) : QPoint := mkPoint (m_x it) (m_y it).
Definition rect (it : Item) : QRect := QRect_of (mkPoint 0 0) (size it).
Definition boundingRect (it : Item) : QRect := m_boundingRect it.

(** The items alive, by address.  [None] as the result of an operation
    stands for a dereferenced dangling pointer, a failed [Q_ASSERT], or a
    signal cascade that did not come to an end within the given fuel. *)
Abbreviation Items := (gmap nat Item).

(** The loop of [Item::updateBoundingRect]: the item's own rectangle united
    with the translated bounding rectangle of each child, in list order. *)
Definition childrenBound (h : Items) (it : Item) : option QRect :=
  foldl (fun acc c =>
           r ← acc; ct ← h !! c;
           Some (rect_united r (rect_translated (boundingRect ct) (position ct))))
        (Some (rect it)) (m_childItems it).

(** [Item::updateBoundingRect]; on a change [boundingRectChanged] is
    emitted, which runs the slot of every connected item. *)
Fixpoint updateBoundingRect (fuel : nat) (i : ItemId) (h : Items) : option Items :=
  match fuel with
  | O => None
  | S fuel' =>
    it ← h !! i;
    br ← childrenBound h it;
    if rect_eqb (m_boundingRect it) br then Some h
    else foldl (fun acc p => h' ← acc; updateBoundingRect fuel' p h')
               (Some (<[i := set_m_boundingRect br it]> h)) (connections it)
  end.

(** [emit xChanged()] and [emit yChanged()] of item [i]. *)
Definition emit_moved (fuel : nat) (i : ItemId) (h : Items) : option Items :=
  it ← h !! i;
  foldl (fun acc p => h' ← acc; updateBoundingRect fuel p h') (Some h) (connections it).

(** [Item::setX] *)
Definition setX (fuel : nat) (i : ItemId) (x : Z) (h : Items) : option Items :=
  it ← h !! i;
  if m_x it =? x then Some h
  else emit_moved fuel i (<[i := set_m_x x it]> h).

(** [Item::setY] *)
Definition setY (fuel : nat) (i : ItemId) (y : Z) (h : Items) : option Items :=
  it ← h !! i;
  if m_y it =? y then Some h
  else emit_moved fuel i (<[i := set_m_y y it]> h).

(** [Item::setPosition] *)
Definition setPosition (fuel : nat) (i : ItemId) (point : QPoint) (h : Items) : option Items :=
  it ← h !! i;
  let xDirty := negb (m_x it =? px point) in
  let yDirty := negb (m_y it =? py point) in
  let h1 := <[i := set_m_y (py point) (set_m_x (px point) it)]> h in
  if xDirty || yDirty then
    h2 ← (if xDirty then emit_moved fuel i h1 else Some h1);
    if yDirty then emit_moved fuel i h2 else Some h2
  else Some h1.

(** [Item::setWidth] *)
Definition setWidth (fuel : nat) (i : ItemId) (w : Z) (h : Items) : option Items :=
  it ← h !! i;
  if m_widthValid it && (m_width it =? w) then Some h
  else updateBoundingRect fuel i (<[i := set_m_width w (set_m_widthValid true it)]> h).

(** [Item::setHeight] *)
Definition setHeight (fuel : nat) (i : ItemId) (hgt : Z) (h : Items) : option Items :=
  it ← h !! i;
  if m_heightValid it && (m_height it =? hgt) then Some h
  else updateBoundingRect fuel i (<[i := set_m_height hgt (set_m_heightValid true it)]> h).

(** [Item::setImplicitWidth] *)
Definition setImplicitWidth (fuel : nat) (i : ItemId) (w : Z) (h : Items) : option Items :=
  it ← h !! i;
  if m_implicitWidth it =? w then Some h
  else if m_widthValid it then Some (<[i := set_m_implicitWidth w it]> h)
  else updateBoundingRect fuel i (<[i := set_m_implicitWidth w it]> h).

(** [Item::setImplicitHeight] *)
Definition setImplicitHeight (fuel : nat) (i : ItemId) (hgt : Z) (h : Items) : option Items :=
  it ← h !! i;
  if m_implicitHeight it =? hgt then Some h
  else if m_heightValid it then Some (<[i := set_m_implicitHeight hgt it]> h)
  else updateBoundingRect fuel i (<[i := set_m_implicitHeight hgt it]> h).

(** [Item::resetWidth] *)
Definition resetWidth (fuel : nat) (i : ItemId) (h : Items) : option Items :=
  it ← h !! i;
  setImplicitWidth fuel i (m_implicitWidth it) (<[i := set_m_widthValid false it]> h).

(** [Item::resetHeight] *)
Definition resetHeight (fuel : nat) (i : ItemId) (h : Items) : option Items :=
  it ← h !! i;
  setImplicitHeight fuel i (m_implicitHeight it) (<[i := set_m_heightValid false it]> h).

(** [Item::setSize] *)
Definition setSize (fuel : nat) (i : ItemId) (s : QSize) (h : Items) : option Items :=
  it ← h !! i;
  let widthDirty := negb (width it =? wd s) in
  let heightDirty := negb (height it =? ht s) in
  let h1 := <[i := set_m_heightValid true (set_m_height (ht s)
                     (set_m_widthValid true (set_m_width (wd s) it)))]> h in
  if widthDirty || heightDirty then updateBoundingRect fuel i h1 else Some h1.

(** [Item::setImplicitSize] *)
Definition setImplicitSize (fuel : nat) (i : ItemId) (s : QSize) (h : Items) : option Items :=
  it ← h !! i;
  let widthDirty := negb (m_implicitWidth it =? wd s) && negb (m_widthValid it) in
  let heightDirty := negb (m_implicitHeight it =? ht s) && negb (m_heightValid it) in
  let h1 := <[i := set_m_implicitHeight (ht s) (set_m_implicitWidth (wd s) it)]> h in
  if widthDirty || heightDirty then updateBoundingRect fuel i h1 else Some h1.

(** [QList::removeOne]: the first occurrence goes. *)
Fixpoint removeOne (x : ItemId) (l : list ItemId) : list ItemId :=
  match l with
  | [] => []
  | y :: rest => if decide (y = x) then rest else y :: removeOne x rest
  end.

(** [QList::contains] *)
Definition containsItem (l : list ItemId) (x : ItemId) : bool := bool_decide (x ∈ l).

(** [Item::addChild], called on [p] with the child [i]. *)
Definition addChild (fuel : nat) (p i : ItemId) (h : Items) : option Items :=
  pt ← h !! p;
  if containsItem (m_childItems pt) i then None
  else
    it ← h !! i;
    let h1 := <[i := set_connections (connections it ++ [p]) it]> h in
    pt1 ← h1 !! p;
    let h2 := <[p := set_m_childItems (m_childItems pt1 ++ [i]) pt1]> h1 in
    updateBoundingRect fuel p h2.

(** [Item::removeChild], called on [p] with the child [i]. *)
Definition removeChild (fuel : nat) (p i : ItemId) (h : Items) : option Items :=
  pt ← h !! p;
  if negb (containsItem (m_childItems pt) i) then None
  else
    _ ← h !! i;
    let h1 := <[p := set_m_childItems (removeOne i (m_childItems pt)) pt]> h in
    it ← h1 !! i;
    let h2 := <[i := set_connections (filter (fun q => q ≠ p) (connections it)) it]> h1 in
    updateBoundingRect fuel p h2.

(** [Item::setParentItem] *)
Definition setParentItem (fuel : nat) (i : ItemId) (item : option ItemId) (h : Items)
  : option Items :=
  it ← h !! i;
  if decide (m_parentItem it = item) then Some h
  else
    h1 ← match m_parentItem it with
         | Some p => removeChild fuel p i h
         | None => Some h
         end;
    it1 ← h1 !! i;
    let h2 := <[i := set_m_parentItem item it1]> h1 in
    match item with
    | Some q => addChild fuel q i h2
    | None => Some h2
    end.

(** [Item::Item]: the new item gets the unused address [i]. *)
Definition newItem (fuel : nat) (i : ItemId) (parent : option ItemId) (h : Items)
  : option Items :=
  match h !! i with
  | Some _ => None
  | None => setParentItem fuel i parent (<[i := new_item]> h)
  end.

(** [Item::stackChildren]; [debug] is a build without [QT_NO_DEBUG], in
    which the parent of every listed item is asserted. *)
Definition stackChildren (debug : bool) (i : ItemId) (children : list ItemId) (h : Items)
  : option Items :=
  it ← h !! i;
  if negb (length (m_childItems it) =? length children)%nat then Some h
  else if debug && negb (forallb (fun c =>
            match h !! c with
            | Some ct => bool_decide (m_parentItem ct = Some i)
            | None => false
            end) children)
  then None
  else Some (<[i := set_m_childItems children it]> h).

(** [Item::childItems] *)
Definition childItems (h : Items) (i : ItemId) : option (list ItemId) :=
  m_childItems <$> h !! i.

(** The geometry and re-parenting operations of the public interface. *)
Inductive Op :=
| SetX (i : ItemId) (x : Z)
| SetY (i : ItemId) (y : Z)
| SetPosition (i : ItemId) (point : QPoint)
| SetWidth (i : ItemId) (w : Z)
| SetHeight (i : ItemId) (hgt : Z)
| SetSize (i : ItemId) (s : QSize)
| SetImplicitWidth (i : ItemId) (w : Z)
| SetImplicitHeight (i : ItemId) (hgt : Z)
| SetImplicitSize (i : ItemId) (s : QSize)
| SetParentItem (i : ItemId) (item : option ItemId)
| NewItem (i : ItemId) (parent : option ItemId).

Definition apply (fuel : nat) (op : Op) (h : Items) : option Items :=
  match op with
  | SetX i x => setX fuel i x h
  | SetY i y => setY fuel i y h
  | SetPosition i p => setPosition fuel i p h
  | SetWidth i w => setWidth fuel i w h
  | SetHeight i hgt => setHeight fuel i hgt h
  | SetSize i s => setSize fuel i s h
  | SetImplicitWidth i w => setImplicitWidth fuel i w h
  | SetImplicitHeight i hgt => setImplicitHeight fuel i hgt h
  | SetImplicitSize i s => setImplicitSize fuel i s h
  | SetParentItem i item => setParentItem fuel i item h
  | NewItem i parent => newItem fuel i parent h
  end.

Fixpoint run (fuel : nat) (ops : list Op) (h : Items) : option Items :=
  match ops with
  | [] => Some h
  | op :: rest => h' ← apply fuel op h; run fuel rest h'
  end.

(** The bounding-rectangle invariant: every item's [boundingRect()] is its
    own [rect()] united with each child's [boundingRect()] translated by
    that child's [position()]. *)
Definition bounding_ok (h : Items) : Prop :=
  forall i it, h !! i = Some it -> childrenBound h it = Some (boundingRect it).

(** The part of an item the tree structure is made of: parent, children
    and connections. *)
Abbreviation Skeleton := (option nat * list nat * list nat)%type.

Definition sk_parent (sk : Skeleton) : option ItemId := sk.1.1.
Definition sk_children (sk : Skeleton) : list ItemId := sk.1.2.
Definition sk_connections (sk : Skeleton) : list ItemId := sk.2.

Definition skeleton (it : Item) : Skeleton :=
  (m_parentItem it, m_childItems it, connections it).

Definition skeletons (h : Items) : gmap nat Skeleton := skeleton <$> h.

(** What [childrenBound] reads from a child. *)
Definition extent (it : Item) : QRect * QPoint := (boundingRect it, position it).

(** The parent pointers of [j] lead to an item without parent. *)
Inductive anchored (s : gmap nat Skeleton) : ItemId -> Prop :=
| anchored_root j sk :
    s !! j = Some sk -> sk_parent sk = None -> anchored s j
| anchored_child j sk k :
    s !! j = Some sk -> sk_parent sk = Some k -> anchored s k -> anchored s j.

(** The same, and [i] is not met on the way: [j] is neither [i] nor below
    [i] in the tree. *)
Inductive avoids (s : gmap nat Skeleton) (i : ItemId) : ItemId -> Prop :=
| avoids_root j sk :
    j <> i -> s !! j = Some sk -> sk_parent sk = None -> avoids s i j
| avoids_child j sk k :
    j <> i -> s !! j = Some sk -> sk_parent sk = Some k -> avoids s i k -> avoids s i j.

(** Who is connected to whom. *)
Definition conns (h : Items) : gmap nat (list nat) := connections <$> h.

(** The signals of [j] reach an item to which nothing is connected. *)
Inductive grounded (c : gmap nat (list nat)) : ItemId -> Prop :=
| grounded_top j :
    c !! j = Some [] -> grounded c j
| grounded_up j k :
    c !! j = Some [k] -> grounded c k -> grounded c j.

(** An item tree (a forest, rather): parent pointers and child lists agree,
    every child is connected to its parent and to nothing else, no child is
    listed twice, and there are no cycles. *)
Record tree_sk (s : gmap nat Skeleton) : Prop := mkTree {
  tree_parent : forall j sk k,
    s !! j = Some sk -> sk_parent sk = Some k ->
    exists skk, s !! k = Some skk /\ j ∈ sk_children skk;
  tree_child : forall k skk j,
    s !! k = Some skk -> j ∈ sk_children skk ->
    exists sk, s !! j = Some sk /\ sk_parent sk = Some k;
  tree_conn : forall j sk,
    s !! j = Some sk -> sk_connections sk = option_list (sk_parent sk);
  tree_nodup : forall k skk, s !! k = Some skk -> NoDup (sk_children skk);
  tree_anchored : forall j, is_Some (s !! j) -> anchored s j
}.

Definition tree (h : Items) : Prop := tree_sk (skeletons h).

(** Two stores with the same tree structure. *)
Definition same_skel (h h' : Items) : Prop := skeletons h = skeletons h'.

(** Every listed child exists and its signals are connected to the item
    that lists it, and to nothing else. *)
Definition links (h : Items) : Prop :=
  forall k kt j, h !! k = Some kt -> j ∈ m_childItems kt ->
    exists jt, h !! j = Some jt /\ connections jt = [k].

(** One round of the loop of [updateBoundingRect]. *)
Definition bound_step (h : Items) (acc : option QRect) (c : ItemId) : option QRect :=
  r ← acc; ct ← h !! c;
  Some (rect_united r (rect_translated (boundingRect ct) (position ct))).

(** The invariant holds everywhere but at [i]. *)
Definition ok_except (h : Items) (i : ItemId) : Prop :=
  forall j jt, j <> i -> h !! j = Some jt -> childrenBound h jt = Some (boundingRect jt).

(** What a caller gets from an operation: with enough fuel it comes to an
    end, in a tree in which the invariant holds (and of which [P] holds). *)
Definition settles_to (P : Items -> Prop) (f : nat -> option Items) : Prop :=
  exists h', P h' /\ tree h' /\ bounding_ok h' /\
    exists n, forall fuel, (n <= fuel)%nat -> f fuel = Some h'.

(** The first half of [setParentItem]: the item leaves its parent. *)
Definition detach (fuel : nat) (i : ItemId) (h : Items) : option Items :=
  it ← h !! i;
  match m_parentItem it with
  | Some p =>
    h1 ← removeChild fuel p i h;
    it1 ← h1 !! i;
    Some (<[i := set_m_parentItem None it1]> h1)
  | None => Some h
  end.

(** The second half: an item without parent gets one. *)
Definition attach (fuel : nat) (i q : ItemId) (h : Items) : option Items :=
  it ← h !! i;
  addChild fuel q i (<[i := set_m_parentItem (Some q) it]> h).

(** What is left of the tree structure when [i] has left its parent [p],
    and what becomes of it when [i], without parent, is put below [q]. *)
Definition sk_detached (i p : ItemId) (s : gmap nat Skeleton) : gmap nat Skeleton :=
  match s !! i, s !! p with
  | Some ski, Some skp =>
    <[i := (None, sk_children ski, [])]>
      (<[p := (sk_parent skp, removeOne i (sk_children skp), sk_connections skp)]> s)
  | _, _ => s
  end.

Definition sk_attached (i q : ItemId) (s : gmap nat Skeleton) : gmap nat Skeleton :=
  match s !! i, s !! q with
  | Some ski, Some skq =>
    <[q := (sk_parent skq, sk_children skq ++ [i], sk_connections skq)]>
      (<[i := (Some q, sk_children ski, [q])]> s)
  | _, _ => s
  end.

(** The operations a caller may ask for: the items named exist (a new item
    gets an unused address), and no item is put below itself. *)
Definition op_ok (h : Items) (op : Op) : Prop :=
  match op with
  | SetX i _ | SetY i _ | SetPosition i _ | SetWidth i _ | SetHeight i _ | SetSize i _
  | SetImplicitWidth i _ | SetImplicitHeight i _ | SetImplicitSize i _
  | SetParentItem i None => is_Some (h !! i)
  | SetParentItem i (Some q) => is_Some (h !! i) /\ avoids (skeletons h) i q
  | NewItem i None => h !! i = None
  | NewItem i (Some q) => h !! i = None /\ is_Some (h !! q)
  end.

(** A sequence of operations each of which may be asked for when its turn
    comes. *)
Fixpoint ops_ok (h : Items) (ops : list Op) : Prop :=
  match ops with
  | [] => True
  | op :: rest =>
    op_ok h op /\ forall fuel h', apply fuel op h = Some h' -> ops_ok h' rest
  end.

(** A window item gets a surface item and a decoration item; the surface
    item is then put below the decoration item. *)
Definition example_ops : list Op :=
  [NewItem 0%nat None; NewItem 1%nat (Some 0%nat); NewItem 2%nat (Some 0%nat);
   SetSize 1%nat (mkSize 800 600); SetPosition 1%nat (mkPoint 4 30);
   SetSize 2%nat (mkSize 808 634); SetParentItem 1%nat (Some 2%nat)].

(** A window item with two children, for the stacking examples. *)
Definition stack_example_ops : list Op :=
  [NewItem 0%nat None; NewItem 1%nat (Some 0%nat); NewItem 2%nat (Some 0%nat)].

(** [QPoint::operator+] *)
Definition point_add (a b : QPoint) : QPoint := mkPoint (px a + px b) (py a + py b).

(** The loop of [Item::rootPosition] over the parents; a parent chain that
    does not end within the fuel gives [None]. *)
Fixpoint rootPosition_loop (fuel : nat) (h : Items) (ret : QPoint) (parent : option ItemId)
  : option QPoint :=
  match parent with
  | None => Some ret
  | Some p =>
    match fuel with
    | O => None
    | S fuel' =>
      pt ← h !! p;
      rootPosition_loop fuel' h (point_add ret (position pt)) (m_parentItem pt)
    end
  end.

(** [Item::rootPosition] *)
Definition rootPosition (fuel : nat) (h : Items) (i : ItemId) : option QPoint :=
  it ← h !! i;
  rootPosition_loop fuel h (position it) (m_parentItem it).

(** [Item::windowPosition] *)
Fixpoint windowPosition (fuel : nat) (h : Items) (i : ItemId) : option QPoint :=
  match fuel with
  | O => None
  | S fuel' =>
    it ← h !! i;
    parentPos ← match m_parentItem it with
                | Some p => windowPosition fuel' h p
                | None => Some (mkPoint 0 0)
                end;
    Some (point_add parentPos (position it))
  end.

(** [Item::mapToGlobal(const QRect &)] *)
Definition mapToGlobal (fuel : nat) (h : Items) (i : ItemId) (r : QRect) : option QRect :=
  rect_translated r <$> rootPosition fuel h i.

(** [QList::indexOf]: the index of the first occurrence, or -1. *)
Definition indexOf (l : list ItemId) (x : ItemId) : Z :=
  match list_find (fun y => y = x) l with
  | Some (i, _) => Z.of_nat i
  | None => -1
  end.

(** [QList::move(from, to)]: the element at [from] is taken out and put
    back so that it ends up at index [to].  Qt asserts that both indices lie
    within the list; outside of it the behaviour is undefined. *)
Definition move (from to : Z) (l : list ItemId) : option (list ItemId) :=
  if (0 <=? from) && (from <? Z.of_nat (length l))
     && (0 <=? to) && (to <? Z.of_nat (length l))
  then
    x ← l !! Z.to_nat from;
    let rest := delete (Z.to_nat from) l in
    Some (take (Z.to_nat to) rest ++ x :: drop (Z.to_nat to) rest)
  else None.

(** [Item::stackBefore], called on [self]. *)
Definition stackBefore (self : ItemId) (sibling : option ItemId) (h : Items) : option Items :=
  match sibling with
  | None => Some h
  | Some s =>
    st ← h !! s;
    it ← h !! self;
    if match m_parentItem st with None => true | Some _ => false end
       || negb (bool_decide (m_parentItem st = m_parentItem it))
    then Some h
    else if bool_decide (s = self) then Some h
    else
      p ← m_parentItem it;
      pt ← h !! p;
      let selfIndex := indexOf (m_childItems pt) self in
      let siblingIndex := indexOf (m_childItems pt) s in
      if selfIndex =? siblingIndex - 1 then Some h
      else
        l ← move selfIndex (if selfIndex >? siblingIndex then siblingIndex else siblingIndex - 1)
                 (m_childItems pt);
        Some (<[p := set_m_childItems l pt]> h)
  end.

(** [Item::stackAfter], called on [self]. *)
Definition stackAfter (self : ItemId) (sibling : option ItemId) (h : Items) : option Items :=
  match sibling with
  | None => Some h
  | Some s =>
    st ← h !! s;
    it ← h !! self;
    if match m_parentItem st with None => true | Some _ => false end
       || negb (bool_decide (m_parentItem st = m_parentItem it))
    then Some h
    else if bool_decide (s = self) then Some h
    else
      p ← m_parentItem it;
      pt ← h !! p;
      let selfIndex := indexOf (m_childItems pt) self in
      let siblingIndex := indexOf (m_childItems pt) s in
      if selfIndex =? siblingIndex + 1 then Some h
      else
        l ← move selfIndex (if selfIndex >? siblingIndex then siblingIndex + 1 else siblingIndex)
                 (m_childItems pt);
        Some (<[p := set_m_childItems l pt]> h)
  end.

(** The trees the example operations build. *)
Definition example_tree : Items := default ∅ (run 5 example_ops ∅).

Definition stack_example_tree : Items := default ∅ (run 5 stack_example_ops ∅).

End Item.

(* ===================================================================== *)
(** * Scene: the optimized paint path                                      *)
(* ===================================================================== *)

Module Scene.

(** Paint flags of scene.h. *)
Definition PAINT_WINDOW_OPAQUE : Z := Z.shiftl 1 0.
Definition PAINT_WINDOW_TRANSLUCENT : Z := Z.shiftl 1 1.
Definition PAINT_SCREEN_REGION : Z := Z.shiftl 1 3.
Definition PAINT_SCREEN_BACKGROUND_FIRST : Z := Z.shiftl 1 6.

(** [mask & flag] as a condition. *)
Definition has_flag (mask flag : Z) : bool := negb (Z.land mask flag =? 0).

(** [infiniteRegion()]:
    [QRegion(INT_MIN / 2, INT_MIN / 2, INT_MAX, INT_MAX)]. *)
Definition infiniteRegion : QRegion :=
  QRegion_xywh (-1073741824) (-1073741824) 2147483647 2147483647.

(** [WindowPrePaintData] without the quads, which take no part in the
    computation of regions. *)
Record WindowPrePaintData := mkPre { mask : Z; paint : QRegion; clip : QRegion }.

(** What the pass reads from an [AbstractClient]. *)
Record Client := mkClient { isFullScreen : bool; decorationHasAlpha : bool }.

(** What the pass reads from a [SurfaceItem]. *)
Record SurfaceItem := mkSurface { shape : QRegion; opaque : QRegion; rootPosition : QPoint }.

(** What the pass reads from a [Scene::Window] and its toplevel:
    [opacityIsOne] is [toplevel->opacity() == 1.0], [client] the result of
    the dynamic cast to [AbstractClient], [m_repaints] the pending repaints
    for the painted screen, [prePaintWindow] what the effects chain does to
    the data of this window and [isPaintingEnabled] the flag after it. *)
Record Window := mkWindow {
  opacityIsOne : bool;
  hasAlpha : bool;
  client : option Client;
  surfaceItem : option SurfaceItem;
  decorationShape : QRegion;
  pos : QPoint;
  m_repaints : QRegion;
  prePaintWindow : WindowPrePaintData -> WindowPrePaintData;
  isPaintingEnabled : bool
}.

(** [Scene::Window::isOpaque] *)
Definition isOpaque (w : Window) : bool := opacityIsOne w && negb (hasAlpha w).

(** [Scene::Window::repaints] *)
Definition repaints (s : QSize) (w : Window) : QRegion :=
  if region_eqb (m_repaints w) infiniteRegion
  then QRegion_of_rect (QRect_of (mkPoint 0 0) s)
  else m_repaints w.

(** [Item::mapToGlobal(const QRegion &)] *)
Definition mapToGlobal (si : SurfaceItem) (r : QRegion) : QRegion :=
  translated r (rootPosition si).

(** [Scene::Phase2Data], the window given by its place in the stacking
    order. *)
Record Phase2Data := mkPhase2 {
  window : nat;
  region : QRegion;
  p2clip : QRegion;
  p2mask : Z
}.

(** The body of the first loop of [paintSimpleScreen] up to the call of
    the effects: the data of one window and [opaqueFullscreen]. *)
Definition prepaint_data (orig_mask : Z) (region : QRegion) (s : QSize) (w : Window)
  : WindowPrePaintData * bool :=
  let mask0 := Z.lor orig_mask
                 (if isOpaque w then PAINT_WINDOW_OPAQUE else PAINT_WINDOW_TRANSLUCENT) in
  let paint0 := united region (repaints s w) in
  let '(mask1, clip1, opaqueFullscreen) :=
    if isOpaque w then
      (mask0,
       match surfaceItem w with
       | Some si => united QRegion_empty (mapToGlobal si (shape si))
       | None => QRegion_empty
       end,
       match client w with Some c => isFullScreen c | None => false end)
    else if hasAlpha w && opacityIsOne w then
      match surfaceItem w with
      | Some si =>
        (if region_eqb (opaque si) (shape si)
         then Z.lor orig_mask PAINT_WINDOW_OPAQUE else mask0,
         mapToGlobal si (intersected (shape si) (opaque si)),
         false)
      | None => (mask0, QRegion_empty, false)
      end
    else (mask0, QRegion_empty, false) in
  let clip2 :=
    match client w with
    | Some c =>
      if negb (decorationHasAlpha c) && opacityIsOne w
      then united clip1 (translated (decorationShape w) (pos w))
      else clip1
    | None => clip1
    end in
  (prePaintWindow w (mkPre mask1 paint0 clip2), opaqueFullscreen).

(** The first loop: bottom to top, [(phase2data, dirtyArea,
    opaqueFullscreen)]. *)
Fixpoint first_pass (orig_mask : Z) (region : QRegion) (s : QSize) (i : nat)
  (stacking_order : list Window) (acc : list Phase2Data * QRegion * bool)
  : list Phase2Data * QRegion * bool :=
  match stacking_order with
  | [] => acc
  | w :: rest =>
    let '(phase2data, dirtyArea, _) := acc in
    let '(data, opaqueFullscreen) := prepaint_data orig_mask region s w in
    first_pass orig_mask region s (S i) rest
      (if isPaintingEnabled w
       then (phase2data ++ [mkPhase2 i (paint data) (clip data) (mask data)],
             united dirtyArea (paint data), opaqueFullscreen)
       else (phase2data, dirtyArea, opaqueFullscreen))
  end.

(** One round of the occlusion culling loop, for the entry [d]:
    the entry with its region settled, [allclips] and
    [upperTranslucentDamage] after it. *)
Definition occlude (fullRepaint : bool) (displayRegion : QRegion) (d : Phase2Data)
  (st : QRegion * QRegion) : Phase2Data * (QRegion * QRegion) :=
  let '(allclips, upperTranslucentDamage) := st in
  let r0 := if fullRepaint then displayRegion else united (region d) upperTranslucentDamage in
  let r := subtracted r0 allclips in
  let d' := mkPhase2 (window d) r (p2clip d) (p2mask d) in
  if negb (isEmpty (p2clip d)) && negb (has_flag (p2mask d) PAINT_WINDOW_TRANSLUCENT) then
    (d', (united allclips (p2clip d),
          if negb fullRepaint
          then united upperTranslucentDamage (subtracted r (p2clip d))
          else upperTranslucentDamage))
  else
    (d', (allclips,
          if negb fullRepaint then united upperTranslucentDamage r
          else upperTranslucentDamage)).

(** The occlusion culling loop, from the last entry of [phase2data] down to
    the first one; the list is given top first and the result is bottom
    first again. *)
Fixpoint occlusion_pass (fullRepaint : bool) (displayRegion : QRegion)
  (top_first : list Phase2Data) (st : QRegion * QRegion)
  : list Phase2Data * (QRegion * QRegion) :=
  match top_first with
  | [] => ([], st)
  | d :: below =>
    let '(d', st1) := occlude fullRepaint displayRegion d st in
    let '(below', st2) := occlusion_pass fullRepaint displayRegion below st1 in
    (below' ++ [d'], st2)
  end.

(** The last loop: bottom to top, every window is painted with all that
    has been painted so far. *)
Fixpoint paint_pass (phase2data : list Phase2Data) (paintedArea : QRegion)
  : list Phase2Data * QRegion :=
  match phase2data with
  | [] => ([], paintedArea)
  | d :: rest =>
    let paintedArea := united paintedArea (region d) in
    let '(rest', final) := paint_pass rest paintedArea in
    (mkPhase2 (window d) paintedArea (p2clip d) (p2mask d) :: rest', final)
  end.

(** What [paintSimpleScreen] reads from the scene: [screens()->size()],
    the stacking order, [repaint_region], [painted_region],
    [m_paintScreenCount] and the virtual [extendPaintRegion]. *)
Record SceneState := mkScene {
  screenSize : QSize;
  stacking_order : list Window;
  repaint_region : QRegion;
  painted_region : QRegion;
  m_paintScreenCount : Z;
  extendPaintRegion : QRegion -> bool -> QRegion
}.

(** [Scene::extendPaintRegion] of the base class does nothing. *)
Definition extendPaintRegion_default (r : QRegion) (opaqueFullscreen : bool) : QRegion := r.

(** What [paintSimpleScreen] leaves behind: whether the frame was a full
    repaint, the entries and [allclips] after the occlusion pass, the
    regions [paintBackground] was called with (the fill [dirtyArea -
    allclips] apart), the [paintWindow] calls, [painted_region] and
    [damaged_region]. *)
Record Painted := mkPainted {
  fullRepaint : bool;
  occluded : list Phase2Data;
  allclips : QRegion;
  backgrounds : list QRegion;
  backgroundFill : option QRegion;
  paintWindow : list Phase2Data;
  painted_region' : QRegion;
  damaged_region' : QRegion
}.

(** [Scene::paintSimpleScreen] *)
Definition paintSimpleScreen (sc : SceneState) (orig_mask : Z) (region : QRegion) : Painted :=
  let s := screenSize sc in
  let '(phase2data, dirtyArea, opaqueFullscreen) :=
    first_pass orig_mask region s 0 (stacking_order sc) ([], region, false) in
  let repaintClip := subtracted (repaint_region sc) dirtyArea in
  let dirtyArea := united dirtyArea (repaint_region sc) in
  let displayRegion := QRegion_xywh 0 0 (wd s) (ht s) in
  let fullRepaint0 := region_eqb dirtyArea displayRegion in
  let dirtyArea :=
    if fullRepaint0 then dirtyArea else extendPaintRegion sc dirtyArea opaqueFullscreen in
  let fullRepaint := if fullRepaint0 then true else region_eqb dirtyArea displayRegion in
  let '(phase2data, (allclips, _)) :=
    occlusion_pass fullRepaint displayRegion (rev phase2data) (QRegion_empty, repaint_region sc) in
  let first := has_flag orig_mask PAINT_SCREEN_BACKGROUND_FIRST in
  let bg1 := if (m_paintScreenCount sc =? 1) && first then [infiniteRegion] else [] in
  let fill := if first then None else Some (subtracted dirtyArea allclips) in
  let paintedArea := match fill with Some r => r | None => QRegion_empty end in
  let '(calls, paintedArea) := paint_pass phase2data paintedArea in
  mkPainted fullRepaint phase2data allclips
    (bg1 ++ match fill with Some r => [r] | None => [] end) fill calls
    (if fullRepaint then displayRegion else united (painted_region sc) paintedArea)
    (if fullRepaint then subtracted displayRegion repaintClip
     else subtracted paintedArea repaintClip).

(** Nothing asks for paint outside the output rectangle: neither the
    damage, nor the repaint region, nor the paint region of a window after
    the effects, nor [extendPaintRegion]. *)
Definition in_display (sc : SceneState) (orig_mask : Z) (region : QRegion) : Prop :=
  let s := screenSize sc in
  let displayRegion := QRegion_xywh 0 0 (wd s) (ht s) in
  covers displayRegion region
  /\ covers displayRegion (repaint_region sc)
  /\ Forall (fun w => isPaintingEnabled w = true ->
                      covers displayRegion (paint (prepaint_data orig_mask region s w).1))
            (stacking_order sc)
  /\ (forall r b, covers displayRegion r -> covers displayRegion (extendPaintRegion sc r b)).

(** An opaque client window without decoration whose surface is the
    rectangle [r]; the effects leave its data alone. *)
Definition opaque_window (r : QRect) (repaint : QRegion) : Window :=
  mkWindow true false (Some (mkClient false true))
           (Some (mkSurface (QRegion_of_rect r) (QRegion_of_rect r) (mkPoint 0 0)))
           QRegion_empty (mkPoint 0 0) repaint (fun d => d) true.

(** A client window with an alpha channel and no opaque part, whose
    surface is the rectangle [r]. *)
Definition translucent_window (r : QRect) (repaint : QRegion) : Window :=
  mkWindow true true (Some (mkClient false true))
           (Some (mkSurface (QRegion_of_rect r) QRegion_empty (mkPoint 0 0)))
           QRegion_empty (mkPoint 0 0) repaint (fun d => d) true.

(** A 100 x 100 screen: a translucent window that sticks out to the left
    and has a repaint pending over its whole surface, below an opaque
    window that covers the screen. *)
Definition scene_offscreen : SceneState :=
  mkScene (mkSize 100 100)
          [translucent_window (QRect_xywh (-10) 0 20 20) (QRegion_xywh (-10) 0 20 20);
           opaque_window (QRect_xywh 0 0 100 100) QRegion_empty]
          QRegion_empty QRegion_empty 1 extendPaintRegion_default.

(** The places in the stacking order, counted from [i], of the windows
    that are to be painted. *)
Fixpoint enabled_from (i : nat) (l : list Window) : list nat :=
  match l with
  | [] => []
  | w :: rest => (if isPaintingEnabled w then [i] else []) ++ enabled_from (S i) rest
  end.

Definition PAINT_SCREEN_TRANSFORMED : Z := Z.shiftl 1 4.
Definition PAINT_SCREEN_WITH_TRANSFORMED_WINDOWS : Z := Z.shiftl 1 5.

(** [ScreenPrePaintData] *)
Record ScreenPrePaintData := mkScreenPre { sp_mask : Z; sp_paint : QRegion }.

(** What [Scene::paintScreen] hands back and leaves behind: the mask, the
    mask and the region [effects->paintScreen] was called with, the update
    and the valid region, and [m_expectedPresentTimestamp]. *)
Record ScreenPainted := mkScreenPainted {
  out_mask : Z;
  effects_region : QRegion;
  updateRegion : QRegion;
  validRegion : QRegion;
  m_expectedPresentTimestamp : Z
}.

(** [Scene::paintScreen]; [s] is [screens()->size()], [presentTime] the
    next presentation timestamp of the render loop in milliseconds,
    [prePaintScreen] what the effects do to the data of the screen, and
    [paintScreen_effects mask region] the members [painted_region] and
    [damaged_region] as the chain of effects, which ends in
    [finalPaintScreen], leaves them. *)
Definition paintScreen (s : QSize) (expected presentTime : Z)
  (prePaintScreen : ScreenPrePaintData -> ScreenPrePaintData)
  (paintScreen_effects : Z -> QRegion -> QRegion * QRegion)
  (damage : QRegion) : ScreenPainted :=
  let displayRegion := QRegion_xywh 0 0 (wd s) (ht s) in
  let mask := if region_eqb damage displayRegion then 0 else PAINT_SCREEN_REGION in
  let expected := if presentTime <? expected then expected else presentTime in
  let pdata := prePaintScreen (mkScreenPre mask damage) in
  let mask := sp_mask pdata in
  let region := sp_paint pdata in
  let '(mask, region) :=
    if has_flag mask (Z.lor PAINT_SCREEN_TRANSFORMED PAINT_SCREEN_WITH_TRANSFORMED_WINDOWS)
    then (Z.land mask (Z.lnot PAINT_SCREEN_REGION), infiniteRegion)
    else if has_flag mask PAINT_SCREEN_REGION then (mask, intersected region displayRegion)
    else (mask, displayRegion) in
  let '(painted_region, damaged_region) := paintScreen_effects mask region in
  mkScreenPainted mask region damaged_region
    (intersected (united region painted_region) displayRegion) expected.

End Scene.

(* ===================================================================== *)
(** * Scene: scheduled repaints and painting flags                         *)
(* ===================================================================== *)

Module SceneRepaints.

(** The render loop that is asked for a repaint: that of an output, or
    that of the platform. *)
Inductive Loop := OutputLoop (screenId : nat) | PlatformLoop.

(** One round of the loop of [addRepaint] over the screens. *)
Definition addRepaint_step (outputs : list QRect) (region : QRegion)
  (st : list QRegion * list Loop) (screenId : nat) : list QRegion * list Loop :=
  let '(m_repaints, scheduled) := st in
  match outputs !! screenId, m_repaints !! screenId with
  | Some geometry, Some old =>
    let dirtyRegion := intersected region (QRegion_of_rect geometry) in
    if negb (isEmpty dirtyRegion)
    then (<[screenId := united old dirtyRegion]> m_repaints, scheduled ++ [OutputLoop screenId])
    else (m_repaints, scheduled)
  | _, _ => (m_repaints, scheduled)
  end.

(** [Scene::addRepaint] and [Scene::Window::addLayerRepaint], which are the
    same code on the [m_repaints] of the scene and of a window:
    [perScreen] is [isPerScreenRenderingEnabled()], [outputs] the
    geometries of the enabled outputs.  The result is the new [m_repaints]
    and the render loops asked for a repaint; without per-screen rendering
    [m_repaints[0]] is written, which must exist. *)
Definition addRepaint (perScreen : bool) (outputs : list QRect) (m_repaints : list QRegion)
  (region : QRegion) : option (list QRegion * list Loop) :=
  if perScreen then
    if negb (length m_repaints =? length outputs)%nat then Some (m_repaints, [])
    else Some (fold_left (addRepaint_step outputs region) (seq 0 (length m_repaints))
                         (m_repaints, []))
  else
    match m_repaints with
    | [] => None
    | first :: rest => Some (united first region :: rest, [PlatformLoop])
    end.

(** [Scene::reallocRepaints] and [Scene::Window::reallocRepaints] *)
Definition reallocRepaints (perScreen : bool) (outputs : list QRect) : list QRegion :=
  replicate (if perScreen then length outputs else 1%nat) Scene.infiniteRegion.

(** The reasons for which a window is not painted. *)
Definition PAINT_DISABLED : Z := Z.shiftl 1 0.
Definition PAINT_DISABLED_BY_DELETE : Z := Z.shiftl 1 1.
Definition PAINT_DISABLED_BY_DESKTOP : Z := Z.shiftl 1 2.
Definition PAINT_DISABLED_BY_MINIMIZE : Z := Z.shiftl 1 3.
Definition PAINT_DISABLED_BY_ACTIVITY : Z := Z.shiftl 1 5.

(** What [resetPaintingEnabled] asks the toplevel and the effects:
    [isOnRenderedDesktop] is [isOnDesktop(currentRenderedDesktop())] and
    [client] holds [isMinimized()] and [isHiddenInternal()] if the toplevel
    is an [AbstractClient]. *)
Record Toplevel := mkToplevel {
  isDeleted : bool;
  isOnRenderedDesktop : bool;
  isOnCurrentDesktop : bool;
  isOnCurrentActivity : bool;
  client : option (bool * bool)
}.

(** [Scene::Window::resetPaintingEnabled]: the new [disable_painting]. *)
Definition resetPaintingEnabled (isDesktopRendering : bool) (t : Toplevel) : Z :=
  let disable_painting := 0 in
  let disable_painting :=
    if isDeleted t then Z.lor disable_painting PAINT_DISABLED_BY_DELETE
    else disable_painting in
  let disable_painting :=
    if isDesktopRendering then
      if negb (isOnRenderedDesktop t) then Z.lor disable_painting PAINT_DISABLED_BY_DESKTOP
      else disable_painting
    else
      if negb (isOnCurrentDesktop t) then Z.lor disable_painting PAINT_DISABLED_BY_DESKTOP
      else disable_painting in
  let disable_painting :=
    if negb (isOnCurrentActivity t) then Z.lor disable_painting PAINT_DISABLED_BY_ACTIVITY
    else disable_painting in
  match client t with
  | Some (isMinimized, isHiddenInternal) =>
    let disable_painting :=
      if isMinimized then Z.lor disable_painting PAINT_DISABLED_BY_MINIMIZE
      else disable_painting in
    if isHiddenInternal then Z.lor disable_painting PAINT_DISABLED else disable_painting
  | None => disable_painting
  end.

(** [Scene::Window::isPaintingEnabled], [enablePainting], [disablePainting] *)
Definition isPaintingEnabled (disable_painting : Z) : bool := disable_painting =? 0.
Definition enablePainting (reason disable_painting : Z) : Z :=
  Z.land disable_painting (Z.lnot reason).
Definition disablePainting (reason disable_painting : Z) : Z := Z.lor disable_painting reason.

End SceneRepaints.

(* ===================================================================== *)
(** * Scene: the windows of the toplevels                                  *)
(* ===================================================================== *)

Module SceneWindows.

(** A [Toplevel *] or a [Deleted *] (which is a [Toplevel]), and a
    [Scene::Window *]. *)
Abbreviation ToplevelId := nat.
Abbreviation WindowId := nat.

(** [m_windows] and [stacking_order], and the windows deleted so far.
    [None] as a result stands for a failed [Q_ASSERT]. *)
Record Windows := mkWindows {
  m_windows : gmap nat nat;
  stacking_order : list WindowId;
  deleted_windows : list WindowId
}.

(** [Scene::addToplevel]; [w] is what [createWindow(c)] returns. *)
Definition addToplevel (c : ToplevelId) (w : WindowId) (s : Windows) : option Windows :=
  match m_windows s !! c with
  | Some _ => None
  | None => Some (mkWindows (<[c := w]> (m_windows s)) (stacking_order s) (deleted_windows s))
  end.

(** [Scene::removeToplevel] *)
Definition removeToplevel (toplevel : ToplevelId) (s : Windows) : option Windows :=
  match m_windows s !! toplevel with
  | None => None
  | Some w =>
    Some (mkWindows (delete toplevel (m_windows s)) (stacking_order s)
                    (deleted_windows s ++ [w]))
  end.

(** [Scene::windowClosed] *)
Definition windowClosed (toplevel : ToplevelId) (deleted : option ToplevelId) (s : Windows)
  : option Windows :=
  match deleted with
  | None => removeToplevel toplevel s
  | Some d =>
    match m_windows s !! toplevel with
    | None => None
    | Some window =>
      Some (mkWindows (<[d := window]> (delete toplevel (m_windows s)))
                      (stacking_order s) (deleted_windows s))
    end
  end.

(** [Scene::createStackingOrder] *)
Fixpoint createStackingOrder (toplevels : list ToplevelId) (s : Windows) : option Windows :=
  match toplevels with
  | [] => Some s
  | c :: rest =>
    match m_windows s !! c with
    | None => None
    | Some w =>
      createStackingOrder rest
        (mkWindows (m_windows s) (stacking_order s ++ [w]) (deleted_windows s))
    end
  end.

(** [Scene::clearStackingOrder] *)
Definition clearStackingOrder (s : Windows) : Windows :=
  mkWindows (m_windows s) [] (deleted_windows s).

End SceneWindows.

(* ===================================================================== *)
(** * Render backends with a damage history per output                     *)
(* ===================================================================== *)

Module EglWaylandBackend.
Import OpenGLBackend.

(** What the frame bracket reads and writes of an [EglWaylandOutput]: the
    geometry of its [WaylandOutput], the age of the back buffer and the
    damage history. *)
Record EglWaylandOutput := mkOutput {
  geometry : QRect;
  m_bufferAge : Z;
  m_damageHistory : DamageHistory
}.

(** What the EGL implementation offers. *)
Record Caps := mkCaps {
  supportsBufferAge : bool;
  supportsSwapBuffersWithDamage : bool;
  supportsPartialUpdate : bool
}.

(** Calls into EGL and signals, in the order they are made; a region
    stands for the rectangles [regionToRects] makes of it. *)
Inductive Event :=
| OutputChange (damage : QRegion)
| SwapBuffersWithDamage (damage : QRegion)
| SwapBuffers
| QueryBufferAge
| SetDamageRegion (region : QRegion).

(** [EglWaylandBackend::beginFrame] for the output [screenId] names. *)
Definition beginFrame (caps : Caps) (output : EglWaylandOutput) : QRegion :=
  if supportsBufferAge caps then
    if (0 <? m_bufferAge output)
       && (m_bufferAge output <=? Z.of_nat (length (m_damageHistory output)))
    then replay (m_damageHistory output) (Z.to_nat (m_bufferAge output - 1)) QRegion_empty
    else QRegion_of_rect (geometry output)
  else QRegion_empty.

(** [EglWaylandBackend::presentOnSurface]; [age] is what
    [eglQuerySurface] is going to write, if it succeeds. *)
Definition presentOnSurface (caps : Caps) (age : option Z) (output : EglWaylandOutput)
  (damage : QRegion) : EglWaylandOutput * list Event :=
  let swap :=
    match m_damageHistory output with
    | first :: _ =>
      if supportsSwapBuffersWithDamage caps then SwapBuffersWithDamage first else SwapBuffers
    | [] => SwapBuffers
    end in
  if supportsBufferAge caps
  then (mkOutput (geometry output) (default (m_bufferAge output) age) (m_damageHistory output),
        [OutputChange damage; swap; QueryBufferAge])
  else (output, [OutputChange damage; swap]).

(** [EglWaylandBackend::endFrame] *)
Definition endFrame (caps : Caps) (age : option Z) (output : EglWaylandOutput)
  (renderedRegion damagedRegion : QRegion) : EglWaylandOutput * list Event :=
  let damage := intersected damagedRegion (QRegion_of_rect (geometry output)) in
  let '(output, events) := presentOnSurface caps age output damage in
  if supportsBufferAge caps then
    let history :=
      if 10 <? Z.of_nat (length (m_damageHistory output))
      then removeLast (m_damageHistory output) else m_damageHistory output in
    (mkOutput (geometry output) (m_bufferAge output) (damage :: history), events)
  else (output, events).

(** [EglWaylandBackend::screenGeometryChanged], for one output. *)
Definition screenGeometryChanged (output : EglWaylandOutput) : EglWaylandOutput :=
  mkOutput (geometry output) 0 (m_damageHistory output).

(** [EglWaylandBackend::aboutToStartPainting] *)
Definition aboutToStartPainting (caps : Caps) (output : EglWaylandOutput)
  (damagedRegion : QRegion) : list Event :=
  if (0 <? m_bufferAge output) && negb (isEmpty damagedRegion) && supportsPartialUpdate caps
  then [SetDamageRegion (intersected damagedRegion (QRegion_of_rect (geometry output)))]
  else [].

(** Every recorded damage lies on the output. *)
Definition history_on_output (output : EglWaylandOutput) : Prop :=
  Forall (fun d => covers (QRegion_of_rect (geometry output)) d) (m_damageHistory output).

End EglWaylandBackend.

Module EglGbmPerOutput.
Import OpenGLBackend.

(** What the frame bracket of src/plugins/platforms/drm/egl_gbm_backend.cpp
    reads and writes of an [EglGbmBackend::Output]: the geometry of its
    DRM output, the buffer, the age of the back buffer, the damage history
    and whether a buffer for direct scanout is set. *)
Record Output := mkOutput {
  geometry : QRect;
  buffer : option nat;
  bufferAge : Z;
  damageHistory : DamageHistory;
  directScanoutBuffer : bool
}.

Record Caps := mkCaps {
  isPrimary : bool;
  supportsBufferAge : bool;
  supportsSwapBuffersWithDamage : bool
}.

(** The answers to come: whether the swap and [m_backend->present]
    succeed, the buffer that is created and the age [eglQuerySurface]
    writes, if it succeeds. *)
Record Answers := mkAnswers {
  swap_ok : bool; present_ok : bool; fresh : nat; age : option Z
}.

Inductive Event :=
| RenderFramebufferToSurface
| SwapBuffersWithDamage (damage : QRegion)
| SwapBuffers
| OutputChange (damage : QRegion)
| BackendPresent (b : nat)
| QueryBufferAge
| NotifyFrameFailed.

(** [EglGbmBackend::presentOnOutput].  [None]: [constFirst()] of an empty
    damage history, which is undefined. *)
Definition presentOnOutput (caps : Caps) (ans : Answers) (output : Output)
  (damagedRegion : QRegion) : option (bool * Output * list Event) :=
  let finish (events : list Event) :=
    let output := mkOutput (geometry output) (Some (fresh ans)) (bufferAge output)
                           (damageHistory output) (directScanoutBuffer output) in
    let events := events ++ [OutputChange damagedRegion; BackendPresent (fresh ans)] in
    if negb (present_ok ans) then Some (false, output, events)
    else if supportsBufferAge caps
    then Some (true,
               mkOutput (geometry output) (buffer output) (default (bufferAge output) (age ans))
                        (damageHistory output) (directScanoutBuffer output),
               events ++ [QueryBufferAge])
    else Some (true, output, events) in
  if directScanoutBuffer output then finish []
  else if isPrimary caps then
    if supportsSwapBuffersWithDamage caps then
      match damageHistory output with
      | [] => None
      | first :: _ =>
        if negb (swap_ok ans) then Some (false, output, [SwapBuffersWithDamage first])
        else finish [SwapBuffersWithDamage first]
      end
    else
      if negb (swap_ok ans) then Some (false, output, [SwapBuffers])
      else finish [SwapBuffers]
  else Some (false, output, []).

(** [EglGbmBackend::endFrame] *)
Definition endFrame (caps : Caps) (ans : Answers) (output : Output)
  (renderedRegion damagedRegion : QRegion) : option (Output * list Event) :=
  '(ok, output, events) ← presentOnOutput caps ans output damagedRegion;
  let events := RenderFramebufferToSurface :: events in
  if negb ok then
    Some (mkOutput (geometry output) (buffer output) (bufferAge output) []
                   (directScanoutBuffer output),
          events ++ [NotifyFrameFailed])
  else if supportsBufferAge caps then
    let dirty := intersected damagedRegion (QRegion_of_rect (geometry output)) in
    let history :=
      if 10 <? Z.of_nat (length (damageHistory output))
      then removeLast (damageHistory output) else damageHistory output in
    Some (mkOutput (geometry output) (buffer output) (bufferAge output) (dirty :: history)
                   (directScanoutBuffer output),
          events)
  else Some (output, events).

(** [EglGbmBackend::prepareRenderingForOutput], which [beginFrame] returns
    on the primary GPU. *)
Definition prepareRenderingForOutput (caps : Caps) (output : Output) : QRegion :=
  if supportsBufferAge caps then
    if (0 <? bufferAge output) && (bufferAge output <=? Z.of_nat (length (damageHistory output)))
    then replay (damageHistory output) (Z.to_nat (bufferAge output - 1)) QRegion_empty
    else QRegion_of_rect (geometry output)
  else QRegion_of_rect (geometry output).

End EglGbmPerOutput.

(* ===================================================================== *)
(** * Facts                                                                *)
(* ===================================================================== *)

Section RegionFacts.

Lemma rect_contains_iff (r : QRect) (x y : Z) :
  rect_contains r x y = true <-> x1 r <= x <= x2 r /\ y1 r <= y <= y2 r.
Proof.
  unfold rect_contains. rewrite !andb_true_iff, !Z.leb_le. lia.
Qed.

Lemma rect_contains_false_iff (r : QRect) (x y : Z) :
  rect_contains r x y = false <-> ~ (x1 r <= x <= x2 r /\ y1 r <= y <= y2 r).
Proof.
  rewrite <- rect_contains_iff. destruct (rect_contains r x y); intuition congruence.
Qed.

Lemma rect_isEmpty_iff (r : QRect) :
  rect_isEmpty r = true <-> x2 r < x1 r \/ y2 r < y1 r.
Proof.
  unfold rect_isEmpty. rewrite orb_true_iff, !Z.ltb_lt. tauto.
Qed.

Lemma rect_isEmpty_contains (r : QRect) :
  rect_isEmpty r = true <-> forall x y, rect_contains r x y = false.
Proof.
  rewrite rect_isEmpty_iff. split.
  - intros H x y. apply rect_contains_false_iff. lia.
  - intros H. specialize (H (x1 r) (y1 r)). apply rect_contains_false_iff in H. lia.
Qed.

Lemma contains_nil (x y : Z) : contains [] x y = false.
Proof. reflexivity. Qed.

Lemma contains_cons (r : QRect) (a : QRegion) (x y : Z) :
  contains (r :: a) x y = rect_contains r x y || contains a x y.
Proof. reflexivity. Qed.

Lemma contains_app (a b : QRegion) (x y : Z) :
  contains (a ++ b) x y = contains a x y || contains b x y.
Proof. unfold contains. apply existsb_app. Qed.

Lemma contains_united (a b : QRegion) (x y : Z) :
  contains (united a b) x y = contains a x y || contains b x y.
Proof. apply contains_app. Qed.

Lemma contains_rect_subtracted (r s : QRect) (x y : Z) :
  contains (rect_subtracted r s) x y = rect_contains r x y && negb (rect_contains s x y).
Proof.
  unfold rect_subtracted. rewrite !contains_cons, contains_nil.
  apply eq_true_iff_eq.
  rewrite !orb_true_iff, andb_true_iff, negb_true_iff, !rect_contains_iff,
    rect_contains_false_iff.
  simpl. lia.
Qed.

Lemma contains_subtract_rect (a : QRegion) (s : QRect) (x y : Z) :
  contains (flat_map (fun r => rect_subtracted r s) a) x y
  = contains a x y && negb (rect_contains s x y).
Proof.
  induction a as [|r a IH].
  - reflexivity.
  - cbn [flat_map]. rewrite contains_app, contains_cons, IH, contains_rect_subtracted.
    destruct (rect_contains r x y), (rect_contains s x y), (contains a x y); reflexivity.
Qed.

Lemma contains_subtracted (a b : QRegion) (x y : Z) :
  contains (subtracted a b) x y = contains a x y && negb (contains b x y).
Proof.
  unfold subtracted. revert a. induction b as [|s b IH]; intros a.
  - simpl. by rewrite andb_true_r.
  - cbn [fold_left]. rewrite IH, contains_subtract_rect, contains_cons.
    destruct (contains a x y), (rect_contains s x y), (contains b x y); reflexivity.
Qed.

Lemma contains_rect_intersected (r s : QRect) (x y : Z) :
  rect_contains (rect_intersected r s) x y = rect_contains r x y && rect_contains s x y.
Proof.
  apply eq_true_iff_eq. rewrite andb_true_iff, !rect_contains_iff. simpl. lia.
Qed.

Lemma contains_intersected (a b : QRegion) (x y : Z) :
  contains (intersected a b) x y = contains a x y && contains b x y.
Proof.
  unfold intersected. induction a as [|r a IH].
  - reflexivity.
  - cbn [flat_map]. rewrite contains_app, contains_cons, IH.
    assert (E : contains (map (rect_intersected r) b) x y
                = rect_contains r x y && contains b x y).
    { clear IH. induction b as [|s b IHb].
      - by rewrite andb_false_r.
      - cbn [map]. rewrite !contains_cons, IHb, contains_rect_intersected.
        destruct (rect_contains r x y), (rect_contains s x y); reflexivity. }
    rewrite E. destruct (rect_contains r x y), (contains b x y), (contains a x y); reflexivity.
Qed.

Lemma isEmpty_contains (a : QRegion) :
  isEmpty a = true <-> forall x y, contains a x y = false.
Proof.
  unfold isEmpty. induction a as [|r a IH].
  - split; [intros _ x y; reflexivity | reflexivity].
  - cbn [forallb]. rewrite andb_true_iff, IH, rect_isEmpty_contains. split.
    + intros [Hr Ha] x y. by rewrite contains_cons, Hr, Ha.
    + intros H. split; intros x y; specialize (H x y);
        rewrite contains_cons in H; apply orb_false_elim in H; tauto.
Qed.

Lemma isEmpty_false_contains (a : QRegion) (x y : Z) :
  contains a x y = true -> isEmpty a = false.
Proof.
  intros H. destruct (isEmpty a) eqn:E; [|reflexivity].
  rewrite isEmpty_contains in E. congruence.
Qed.

Lemma region_eqb_contains (a b : QRegion) :
  region_eqb a b = true <-> forall x y, contains a x y = contains b x y.
Proof.
  unfold region_eqb. rewrite andb_true_iff, !isEmpty_contains. split.
  - intros [H1 H2] x y. specialize (H1 x y). specialize (H2 x y).
    rewrite contains_subtracted in H1, H2.
    destruct (contains a x y), (contains b x y); simpl in *; congruence.
  - intros H. split; intros x y; rewrite contains_subtracted, H;
      by destruct (contains b x y).
Qed.

Lemma covers_united_l (a b c : QRegion) : covers a c -> covers (united a b) c.
Proof. intros H x y Hc. rewrite contains_united, (H x y Hc). reflexivity. Qed.

Lemma covers_united_r (a b c : QRegion) : covers b c -> covers (united a b) c.
Proof. intros H x y Hc. rewrite contains_united, (H x y Hc). apply orb_true_r. Qed.

(** What is left after subtracting a region covering [c] misses [c]. *)
Lemma subtracted_misses (a b c : QRegion) :
  covers b c -> isEmpty (intersected (subtracted a b) c) = true.
Proof.
  intros H. apply isEmpty_contains. intros x y.
  rewrite contains_intersected, contains_subtracted.
  destruct (contains c x y) eqn:E.
  - rewrite (H x y E). by rewrite andb_false_r.
  - by rewrite andb_false_r.
Qed.

End RegionFacts.

Section DamageHistoryFacts.
Import OpenGLBackend.

Lemma replay_concat (hist : DamageHistory) (n : nat) :
  (n <= length hist)%nat ->
  replay hist n QRegion_empty = union_all (take n hist).
Proof.
  unfold replay, union_all, united, QRegion_empty.
  induction n as [|n IH]; intros Hn.
  - reflexivity.
  - rewrite seq_S, fold_left_app, IH by lia. simpl.
    destruct (lookup_lt_is_Some_2 hist n ltac:(lia)) as [r Hr].
    rewrite (take_S_r _ _ _ Hr), concat_app. simpl.
    unfold DamageHistory in *. rewrite Hr. simpl.
    by rewrite app_nil_r.
Qed.

(** C2. For every history and every age, [accumulatedDamageHistory] returns
    the union of the first [age - 1] entries of the prepend-ordered history
    when [0 < age <= length], and the full output rectangle for any other
    age. *)
Theorem accumulatedDamageHistory_contract (s : QSize) (hist : DamageHistory) (age : Z) :
  accumulatedDamageHistory s hist age = accumulated_spec s hist age
  /\ (0 < age <= Z.of_nat (length hist) ->
      accumulatedDamageHistory s hist age = union_all (take (Z.to_nat (age - 1)) hist))
  /\ (~ (0 < age <= Z.of_nat (length hist)) ->
      accumulatedDamageHistory s hist age = QRegion_xywh 0 0 (wd s) (ht s)).
Proof.
  assert (Hin : 0 < age <= Z.of_nat (length hist) ->
      accumulatedDamageHistory s hist age = union_all (take (Z.to_nat (age - 1)) hist)).
  { intros [H0 H1]. unfold accumulatedDamageHistory.
    replace (0 <? age) with true by (symmetry; apply Z.ltb_lt; lia).
    replace (age <=? Z.of_nat (length hist)) with true by (symmetry; apply Z.leb_le; lia).
    simpl. apply replay_concat. lia. }
  assert (Hout : ~ (0 < age <= Z.of_nat (length hist)) ->
      accumulatedDamageHistory s hist age = QRegion_xywh 0 0 (wd s) (ht s)).
  { intros Hn. unfold accumulatedDamageHistory.
    destruct (0 <? age) eqn:E0; [|reflexivity].
    destruct (age <=? Z.of_nat (length hist)) eqn:E1; [|reflexivity].
    apply Z.ltb_lt in E0. apply Z.leb_le in E1. lia. }
  split; [|split]; try assumption.
  unfold accumulated_spec. case_decide; [apply Hin | apply Hout]; lia.
Qed.

Lemma addToDamageHistory_length (hist : DamageHistory) (r : QRegion) :
  length (addToDamageHistory hist r)
  = if 10 <? Z.of_nat (length hist) then length hist else S (length hist).
Proof.
  unfold addToDamageHistory, removeLast.
  destruct (10 <? Z.of_nat (length hist)) eqn:E; cbn [length]; [|reflexivity].
  apply Z.ltb_lt in E. destruct hist as [|a hist] using rev_ind.
  - simpl in E. lia.
  - rewrite removelast_last, length_app. simpl. lia.
Qed.

(** What the code keeps: never more than eleven entries. *)
Lemma addToDamageHistory_bound (hist : DamageHistory) (r : QRegion) :
  (length hist <= 11)%nat -> (length (addToDamageHistory hist r) <= 11)%nat.
Proof.
  intros H. rewrite addToDamageHistory_length.
  destruct (10 <? Z.of_nat (length hist)) eqn:E; [lia|].
  apply Z.ltb_ge in E. lia.
Qed.

(** C7. Recording eleven frames into an empty history leaves eleven entries
    in it: the check [count() > 10] lets the list grow to ten entries and
    then adds one more, so the history holds more than the ten entries it
    is meant to be capped at. *)
Theorem damage_history_exceeds_ten :
  length (record_frames eleven_frames []) = 11%nat
  /\ length (addToDamageHistory (record_frames (take 10 eleven_frames) [])
                                (QRegion_xywh 10 0 1 1)) = 11%nat
  /\ last (record_frames eleven_frames []) = Some (QRegion_xywh 0 0 1 1).
Proof. repeat split; vm_compute; reflexivity. Qed.

(** C8 fails as stated: with an empty history an age of 1 is "any other
    age" and the full output rectangle comes back. *)
Lemma accumulatedDamageHistory_1_empty_history :
  accumulatedDamageHistory (mkSize 1920 1080) [] 1 = [mkRect 0 0 1919 1079]
  /\ isEmpty (accumulatedDamageHistory (mkSize 1920 1080) [] 1) = false.
Proof. split; reflexivity. Qed.

(** C8, amended. For every history with at least one entry,
    [accumulatedDamageHistory(1)] is the empty region. *)
Theorem accumulatedDamageHistory_age_1 (s : QSize) (hist : DamageHistory) :
  hist <> [] ->
  accumulatedDamageHistory s hist 1 = QRegion_empty
  /\ isEmpty (accumulatedDamageHistory s hist 1) = true.
Proof.
  intros H. destruct hist as [|r hist]; [congruence|].
  unfold accumulatedDamageHistory.
  replace (1 <=? Z.of_nat (length (r :: hist))) with true
    by (symmetry; apply Z.leb_le; cbn [length]; lia).
  split; reflexivity.
Qed.

Lemma accumulatedDamageHistory_age_1_witness :
  [QRegion_xywh 0 0 5 5] <> []
  /\ accumulatedDamageHistory (mkSize 1920 1080) [QRegion_xywh 0 0 5 5] 1 = QRegion_empty
  /\ isEmpty (accumulatedDamageHistory (mkSize 1920 1080) [QRegion_xywh 0 0 5 5] 1) = true.
Proof.
  split; [discriminate|].
  apply (accumulatedDamageHistory_age_1 (mkSize 1920 1080) [QRegion_xywh 0 0 5 5]).
  discriminate.
Defined.

End DamageHistoryFacts.

Section FrameBracketFacts.
Import OpenGLBackend EglGbmBackend.

(** C9. Ending a frame whose damaged region is empty presents nothing: the
    log gains no swap and no present call (at most a [glFlush], when
    something was rendered), every output's buffer age becomes 1 while its
    buffer stays, and the damage history is left as it was. *)
Theorem endRenderingFrame_empty_damage (b : Backend) (renderedRegion damagedRegion : QRegion) :
  isEmpty damagedRegion = true ->
  let b' := endRenderingFrame b renderedRegion damagedRegion in
  (exists added, log b' = log b ++ added
                 /\ added = (if isEmpty renderedRegion then [] else [GlFlush])
                 /\ forallb (fun e => negb (is_presentation e)) added = true)
  /\ Forall (fun o => bufferAge o = 1) (m_outputs b')
  /\ map output (m_outputs b') = map output (m_outputs b)
  /\ map buffer (m_outputs b') = map buffer (m_outputs b)
  /\ m_damageHistory b' = m_damageHistory b.
Proof.
  intros Hd. unfold endRenderingFrame. rewrite Hd. cbn.
  repeat split.
  - exists (if isEmpty renderedRegion then [] else [GlFlush]).
    destruct (isEmpty renderedRegion); cbn; repeat split; try reflexivity.
    by rewrite app_nil_r.
  - apply Forall_map. apply Forall_true. reflexivity.
  - rewrite map_map. reflexivity.
  - rewrite map_map. reflexivity.
Qed.

Lemma endRenderingFrame_empty_damage_witness :
  isEmpty QRegion_empty = true
  /\ log (endRenderingFrame backend_two_outputs (QRegion_xywh 0 0 4 4) QRegion_empty)
     = [GlFlush]
  /\ Forall (fun o => bufferAge o = 1)
       (m_outputs (endRenderingFrame backend_two_outputs (QRegion_xywh 0 0 4 4)
                     QRegion_empty)).
Proof.
  split; [reflexivity|]. split; [reflexivity|].
  exact (proj1 (proj2 (endRenderingFrame_empty_damage backend_two_outputs
                         (QRegion_xywh 0 0 4 4) QRegion_empty eq_refl))).
Defined.

(** With damage the frame is presented and recorded. *)
Example endRenderingFrame_damaged :
  let b := mkEgl [mkOutput 0 (Some 7%nat) 3] [] true 8 [2] [] in
  let b' := endRenderingFrame b (QRegion_xywh 0 0 4 4) (QRegion_xywh 0 0 2 2) in
  log b' = [MakeContextCurrent 0; EglSwapBuffers 0; CreateBuffer 0 8; BackendPresent 8 0;
            DeleteBuffer 7; QueryBufferAge 0]
  /\ m_outputs b' = [mkOutput 0 (Some 8%nat) 2]
  /\ m_damageHistory b' = [QRegion_xywh 0 0 2 2].
Proof. repeat split. Qed.

End FrameBracketFacts.

(* --------------------------------------------------------------------- *)
(** ** DRM output                                                          *)
(* --------------------------------------------------------------------- *)

Ltac run_monad :=
  cbv [DrmOutput.updateDpms DrmOutput.present DrmOutput.presentAtomically
       DrmOutput.presentLegacy DrmOutput.atomicEnable DrmOutput.atomicDisable
       DrmOutput.call DrmOutput.dpmsFinishOn DrmOutput.dpmsFinishOff DrmOutput.the_crtc
       DrmOutput.emit DrmOutput.bind DrmOutput.gets DrmOutput.modify DrmOutput.ret
       DrmOutput.when DrmOutput.Q_ASSERT DrmOutput.crash].

Section Frames.
Import DrmOutput.

Context (R : DrmOutput -> DrmOutput -> Prop).
Hypothesis R_refl : forall o, R o o.
Hypothesis R_trans : forall o1 o2 o3, R o1 o2 -> R o2 o3 -> R o1 o3.

Lemma keeps_ret {A} (a : A) : keeps R (ret a).
Proof. intros o a' o' [= _ <-]. apply R_refl. Qed.

Lemma keeps_crash {A} : keeps R (@crash A).
Proof. intros o a' o' [=]. Qed.

Lemma keeps_gets {A} (f : DrmOutput -> A) : keeps R (gets f).
Proof. intros o a' o' [= _ <-]. apply R_refl. Qed.

Lemma keeps_modify (f : DrmOutput -> DrmOutput) :
  (forall o, R o (f o)) -> keeps R (modify f).
Proof. intros H o a' o' E. injection E as _ <-. apply H. Qed.

Lemma keeps_bind {A B} (m : M A) (k : A -> M B) :
  keeps R m -> (forall a, keeps R (k a)) -> keeps R (bind m k).
Proof.
  intros Hm Hk o b o'. unfold bind.
  destruct (m o) as [[a o1]|] eqn:E; [|discriminate].
  intros H. eapply R_trans; [eapply Hm, E | eapply Hk, H].
Qed.

Lemma keeps_when (c : bool) (m : M unit) : keeps R m -> keeps R (when c m).
Proof. destruct c; [auto | intros _; apply keeps_ret]. Qed.

Lemma keeps_for_each {A} (l : list A) (f : A -> M unit) :
  (forall a, keeps R (f a)) -> keeps R (for_each l f).
Proof.
  intros H. induction l as [|a l IH]; cbn [for_each].
  - apply keeps_ret.
  - apply keeps_bind; auto.
Qed.

End Frames.

Ltac keeps_step :=
  first
    [ apply keeps_ret; solve [eauto]
    | apply keeps_crash
    | apply keeps_gets; solve [eauto]
    | apply keeps_modify; [intros ?; repeat split]
    | apply keeps_when; [solve [eauto] |]
    | apply keeps_for_each; [solve [eauto] | solve [eauto] | intros ?]
    | apply keeps_bind; [solve [eauto] | | intros ?]
    | match goal with
      | |- DrmOutput.keeps _ (if ?b then _ else _) => destruct b
      | |- DrmOutput.keeps _ (match ?x with _ => _ end) => destruct x
      end
    | solve [eauto] ].

Ltac keeps_auto := repeat keeps_step.

Section DrmFacts.
Import DrmOutput.

Lemma same_config_refl o : same_config o o.
Proof. repeat split. Qed.

Lemma same_config_trans o1 o2 o3 :
  same_config o1 o2 -> same_config o2 o3 -> same_config o1 o3.
Proof. unfold same_config. intuition congruence. Qed.

Hint Resolve same_config_refl same_config_trans : core.

Lemma kernel_call_config : keeps same_config kernel_call.
Proof.
  intros o a o'. unfold kernel_call. destruct (kernel o); intros [= _ <-]; repeat split.
Qed.

Lemma emit_config e : keeps same_config (emit e).
Proof. unfold emit. keeps_auto. Qed.

Lemma delete_buffer_config b : keeps same_config (delete_buffer b).
Proof. unfold delete_buffer. destruct b; [apply emit_config | keeps_auto]. Qed.

Lemma the_crtc_config : keeps same_config the_crtc.
Proof. unfold the_crtc. keeps_auto. Qed.

Lemma plane_setNext_config p b : keeps same_config (plane_setNext p b).
Proof. unfold plane_setNext. keeps_auto. Qed.

Lemma plane_setCurrent_config p b : keeps same_config (plane_setCurrent p b).
Proof. unfold plane_setCurrent. keeps_auto. Qed.

Hint Resolve kernel_call_config emit_config delete_buffer_config the_crtc_config
  plane_setNext_config plane_setCurrent_config : core.

Lemma dpmsFinishOff_config : keeps same_config dpmsFinishOff.
Proof. unfold dpmsFinishOff. keeps_auto. Qed.

Hint Resolve dpmsFinishOff_config : core.

Lemma errorHandler_config : keeps same_config errorHandler.
Proof. unfold errorHandler. keeps_auto. Qed.

Lemma atomicReqModesetPopulate_config enable :
  keeps same_config (atomicReqModesetPopulate enable).
Proof. unfold atomicReqModesetPopulate. keeps_auto. Qed.

Lemma populate_planes_config l : keeps same_config (populate_planes l).
Proof. induction l; cbn [populate_planes]; keeps_auto. Qed.

Hint Resolve errorHandler_config atomicReqModesetPopulate_config populate_planes_config : core.

(** A commit, tested or real, successful or not, leaves mode, transform,
    position and the last working state alone. *)
Lemma doAtomicCommit_config mode : keeps same_config (doAtomicCommit mode).
Proof. unfold doAtomicCommit. keeps_auto. Qed.

Lemma stage_config b : keeps same_config (stage b).
Proof. unfold stage. keeps_auto. Qed.

(** C3 fails as stated: the output had been switched to 2160p, rotated and
    moved before [present()]; the test commit is rejected, and afterwards
    mode, transform and position are those of the last working state, not
    those from before the attempt. *)
Lemma present_rollback_differs_from_pre_attempt :
  exists o', present 2%nat output_mode_change = Some (false, o')
    /\ m_mode output_mode_change = mode_2160p /\ m_mode o' = mode_1080p
    /\ m_mode o' <> m_mode output_mode_change
    /\ transform o' <> transform output_mode_change
    /\ globalPos o' <> globalPos output_mode_change.
Proof.
  eexists. split; [vm_compute; reflexivity|]. cbn. repeat split; discriminate.
Qed.

(** C3, amended. When the atomic test commit issued by [present()] fails,
    [present()] returns false; mode, transform and global position are then
    those of the last working state if one has been recorded, and are left
    as they were if none has; the last working state itself is not
    changed and no flip is pending. *)
Theorem present_test_commit_failure (o o1 : DrmOutput) (buffer : Buffer) :
  atomicModeSetting (gpu o) = true ->
  m_dpmsModePending o = On ->
  sessionActive (backend o) = true ->
  m_pageFlipPending o = false ->
  HAVE_EGL_STREAMS (gpu o) && useEglStreams (gpu o) && negb (m_modesetRequested o) = false ->
  (stage buffer ;; doAtomicCommit Test) o = Some (false, o1) ->
  exists o', present buffer o = Some (false, o')
    /\ (valid (m_lastWorkingState o) = true ->
        m_mode o' = lws_mode (m_lastWorkingState o)
        /\ transform o' = lws_transform (m_lastWorkingState o)
        /\ globalPos o' = lws_globalPos (m_lastWorkingState o))
    /\ (valid (m_lastWorkingState o) = false ->
        m_mode o' = m_mode o /\ transform o' = transform o /\ globalPos o' = globalPos o)
    /\ m_lastWorkingState o' = m_lastWorkingState o
    /\ m_pageFlipPending o' = false.
Proof.
  intros Ha Hd Hs Hf He Ht.
  assert (Hk : same_config o o1).
  { eapply (keeps_bind same_config same_config_trans); [apply stage_config| |exact Ht].
    intros ?. apply doAtomicCommit_config. }
  destruct Hk as (K1 & K2 & K3 & K4 & K5 & K6 & K7 & K8).
  destruct o as [g b en dp cr pl fl del dm dmp pf aop msr md tr gp lws k t].
  simpl in *. subst.
  cbv [stage plane_setNext bind modify] in Ht. simpl in Ht.
  cbv [present presentAtomically stage plane_setNext bind gets modify ret]. simpl.
  rewrite Ha. simpl. rewrite Hs. simpl. rewrite He. simpl. rewrite Ht. simpl.
  destruct (valid (m_lastWorkingState o1)) eqn:Hv.
  - cbv [when plane_setTransformation emit bind gets modify ret]. simpl.
    destruct (isCursorHidden (backend o1)); simpl;
      (eexists; split; [reflexivity|]); simpl; repeat split;
      intros; congruence.
  - cbv [when ret bind]. eexists; split; [reflexivity|].
    repeat split; intros; congruence.
Qed.

Lemma present_test_commit_failure_witness :
  exists o', present 2%nat output_mode_change = Some (false, o')
    /\ (valid (m_lastWorkingState output_mode_change) = true ->
        m_mode o' = lws_mode (m_lastWorkingState output_mode_change)
        /\ transform o' = lws_transform (m_lastWorkingState output_mode_change)
        /\ globalPos o' = lws_globalPos (m_lastWorkingState output_mode_change))
    /\ (valid (m_lastWorkingState output_mode_change) = false ->
        m_mode o' = m_mode output_mode_change
        /\ transform o' = transform output_mode_change
        /\ globalPos o' = globalPos output_mode_change)
    /\ m_lastWorkingState o' = m_lastWorkingState output_mode_change
    /\ m_pageFlipPending o' = false.
Proof.
  eapply (present_test_commit_failure output_mode_change _ 2%nat); vm_compute; reflexivity.
Defined.

Lemma presentLegacy_success (o o' : DrmOutput) (b : Buffer) :
  presentLegacy b o = Some (true, o') ->
  gpu o' = gpu o /\ m_dpmsModePending o' = m_dpmsModePending o
  /\ exists c, m_crtc o' = Some c /\ crtc_next c = Some b.
Proof.
  destruct o as [g bk en dp cr pl fl del dm dmp pf aop msr md tr gp lws k t].
  cbv [presentLegacy the_crtc crtc_setNext setModeLegacy kernel_call emit when
       bind gets modify ret crash].
  simpl. destruct cr as [c|]; simpl; [|discriminate].
  destruct (crtc_next c) eqn:Hn; simpl; [discriminate|].
  destruct (sessionActive bk); simpl; [|discriminate].
  destruct (match crtc_current c with Some cur => needsModeChange bk cur b | None => true end);
    simpl.
  - destruct k as [|[] [|[] k]]; simpl; try discriminate;
      intros [= <-]; simpl; repeat split; eauto.
  - destruct k as [|[] k]; simpl; try discriminate;
      intros [= <-]; simpl; repeat split; eauto.
Qed.

Lemma presentAtomically_success (o o' : DrmOutput) (b : Buffer) :
  presentAtomically b o = Some (true, o') ->
  gpu o' = gpu o /\ m_pageFlipPending o' = true.
Proof.
  destruct o as [g bk en dp cr pl fl del dm dmp pf aop msr md tr gp lws k t].
  cbv [presentAtomically stage plane_setNext bind gets modify ret]. simpl.
  destruct (sessionActive bk); simpl; [|discriminate].
  destruct pf; simpl; [discriminate|].
  destruct (HAVE_EGL_STREAMS g && useEglStreams g && negb msr); simpl.
  { intros [= <-]. split; reflexivity. }
  match goal with |- context [doAtomicCommit Test ?X] =>
    destruct (doAtomicCommit Test X) as [[t1 o1]|] eqn:E1; [|discriminate];
    pose proof (doAtomicCommit_config Test _ _ _ E1) as (K1 & _) end.
  simpl in K1.
  destruct t1; simpl.
  - destruct (doAtomicCommit Real o1) as [[t2 o2]|] eqn:E2; [|discriminate].
    pose proof (doAtomicCommit_config Real _ _ _ E2) as (L1 & _).
    destruct t2; simpl; [|discriminate].
    cbv [when emit bind gets modify ret].
    destruct (m_modesetRequested o1); simpl; intros [= <-]; simpl;
      split; congruence.
  - cbv [when plane_setTransformation emit bind gets modify ret].
    destruct (valid (m_lastWorkingState o1)); simpl; [|discriminate].
    destruct (isCursorHidden (backend o1)); simpl; discriminate.
Qed.

(** C4 fails as stated: on the legacy path [present()] looks at the "next"
    slot of the CRTC and not at the flip flag, so an output whose flag is
    set while that slot is free is not refused: the buffer is staged and a
    page flip is issued. *)
Lemma present_legacy_ignores_flip_flag :
  m_pageFlipPending output_legacy_flagged = true
  /\ m_dpmsModePending output_legacy_flagged = On
  /\ exists o', present 2%nat output_legacy_flagged = Some (true, o')
       /\ m_crtc o' = Some (mkCrtc (Some 1%nat) (Some 2%nat))
       /\ trace o' = [PageFlipLegacy 2%nat true].
Proof. repeat split. eexists. repeat split. Qed.

(** C4, amended. [present(buffer)] returns false and leaves the output as
    it is (nothing staged, nothing committed) whenever the pending DPMS
    mode is not On; with atomic mode-setting also whenever a page flip is
    pending; without it whenever the "next" slot of the CRTC is taken.  On
    both paths a second [present()] right after a successful one is
    rejected that way. *)
Theorem present_refusals (o : DrmOutput) (buffer : Buffer) :
  (m_dpmsModePending o <> On -> present buffer o = Some (false, o))
  /\ (atomicModeSetting (gpu o) = true -> m_pageFlipPending o = true ->
      present buffer o = Some (false, o))
  /\ (atomicModeSetting (gpu o) = false ->
      (exists c staged, m_crtc o = Some c /\ crtc_next c = Some staged) ->
      present buffer o = Some (false, o))
  /\ (forall o' buffer', present buffer o = Some (true, o') ->
      present buffer' o' = Some (false, o')).
Proof.
  assert (P1 : forall o b, m_dpmsModePending o <> On -> present b o = Some (false, o)).
  { intros o0 b H. cbv [present bind gets ret].
    by rewrite (bool_decide_eq_false_2 _ H). }
  assert (P2 : forall o b, atomicModeSetting (gpu o) = true -> m_pageFlipPending o = true ->
                           present b o = Some (false, o)).
  { intros o0 b Ha Hf. cbv [present presentAtomically bind gets ret].
    destruct (bool_decide (m_dpmsModePending o0 = On)); simpl; [|reflexivity].
    rewrite Ha. destruct (sessionActive (backend o0)); simpl; [|reflexivity].
    by rewrite Hf. }
  assert (P3 : forall o b, atomicModeSetting (gpu o) = false ->
      (exists c staged, m_crtc o = Some c /\ crtc_next c = Some staged) ->
      present b o = Some (false, o)).
  { intros o0 b Ha (c & st & Hc & Hn). cbv [present presentLegacy the_crtc bind gets ret].
    destruct (bool_decide (m_dpmsModePending o0 = On)); simpl; [|reflexivity].
    rewrite Ha, Hc. simpl. by rewrite Hn. }
  split; [apply P1|]. split; [apply P2|]. split; [apply P3|].
  intros o' b' H.
  assert (H' := H). unfold present in H'. cbv [bind gets] in H'.
  destruct (bool_decide (m_dpmsModePending o = On)); simpl in H'; [|discriminate].
  destruct (atomicModeSetting (gpu o)) eqn:Ha.
  - apply presentAtomically_success in H' as [G F]. apply P2; congruence.
  - apply presentLegacy_success in H' as (G & _ & c & Hc & Hn). apply P3; [congruence|eauto].
Qed.

Lemma present_refusals_witness :
  present 3%nat output_flip_pending = Some (false, output_flip_pending)
  /\ present 3%nat (set_m_dpmsModePending Off output_mode_change)
     = Some (false, set_m_dpmsModePending Off output_mode_change).
Proof.
  split.
  - apply (proj1 (proj2 (present_refusals output_flip_pending 3%nat))); reflexivity.
  - apply (proj1 (present_refusals (set_m_dpmsModePending Off output_mode_change) 3%nat)).
    discriminate.
Defined.

End DrmFacts.

Section DpmsFacts.
Import DrmOutput.

Lemma filter_no_commit (t : list Event) :
  forallb (fun e => negb (is_commit e)) t = true ->
  filter (fun e => is_commit e = true) t = [].
Proof.
  induction t as [|e t IH]; [reflexivity|].
  cbn [forallb]. rewrite andb_true_iff, negb_true_iff. intros [He Ht].
  rewrite filter_cons, He. simpl. auto.
Qed.

Lemma commits_emit (e : Event) (o : DrmOutput) :
  is_commit e = false -> commits (set_trace (trace o ++ [e]) o) = commits o.
Proof.
  intros H. unfold commits. cbn [trace set_trace]. rewrite filter_app.
  rewrite filter_cons, filter_nil, H. simpl. by rewrite app_nil_r.
Qed.

(** While a flip is pending on an atomic output, none of the calls issues
    a commit, and the flip stays pending. *)
Lemma call_while_flip_pending (c : Call) (o : DrmOutput) :
  atomicModeSetting (gpu o) = true ->
  m_pageFlipPending o = true ->
  is_Some (m_crtc o) ->
  exists o', call c o = Some (tt, o')
    /\ commits o' = commits o
    /\ gpu o' = gpu o
    /\ m_pageFlipPending o' = true
    /\ is_Some (m_crtc o').
Proof.
  intros Ha Hf [crtc Hc].
  destruct o as [g b en dp cr pl fl del dm dmp pf aop msr md tr gp lws k t].
  simpl in *. subst.
  assert (Hfin : forall t' : list Event, forallb (fun e => negb (is_commit e)) t' = true ->
            filter (fun e => is_commit e = true) (t ++ t') = filter (fun e => is_commit e = true) t).
  { intros t' Ht. rewrite filter_app, (filter_no_commit t' Ht). by rewrite app_nil_r. }
  destruct c as [buf|mode| |]; run_monad; simpl; rewrite ?Ha; simpl.
  - destruct (bool_decide (dmp = On)); simpl; rewrite ?Ha; simpl;
      [destruct (sessionActive b); simpl|].
    all: eexists; split; [reflexivity|]; simpl; eauto.
  - destruct dp, en; simpl.
    all: try (eexists; split; [reflexivity|]; simpl; by eauto).
    destruct (bool_decide (mode = dmp)); simpl.
    + eexists; split; [reflexivity|]. split; [|eauto].
      unfold commits; simpl. by apply Hfin.
    + rewrite Ha. destruct (bool_decide (mode = On)); simpl.
      * destruct aop; simpl; (eexists; split; [reflexivity|]; split; [|eauto]);
        unfold commits; simpl; rewrite <- ?app_assoc; by apply Hfin.
      * eexists; split; [reflexivity|]; simpl; eauto.
  - destruct aop; simpl; (eexists; split; [reflexivity|]; split; [|eauto]);
        unfold commits; simpl; rewrite <- ?app_assoc; by apply Hfin.
  - eexists; split; [reflexivity|]; simpl; eauto.
Qed.

Lemma calls_while_flip_pending (cs : list Call) (o : DrmOutput) :
  atomicModeSetting (gpu o) = true ->
  m_pageFlipPending o = true ->
  is_Some (m_crtc o) ->
  exists o', for_each cs call o = Some (tt, o')
    /\ commits o' = commits o
    /\ gpu o' = gpu o
    /\ m_pageFlipPending o' = true
    /\ is_Some (m_crtc o').
Proof.
  revert o. induction cs as [|c cs IH]; intros o Ha Hf Hc.
  - exists o. repeat split; auto.
  - destruct (call_while_flip_pending c o Ha Hf Hc) as (o1 & E1 & C1 & G1 & F1 & K1).
    destruct (IH o1) as (o2 & E2 & C2 & G2 & F2 & K2); [congruence|assumption|assumption|].
    exists o2. cbn [for_each]. unfold bind at 1. rewrite E1.
    repeat split; auto; congruence.
Qed.

Lemma updateDpms_deferred (mode : DpmsMode) (o : DrmOutput) :
  atomicModeSetting (gpu o) = true ->
  m_pageFlipPending o = true ->
  m_dpms o = true ->
  isEnabled o = true ->
  mode <> On ->
  mode <> m_dpmsModePending o ->
  updateDpms mode o
  = Some (tt, set_m_atomicOffPending true
                (set_m_modesetRequested true (set_m_dpmsModePending mode o))).
Proof.
  intros Ha Hf Hd He Hon Hp.
  destruct o as [g b en dp cr pl fl del dm dmp pf aop msr md tr gp lws k t].
  simpl in *. subst. run_monad. simpl.
  rewrite (bool_decide_eq_false_2 _ Hp). simpl. rewrite Ha.
  rewrite (bool_decide_eq_false_2 _ Hon). simpl. reflexivity.
Qed.

Lemma same_control_refl o : same_control o o.
Proof. repeat split. Qed.

Lemma same_control_trans o1 o2 o3 :
  same_control o1 o2 -> same_control o2 o3 -> same_control o1 o3.
Proof. unfold same_control. intuition congruence. Qed.

Lemma for_each_same_control {A} (l : list A) (f : A -> M unit) (o : DrmOutput) :
  (forall a o, exists o', f a o = Some (tt, o') /\ same_control o o') ->
  exists o', for_each l f o = Some (tt, o') /\ same_control o o'.
Proof.
  intros Hf. revert o. induction l as [|p l IH]; intros o.
  - exists o. split; [reflexivity | apply same_control_refl].
  - destruct (Hf p o) as (o1 & E1 & S1).
    destruct (IH o1) as (o2 & E2 & S2).
    exists o2. cbn [for_each]. unfold bind at 1. rewrite E1.
    split; [done | by eapply same_control_trans].
Qed.

Lemma plane_flipBuffer_same_control p o :
  exists o', plane_flipBuffer p o = Some (tt, o') /\ same_control o o'.
Proof. eexists. split; [reflexivity|]. repeat split. Qed.

Lemma plane_flipBufferWithDelete_same_control p o :
  exists o', plane_flipBufferWithDelete p o = Some (tt, o') /\ same_control o o'.
Proof.
  unfold plane_flipBufferWithDelete, plane_flipBuffer, delete_buffer. run_monad.
  destruct (negb _); [destruct (pl_current _)|]; simpl;
    (eexists; split; [reflexivity|]); repeat split.
  simpl. apply commits_emit. reflexivity.
Qed.

(** The flip handler of an atomic output with a deferred off: once the
    buffers are flipped, what remains to be run is [dpmsAtomicOff]. *)
Lemma pageFlipped_runs_deferred_off (o : DrmOutput) (c : DrmCrtc) :
  atomicModeSetting (gpu o) = true ->
  m_pageFlipPending o = true ->
  m_atomicOffPending o = true ->
  m_deleted o = false ->
  m_crtc o = Some c ->
  (deleteBufferAfterPageFlip (gpu o) = true -> is_Some (pl_next (m_primaryPlane o))) ->
  exists o1, pageFlipped o = (dpmsAtomicOff ;; ret tt) o1
    /\ m_pageFlipPending o1 = false
    /\ commits o1 = commits o
    /\ m_dpmsModePending o1 = m_dpmsModePending o.
Proof.
  intros Ha Hf Hoff Hdel Hc Hnext.
  destruct o as [g b en dp cr pl fl del dm dmp pf aop msr md tr gp lws k t].
  simpl in *. subst. unfold pageFlipped. run_monad. simpl. rewrite Ha. simpl.
  destruct (deleteBufferAfterPageFlip g) eqn:Hd.
  - destruct (Hnext eq_refl) as [nb Hnb]. rewrite Hnb.
    match goal with |- context [for_each fl ?f ?o0] =>
      destruct (for_each_same_control fl f o0 plane_flipBufferWithDelete_same_control)
        as (o1 & E1 & S1) end.
    rewrite E1. simpl.
    destruct S1 as (? & ? & ? & ? & ? & ? & ? & ? & ? & S10 & ? & ? & ?). simpl in *.
    rewrite S10.
    exists (set_m_nextPlanesFlipList [] o1). split; [reflexivity|].
    destruct o1; simpl in *. repeat split; auto.
  - match goal with |- context [for_each fl ?f ?o0] =>
      destruct (for_each_same_control fl f o0 plane_flipBuffer_same_control)
        as (o1 & E1 & S1) end.
    rewrite E1. simpl.
    destruct S1 as (S1 & ? & ? & ? & S5 & ? & ? & ? & ? & S10 & ? & ? & ?). simpl in *.
    unfold crtc_flipBuffer. run_monad. simpl. rewrite S5. simpl. rewrite S1, Hd. simpl.
    rewrite S10.
    eexists. split; [reflexivity|].
    destruct o1; simpl in *. repeat split; auto.
Qed.

(** The flip handler of an atomic output that returns before its last
    statement: no commit is issued and a deferred off stays pending. *)
Lemma pageFlipped_returns_early (o : DrmOutput) :
  atomicModeSetting (gpu o) = true ->
  m_pageFlipPending o = true ->
  handler_reaches_end o = false ->
  exists o1, pageFlipped o = Some (tt, o1)
    /\ m_pageFlipPending o1 = false
    /\ commits o1 = commits o
    /\ m_atomicOffPending o1 = m_atomicOffPending o
    /\ m_dpmsModePending o1 = m_dpmsModePending o
    /\ m_dpmsMode o1 = m_dpmsMode o.
Proof.
  intros Ha Hf Hend.
  destruct o as [g b en dp cr pl fl del dm dmp pf aop msr md tr gp lws k t].
  unfold handler_reaches_end in Hend.
  simpl in *. subst. unfold pageFlipped. run_monad. simpl. rewrite Ha. simpl.
  destruct del; simpl.
  { eexists. split; [reflexivity|]. simpl. repeat split.
    unfold commits. simpl. rewrite filter_app. simpl. by rewrite app_nil_r. }
  destruct cr as [c|]; simpl.
  2: { eexists. split; [reflexivity|]. simpl. repeat split. }
  destruct (deleteBufferAfterPageFlip g) eqn:Hd, (pl_next pl) as [nb|] eqn:Hnb;
    try (by vm_compute in Hend).
  destruct (pl_current pl); simpl; eexists; (split; [reflexivity|]); simpl;
    repeat split; auto.
  unfold commits. simpl. rewrite filter_app. simpl. by rewrite app_nil_r.
Qed.

Lemma handler_reaches_end_true (o : DrmOutput) :
  handler_reaches_end o = true ->
  m_deleted o = false /\ (exists c, m_crtc o = Some c)
  /\ (deleteBufferAfterPageFlip (gpu o) = true -> is_Some (pl_next (m_primaryPlane o))).
Proof.
  unfold handler_reaches_end. rewrite !andb_true_iff, negb_true_iff, orb_true_iff.
  intros [[Hd Hc] Hn]. apply bool_decide_eq_true_1 in Hc as [c Hc].
  split; [done|]. split; [by exists c|]. intros Hdel.
  destruct Hn as [Hn|Hn]; [by rewrite Hdel in Hn|by apply bool_decide_eq_true_1 in Hn].
Qed.

(** An [updateDpms] that returns at once: the output has no DPMS property,
    is not enabled, or the mode is the pending one already. *)
Lemma updateDpms_not_taken (mode : DpmsMode) (o : DrmOutput) :
  m_dpms o = false \/ isEnabled o = false \/ mode = m_dpmsModePending o ->
  exists o1, updateDpms mode o = Some (tt, o1)
    /\ commits o1 = commits o
    /\ m_pageFlipPending o1 = m_pageFlipPending o
    /\ m_atomicOffPending o1 = m_atomicOffPending o
    /\ m_dpmsModePending o1 = m_dpmsModePending o.
Proof.
  intros H.
  destruct o as [g b en dp cr pl fl del dm dmp pf aop msr md tr gp lws k t].
  simpl in *. run_monad. simpl.
  destruct dp, en; simpl; try (eexists; split; [reflexivity|]; by repeat split).
  destruct H as [H|[H|H]]; try discriminate.
  rewrite (bool_decide_eq_true_2 _ H). simpl.
  eexists; split; [reflexivity|]. simpl. repeat split.
  unfold commits. simpl. rewrite filter_app. simpl. by rewrite app_nil_r.
Qed.

(** C5. On an atomic output with a page flip pending, [updateDpms] with a
    mode other than On issues no commit and leaves the flip pending.  It
    returns at once when the output has no DPMS property, is not enabled
    or the mode is the pending one already.  Otherwise it records the mode
    and marks the off as pending, and then: whatever is called before the
    flip event ([present], [updateDpms], enabling, disabling) issues no
    commit either and leaves the flip pending; when the flip event is
    processed and the handler reaches its last statement, the handler
    itself runs [dpmsAtomicOff], after the flip has been taken note of;
    when the handler returns before (the output is deleted, has no CRTC,
    or no next buffer is there to flip to), it issues no commit and the
    off stays pending. *)
Theorem dpms_off_waits_for_page_flip (o : DrmOutput) (mode : DpmsMode) (calls : list Call) :
  atomicModeSetting (gpu o) = true ->
  m_pageFlipPending o = true ->
  mode <> On ->
  exists o1, updateDpms mode o = Some (tt, o1)
    /\ commits o1 = commits o
    /\ m_pageFlipPending o1 = true
    /\ (m_dpms o = false \/ isEnabled o = false \/ mode = m_dpmsModePending o ->
        m_atomicOffPending o1 = m_atomicOffPending o
        /\ m_dpmsModePending o1 = m_dpmsModePending o)
    /\ (m_dpms o = true -> isEnabled o = true -> mode <> m_dpmsModePending o ->
        trace o1 = trace o
        /\ m_atomicOffPending o1 = true
        /\ m_dpmsModePending o1 = mode
        /\ (is_Some (m_crtc o) ->
            exists o2, for_each calls call o1 = Some (tt, o2)
              /\ commits o2 = commits o /\ m_pageFlipPending o2 = true)
        /\ (handler_reaches_end o = true ->
            exists o3, pageFlipped o1 = (dpmsAtomicOff ;; ret tt) o3
              /\ m_pageFlipPending o3 = false
              /\ commits o3 = commits o
              /\ m_dpmsModePending o3 = mode)
        /\ (handler_reaches_end o = false ->
            exists o3, pageFlipped o1 = Some (tt, o3)
              /\ m_pageFlipPending o3 = false
              /\ commits o3 = commits o
              /\ m_atomicOffPending o3 = true
              /\ m_dpmsModePending o3 = mode)).
Proof.
  intros Ha Hf Hon.
  assert (Hcase : (m_dpms o = false \/ isEnabled o = false \/ mode = m_dpmsModePending o)
                  \/ (m_dpms o = true /\ isEnabled o = true /\ mode <> m_dpmsModePending o)).
  { destruct (m_dpms o), (isEnabled o), (decide (mode = m_dpmsModePending o)); auto. }
  destruct Hcase as [Hno|(Hd & He & Hp)].
  - destruct (updateDpms_not_taken mode o Hno) as (o1 & E1 & C1 & F1 & A1 & P1).
    exists o1. split; [exact E1|]. split; [exact C1|]. split; [congruence|].
    split; [done|]. intros Hd He Hp. exfalso.
    destruct Hno as [H|[H|H]]; congruence.
  - eexists. split; [by apply updateDpms_deferred|].
    split; [reflexivity|]. split; [assumption|]. split.
    { intros [H|[H|H]]; congruence. }
    intros _ _ _.
    split; [reflexivity|]. split; [reflexivity|]. split; [reflexivity|].
    split; [|split].
    + intros Hc.
      edestruct (calls_while_flip_pending calls) as (o2 & E2 & C2 & _ & F2 & _);
        [| | |exists o2; split; [exact E2|split; [|exact F2]]]; simpl; eauto.
    + intros (Hdel & [c Hc] & Hnext)%handler_reaches_end_true.
      edestruct pageFlipped_runs_deferred_off as (o3 & E3 & F3 & C3 & D3);
        [| | | | | |exists o3; split; [exact E3|]]; simpl; eauto.
    + intros Hend.
      edestruct pageFlipped_returns_early as (o3 & E3 & F3 & C3 & A3 & D3 & _);
        [| | |exists o3; split; [exact E3|]]; simpl; eauto.
Qed.

Lemma dpms_off_waits_for_page_flip_witness :
  exists o1, updateDpms Off output_flip_pending = Some (tt, o1)
    /\ trace o1 = trace output_flip_pending
    /\ m_atomicOffPending o1 = true
    /\ m_dpmsModePending o1 = Off
    /\ m_pageFlipPending o1 = true
    /\ (exists o2, for_each [CallPresent 3%nat; CallUpdateDpms Suspend] call o1 = Some (tt, o2)
          /\ commits o2 = commits output_flip_pending /\ m_pageFlipPending o2 = true)
    /\ (exists o3, pageFlipped o1 = (dpmsAtomicOff ;; ret tt) o3
          /\ m_pageFlipPending o3 = false
          /\ commits o3 = commits output_flip_pending
          /\ m_dpmsModePending o3 = Off).
Proof.
  destruct (dpms_off_waits_for_page_flip output_flip_pending Off
              [CallPresent 3%nat; CallUpdateDpms Suspend])
    as (o1 & E1 & _ & F1 & _ & Htaken); [reflexivity|reflexivity|discriminate|].
  destruct Htaken as (T1 & A1 & P1 & Hcalls & Hend & _);
    [reflexivity|reflexivity|discriminate|].
  exists o1. repeat split; try assumption.
  - apply Hcalls. by eexists.
  - apply Hend. reflexivity.
Defined.

(** C5 fails as stated when the flip handler returns early.
    After a manual VT switch (no next buffer on the primary plane) and on
    an output that has been deleted, [updateDpms(Off)] with the flip
    pending marks the off as pending, and the flip event is processed
    without [dpmsAtomicOff], whose first statement clears that mark: no
    commit is issued and the off is pending still. *)
Lemma dpms_off_lost_on_early_return :
  (atomicModeSetting (gpu output_flip_pending_no_next) = true
   /\ m_pageFlipPending output_flip_pending_no_next = true
   /\ exists o1 o2,
        updateDpms Off output_flip_pending_no_next = Some (tt, o1)
        /\ m_atomicOffPending o1 = true /\ trace o1 = []
        /\ pageFlipped o1 = Some (tt, o2)
        /\ trace o2 = [ReleaseGbm 1%nat]
        /\ m_pageFlipPending o2 = false
        /\ m_atomicOffPending o2 = true)
  /\ (atomicModeSetting (gpu output_flip_pending_deleted) = true
      /\ m_pageFlipPending output_flip_pending_deleted = true
      /\ exists o1 o2,
           updateDpms Off output_flip_pending_deleted = Some (tt, o1)
           /\ m_atomicOffPending o1 = true /\ trace o1 = []
           /\ pageFlipped o1 = Some (tt, o2)
           /\ trace o2 = [DeleteLater]
           /\ m_pageFlipPending o2 = false
           /\ m_atomicOffPending o2 = true).
Proof.
  split; (split; [reflexivity|]; split; [reflexivity|]);
    do 2 eexists; (split; [vm_compute; reflexivity|]);
    (split; [reflexivity|]); (split; [reflexivity|]);
    (split; [vm_compute; reflexivity|]); repeat split.
Qed.

(** The scenario end to end: with the flip in flight the request for Off
    reaches no hardware; the flip event then releases the old buffer and
    is followed by the test commit and the real commit that switch the
    output off. *)
Example dpms_off_scenario :
  (trace <$> (snd <$> updateDpms Off output_flip_pending)) = Some []
  /\ (trace <$> (snd <$> (updateDpms Off ;; pageFlipped) output_flip_pending))
     = Some [DeleteBuffer 1%nat; DeleteBuffer 2%nat;
             AtomicCommit Test true Off true; AtomicCommit Real true Off true;
             WaylandDpms Off; CreateDpmsFilter; RenderLoopInhibit]
  /\ (m_dpmsMode <$> (snd <$> (updateDpms Off ;; pageFlipped) output_flip_pending))
     = Some Off.
Proof. repeat split; vm_compute; reflexivity. Qed.

End DpmsFacts.

(* --------------------------------------------------------------------- *)
(** ** Item tree                                                           *)
(* --------------------------------------------------------------------- *)

Section ItemFacts.
Import Item.

Lemma rect_eqb_eq (a b : QRect) : rect_eqb a b = true <-> a = b.
Proof.
  unfold rect_eqb. rewrite !andb_true_iff, !Z.eqb_eq. split.
  - intros [[[H1 H2] H3] H4]. destruct a, b; simpl in *; congruence.
  - intros ->. auto.
Qed.

Lemma childrenBound_fold (h : Items) (it : Item) :
  childrenBound h it = foldl (bound_step h) (Some (rect it)) (m_childItems it).
Proof. reflexivity. Qed.

Lemma fold_bound_ext (h h' : Items) (l : list ItemId) (acc : option QRect) :
  (forall c, c ∈ l -> extent <$> h !! c = extent <$> h' !! c) ->
  foldl (bound_step h) acc l = foldl (bound_step h') acc l.
Proof.
  revert acc. induction l as [|c l IH]; intros acc H; [reflexivity|].
  cbn [foldl]. rewrite IH by (intros; apply H; by right).
  f_equal. unfold bound_step. destruct acc as [r|]; [|reflexivity]. simpl.
  specialize (H c ltac:(by left)).
  destruct (h !! c) as [a|], (h' !! c) as [b|]; simpl in *; try congruence.
  unfold extent, boundingRect, position in *. congruence.
Qed.

Lemma childrenBound_ext (h h' : Items) (it it' : Item) :
  rect it = rect it' ->
  m_childItems it = m_childItems it' ->
  (forall c, c ∈ m_childItems it -> extent <$> h !! c = extent <$> h' !! c) ->
  childrenBound h it = childrenBound h' it'.
Proof.
  intros Hr Hc H. rewrite !childrenBound_fold, <- Hr, <- Hc. by apply fold_bound_ext.
Qed.

Lemma fold_bound_is_Some (h : Items) (l : list ItemId) (r : QRect) :
  (forall c, c ∈ l -> is_Some (h !! c)) -> is_Some (foldl (bound_step h) (Some r) l).
Proof.
  revert r. induction l as [|c l IH]; intros r H; [by eexists|].
  cbn [foldl]. destruct (H c ltac:(by left)) as [ct Hc].
  unfold bound_step at 2. simpl. rewrite Hc. simpl. apply IH. intros; apply H; by right.
Qed.

Lemma childrenBound_is_Some (h : Items) (it : Item) :
  (forall c, c ∈ m_childItems it -> is_Some (h !! c)) -> is_Some (childrenBound h it).
Proof. apply fold_bound_is_Some. Qed.

Lemma skeletons_Some (h : Items) (j : ItemId) (it : Item) :
  h !! j = Some it -> skeletons h !! j = Some (skeleton it).
Proof. intros H. unfold skeletons. by rewrite lookup_fmap, H. Qed.

Lemma skeletons_inv (h : Items) (j : ItemId) (sk : Skeleton) :
  skeletons h !! j = Some sk -> exists it, h !! j = Some it /\ skeleton it = sk.
Proof.
  unfold skeletons. rewrite lookup_fmap. destruct (h !! j) as [it|]; simpl; [|discriminate].
  intros [= <-]. by exists it.
Qed.

Lemma skeletons_insert (h : Items) (i : ItemId) (it : Item) :
  skeletons (<[i := it]> h) = <[i := skeleton it]> (skeletons h).
Proof. apply fmap_insert. Qed.

Lemma same_skel_lookup (h h' : Items) (j : ItemId) (a : Item) :
  same_skel h h' -> h !! j = Some a ->
  exists b, h' !! j = Some b /\ skeleton b = skeleton a.
Proof.
  intros H Ha. apply skeletons_inv. rewrite <- H. by apply skeletons_Some.
Qed.

Lemma same_skel_trans (h1 h2 h3 : Items) :
  same_skel h1 h2 -> same_skel h2 h3 -> same_skel h1 h3.
Proof. unfold same_skel. congruence. Qed.

Lemma same_skel_insert (h : Items) (i : ItemId) (it it' : Item) :
  h !! i = Some it -> skeleton it' = skeleton it -> same_skel h (<[i := it']> h).
Proof.
  intros Hi Hs. unfold same_skel. rewrite skeletons_insert, Hs.
  symmetry. apply insert_id. by apply skeletons_Some.
Qed.

Lemma tree_links (h : Items) : tree h -> links h.
Proof.
  intros T k kt j Hk Hj.
  destruct (tree_child _ T k (skeleton kt) j (skeletons_Some _ _ _ Hk) Hj) as (sk & Hsk & Hp).
  destruct (skeletons_inv _ _ _ Hsk) as (jt & Hjt & <-).
  exists jt. split; [done|].
  pose proof (tree_conn _ T j _ Hsk) as C. rewrite Hp in C. exact C.
Qed.

Lemma conns_skeletons (h : Items) : conns h = sk_connections <$> skeletons h.
Proof.
  unfold conns, skeletons. rewrite <- map_fmap_compose. reflexivity.
Qed.

Lemma conns_Some (h : Items) (j : ItemId) (it : Item) :
  h !! j = Some it -> conns h !! j = Some (connections it).
Proof. intros H. unfold conns. by rewrite lookup_fmap, H. Qed.

Lemma conns_inv (h : Items) (j : ItemId) (l : list nat) :
  conns h !! j = Some l -> exists it, h !! j = Some it /\ connections it = l.
Proof.
  unfold conns. rewrite lookup_fmap. destruct (h !! j) as [it|]; simpl; [|discriminate].
  intros [= <-]. by exists it.
Qed.

Lemma same_skel_conns (h h' : Items) : same_skel h h' -> conns h = conns h'.
Proof. intros S. rewrite !conns_skeletons. by rewrite S. Qed.

Lemma tree_grounded (h : Items) (j : ItemId) :
  tree h -> is_Some (h !! j) -> grounded (conns h) j.
Proof.
  intros T [jt Hj].
  pose proof (tree_anchored _ T j ltac:(rewrite (skeletons_Some _ _ _ Hj); by eexists)) as A.
  clear jt Hj. remember (skeletons h) as s eqn:Es.
  induction A as [j sk Hs Hp | j sk k Hs Hp A IH]; subst s.
  - destruct (skeletons_inv _ _ _ Hs) as (jt & Hj & <-).
    apply grounded_top. rewrite (conns_Some _ _ _ Hj). f_equal.
    pose proof (tree_conn _ T j _ Hs) as C. by rewrite Hp in C.
  - destruct (skeletons_inv _ _ _ Hs) as (jt & Hj & <-).
    eapply grounded_up; [|by apply IH]. rewrite (conns_Some _ _ _ Hj). f_equal.
    pose proof (tree_conn _ T j _ Hs) as C. by rewrite Hp in C.
Qed.

Lemma grounded_not_self_child (h : Items) (i : ItemId) (it : Item) :
  links h -> grounded (conns h) i -> h !! i = Some it -> i ∉ m_childItems it.
Proof.
  intros L G. revert it.
  remember (conns h) as c eqn:Ec.
  induction G as [j Hj | j k Hj G IH]; intros it Hi Hin; subst c.
  - destruct (L j it j Hi Hin) as (jt' & Hj' & Cj).
    rewrite (conns_Some _ _ _ Hj') in Hj. congruence.
  - destruct (L j it j Hi Hin) as (jt' & Hj' & Cj).
    rewrite (conns_Some _ _ _ Hj') in Hj.
    assert (k = j) by congruence. subst k. exact (IH it Hi Hin).
Qed.

Lemma links_children_exist (h : Items) (k : ItemId) (kt : Item) :
  links h -> h !! k = Some kt -> forall c, c ∈ m_childItems kt -> is_Some (h !! c).
Proof. intros L Hk c Hc. destruct (L k kt c Hk Hc) as (ct & Hct & _). by eexists. Qed.

Lemma links_same_skel (h h' : Items) : same_skel h h' -> links h -> links h'.
Proof.
  intros S L k kt j Hk Hj.
  assert (S' : same_skel h' h) by (unfold same_skel in *; congruence).
  destruct (same_skel_lookup _ _ _ _ S' Hk) as (kt0 & Hk0 & Sk).
  assert (Hc : m_childItems kt0 = m_childItems kt) by (unfold skeleton in Sk; congruence).
  rewrite <- Hc in Hj.
  destruct (L k kt0 j Hk0 Hj) as (jt0 & Hj0 & Cj).
  destruct (same_skel_lookup _ _ _ _ S Hj0) as (jt & Hj' & Sj).
  exists jt. split; [done|]. unfold skeleton in Sj. congruence.
Qed.

(** Writing a new bounding rectangle into [i] changes [childrenBound] for
    no item that does not list [i]. *)
Lemma childrenBound_set_bounding (h : Items) (i : ItemId) (it : Item) (br : QRect)
  (jt : Item) :
  i ∉ m_childItems jt ->
  childrenBound (<[i := set_m_boundingRect br it]> h) jt = childrenBound h jt.
Proof.
  intros Hn. apply childrenBound_ext; try reflexivity.
  intros c Hc. rewrite lookup_insert_ne; [reflexivity|]. intros ->. contradiction.
Qed.

(** One step of the cascade: [j] takes up its new bounding rectangle; the
    invariant then holds at [j] and stays intact wherever [j] is not
    listed as a child. *)
Lemma update_step (h0 : Items) (j : ItemId) (jt0 : Item) (br : QRect) :
  links h0 -> h0 !! j = Some jt0 -> childrenBound h0 jt0 = Some br ->
  j ∉ m_childItems jt0 -> ok_except h0 j ->
  forall j' jt', <[j := set_m_boundingRect br jt0]> h0 !! j' = Some jt' ->
    connections jt0 <> [j'] ->
    childrenBound (<[j := set_m_boundingRect br jt0]> h0) jt' = Some (boundingRect jt').
Proof.
  intros L Hj0 Hbr Hself Hok j' jt' Hj' Hcon.
  destruct (decide (j' = j)) as [->|Hne].
  - rewrite lookup_insert_eq in Hj'. injection Hj' as <-.
    rewrite childrenBound_set_bounding by done. cbn. exact Hbr.
  - rewrite lookup_insert_ne in Hj' by done.
    rewrite childrenBound_set_bounding; [by apply (Hok j')|].
    intros Hin. destruct (L j' jt' j Hj' Hin) as (x & Hx & Cx).
    assert (x = jt0) by congruence. subst x. contradiction.
Qed.

Lemma update_chain (c : gmap nat (list nat)) (i : ItemId) :
  grounded c i ->
  forall h0, conns h0 = c -> links h0 -> ok_except h0 i ->
  exists h', bounding_ok h' /\ same_skel h0 h' /\
    exists n, forall fuel, (n <= fuel)%nat -> updateBoundingRect fuel i h0 = Some h'.
Proof.
  intros G. induction G as [j Hj | j k Hj G IH]; intros h0 Es L Hok.
  - subst c. destruct (conns_inv _ _ _ Hj) as (jt0 & Hj0 & Hc).
    destruct (childrenBound_is_Some h0 jt0 (links_children_exist _ _ _ L Hj0)) as [br Hbr].
    assert (Hself : j ∉ m_childItems jt0).
    { eapply grounded_not_self_child; eauto. by eapply grounded_top. }
    destruct (rect_eqb (m_boundingRect jt0) br) eqn:E.
    + exists h0. split; [|split; [done|]].
      * apply rect_eqb_eq in E.
        intros j' jt' Hj'. destruct (decide (j' = j)) as [->|Hne]; [|by apply (Hok j')].
        assert (jt' = jt0) by congruence. subst. unfold boundingRect. congruence.
      * exists 1%nat. intros [|fuel] Hf; [lia|]. cbn [updateBoundingRect].
        rewrite Hj0. simpl. rewrite Hbr. simpl. by rewrite E.
    + exists (<[j := set_m_boundingRect br jt0]> h0). split; [|split].
      * intros j' jt' Hj'. eapply update_step; eauto. by rewrite Hc.
      * by apply (same_skel_insert _ _ jt0).
      * exists 1%nat. intros [|fuel] Hf; [lia|]. cbn [updateBoundingRect].
        rewrite Hj0. simpl. rewrite Hbr. simpl. rewrite E. by rewrite Hc.
  - subst c. destruct (conns_inv _ _ _ Hj) as (jt0 & Hj0 & Hc).
    destruct (childrenBound_is_Some h0 jt0 (links_children_exist _ _ _ L Hj0)) as [br Hbr].
    assert (Hself : j ∉ m_childItems jt0).
    { eapply grounded_not_self_child; eauto. by eapply grounded_up. }
    destruct (rect_eqb (m_boundingRect jt0) br) eqn:E.
    + exists h0. split; [|split; [done|]].
      * apply rect_eqb_eq in E.
        intros j' jt' Hj'. destruct (decide (j' = j)) as [->|Hne]; [|by apply (Hok j')].
        assert (jt' = jt0) by congruence. subst. unfold boundingRect. congruence.
      * exists 1%nat. intros [|fuel] Hf; [lia|]. cbn [updateBoundingRect].
        rewrite Hj0. simpl. rewrite Hbr. simpl. by rewrite E.
    + pose (h1 := <[j := set_m_boundingRect br jt0]> h0).
      assert (S1 : same_skel h0 h1) by by apply (same_skel_insert _ _ jt0).
      destruct (IH h1) as (h' & Ok' & S' & n & Hn).
      { symmetry. by apply same_skel_conns. }
      { by eapply links_same_skel. }
      { intros j' jt' Hne Hj'. eapply update_step; eauto. rewrite Hc. congruence. }
      exists h'. split; [done|]. split; [by eapply same_skel_trans|].
      exists (S n). intros [|fuel] Hf; [lia|]. cbn [updateBoundingRect].
      rewrite Hj0. simpl. rewrite Hbr. simpl. rewrite E.
      rewrite Hc. cbn [foldl mbind option_bind].
      apply Hn. lia.
Qed.

Lemma settles_now (P : Items -> Prop) (h : Items) :
  P h -> tree h -> bounding_ok h -> settles_to P (fun _ => Some h).
Proof. intros HP T B. exists h. do 3 (split; [done|]). by exists 0%nat. Qed.

Lemma settles_bind (P Q : Items -> Prop) (f : nat -> option Items)
  (g : Items -> nat -> option Items) :
  settles_to P f ->
  (forall h, P h -> tree h -> bounding_ok h -> settles_to Q (g h)) ->
  settles_to Q (fun fuel => h ← f fuel; g h fuel).
Proof.
  intros (h1 & P1 & T1 & B1 & n1 & H1) Hg.
  destruct (Hg h1 P1 T1 B1) as (h2 & Q2 & T2 & B2 & n2 & H2).
  exists h2. do 3 (split; [done|]).
  exists (n1 `max` n2)%nat. intros fuel Hf.
  rewrite H1 by lia. simpl. apply H2. lia.
Qed.

Lemma settles_ext (P : Items -> Prop) (f g : nat -> option Items) :
  (forall fuel, f fuel = g fuel) -> settles_to P f -> settles_to P g.
Proof.
  intros E (h & HP & T & B & n & H). exists h. do 3 (split; [done|]).
  exists n. intros fuel Hf. rewrite <- E. by apply H.
Qed.

Lemma settles_weaken (P Q : Items -> Prop) (f : nat -> option Items) :
  (forall h, P h -> Q h) -> settles_to P f -> settles_to Q f.
Proof.
  intros PQ (h & HP & T & B & n & H). exists h.
  split; [by apply PQ|]. do 2 (split; [done|]). by exists n.
Qed.

(** An item is rewritten without a change to what others see of it or to
    its own rectangle and children. *)
Lemma bounding_ok_rewrite (h : Items) (i : ItemId) (it it' : Item) :
  bounding_ok h -> h !! i = Some it ->
  m_childItems it' = m_childItems it -> extent it' = extent it -> rect it' = rect it ->
  bounding_ok (<[i := it']> h).
Proof.
  intros B Hi Hc Ex Hr j jt Hj.
  assert (Hext : forall c, extent <$> <[i := it']> h !! c = extent <$> h !! c).
  { intros c. destruct (decide (c = i)) as [->|Hci].
    - by rewrite lookup_insert_eq, Hi; simpl; rewrite Ex.
    - by rewrite lookup_insert_ne. }
  destruct (decide (j = i)) as [->|Hne].
  - rewrite lookup_insert_eq in Hj. injection Hj as <-.
    replace (boundingRect it') with (boundingRect it)
      by (unfold extent in Ex; congruence).
    rewrite <- (B i it Hi). apply childrenBound_ext; auto.
  - rewrite lookup_insert_ne in Hj by done. rewrite <- (B j jt Hj).
    apply childrenBound_ext; auto.
Qed.

Lemma tree_same_skel (h h' : Items) : same_skel h h' -> tree h -> tree h'.
Proof. unfold tree, same_skel. by intros <-. Qed.

(** An item changes its own rectangle and brings its bounding rectangle
    up to date. *)
Lemma resize_settles (h : Items) (i : ItemId) (it it' : Item) :
  tree h -> bounding_ok h -> h !! i = Some it ->
  skeleton it' = skeleton it -> extent it' = extent it ->
  settles_to (same_skel h) (fun fuel => updateBoundingRect fuel i (<[i := it']> h)).
Proof.
  intros T B Hi Sk Ex.
  assert (S1 : same_skel h (<[i := it']> h)) by by apply (same_skel_insert _ _ it).
  destruct (update_chain (conns h) i) with (h0 := <[i := it']> h)
    as (h' & Ok & S2 & n & Hn).
  { apply tree_grounded; [done|by eexists]. }
  { symmetry. by apply same_skel_conns. }
  { by eapply links_same_skel, tree_links. }
  { intros j jt Hne Hj. rewrite lookup_insert_ne in Hj by done.
    rewrite <- (B j jt Hj). apply childrenBound_ext; try reflexivity.
    intros c Hc. destruct (decide (c = i)) as [->|Hci].
    - by rewrite lookup_insert_eq, Hi; simpl; rewrite Ex.
    - by rewrite lookup_insert_ne. }
  assert (S3 : same_skel h h') by by eapply same_skel_trans.
  exists h'. split; [done|]. split; [by eapply tree_same_skel|]. split; [done|by exists n].
Qed.

Lemma rewrite_keeps (h : Items) (i : ItemId) (it it' : Item) :
  tree h -> bounding_ok h -> h !! i = Some it ->
  skeleton it' = skeleton it -> extent it' = extent it -> rect it' = rect it ->
  settles_to (same_skel h) (fun _ => Some (<[i := it']> h)).
Proof.
  intros T B Hi Sk Ex Hr.
  assert (S1 : same_skel h (<[i := it']> h)) by by apply (same_skel_insert _ _ it).
  apply settles_now; [done|by eapply tree_same_skel|].
  eapply bounding_ok_rewrite; eauto. unfold skeleton in Sk. congruence.
Qed.

(** An item moves and tells the items connected to it. *)
Lemma move_settles (h : Items) (i : ItemId) (it it' : Item) :
  tree h -> bounding_ok h -> h !! i = Some it ->
  skeleton it' = skeleton it -> rect it' = rect it -> boundingRect it' = boundingRect it ->
  settles_to (same_skel h) (fun fuel => emit_moved fuel i (<[i := it']> h)).
Proof.
  intros T B Hi Sk Hr Hb.
  set (h1 := <[i := it']> h).
  assert (S1 : same_skel h h1) by by apply (same_skel_insert _ _ it).
  assert (T1 : tree h1) by by eapply tree_same_skel.
  assert (L1 : links h1) by by apply tree_links.
  assert (Hi1 : h1 !! i = Some it') by apply lookup_insert_eq.
  assert (Hself : i ∉ m_childItems it').
  { eapply grounded_not_self_child; [exact L1| |exact Hi1].
    apply tree_grounded; [done|by eexists]. }
  assert (Hch : m_childItems it' = m_childItems it) by (unfold skeleton in Sk; congruence).
  assert (Oki : childrenBound h1 it' = Some (boundingRect it')).
  { rewrite Hb, <- (B i it Hi). apply childrenBound_ext; auto.
    intros c Hc. unfold h1. rewrite lookup_insert_ne; [done|]. intros ->. contradiction. }
  assert (Okj : forall j jt, h1 !! j = Some jt -> i ∉ m_childItems jt ->
                             childrenBound h1 jt = Some (boundingRect jt)).
  { intros j jt Hj Hn. destruct (decide (j = i)) as [->|Hne]; [congruence|].
    unfold h1 in Hj. rewrite lookup_insert_ne in Hj by done. rewrite <- (B j jt Hj).
    apply childrenBound_ext; auto.
    intros c Hc. unfold h1. rewrite lookup_insert_ne; [done|]. intros ->. contradiction. }
  assert (Hlist : forall j jt, h1 !! j = Some jt -> i ∈ m_childItems jt ->
                               m_parentItem it' = Some j).
  { intros j jt Hj Hin.
    destruct (tree_child _ T1 j _ i (skeletons_Some _ _ _ Hj) Hin) as (sk & Hsk & Hp).
    rewrite (skeletons_Some _ _ _ Hi1) in Hsk. by injection Hsk as <-. }
  unfold emit_moved. fold h1.
  pose proof (tree_conn _ T1 i _ (skeletons_Some _ _ _ Hi1)) as Hconn.
  unfold sk_connections, sk_parent, skeleton in Hconn. simpl in Hconn.
  destruct (m_parentItem it') as [k|] eqn:Hp; simpl in Hconn.
  - destruct (tree_parent _ T1 i _ k (skeletons_Some _ _ _ Hi1) Hp) as (skk & Hk & Hin).
    destruct (skeletons_inv _ _ _ Hk) as (kt & Hkt & _).
    destruct (update_chain (conns h1) k) with (h0 := h1) as (h' & Ok & S2 & n & Hn);
      [apply tree_grounded; [done|by eexists] |done|done| |].
    { intros j jt Hne Hj. apply (Okj j jt Hj). intros Hin'.
      specialize (Hlist j jt Hj Hin'). congruence. }
    exists h'. split; [by eapply same_skel_trans|].
    split; [by eapply tree_same_skel|]. split; [done|].
    exists n. intros fuel Hf. rewrite Hi1. simpl. rewrite Hconn. cbn [foldl]. simpl.
    by apply Hn.
  - exists h1. split; [done|]. split; [done|]. split.
    + intros j jt Hj. apply (Okj j jt Hj). intros Hin'.
      specialize (Hlist j jt Hj Hin'). congruence.
    + exists 0%nat. intros fuel _. rewrite Hi1. simpl. by rewrite Hconn.
Qed.

Lemma emit_again (h : Items) (i : ItemId) :
  tree h -> bounding_ok h -> is_Some (h !! i) ->
  settles_to (same_skel h) (fun fuel => emit_moved fuel i h).
Proof.
  intros T B [it Hi].
  pose proof (move_settles h i it it T B Hi eq_refl eq_refl eq_refl) as M.
  by rewrite (insert_id h i it Hi) in M.
Qed.

Lemma setX_settles (h : Items) (i : ItemId) (x : Z) :
  tree h -> bounding_ok h -> is_Some (h !! i) ->
  settles_to (same_skel h) (fun fuel => setX fuel i x h).
Proof.
  intros T B [it Hi]. unfold setX. rewrite Hi. simpl.
  destruct (m_x it =? x); [by apply settles_now|].
  by apply (move_settles h i it).
Qed.

Lemma setY_settles (h : Items) (i : ItemId) (y : Z) :
  tree h -> bounding_ok h -> is_Some (h !! i) ->
  settles_to (same_skel h) (fun fuel => setY fuel i y h).
Proof.
  intros T B [it Hi]. unfold setY. rewrite Hi. simpl.
  destruct (m_y it =? y); [by apply settles_now|].
  by apply (move_settles h i it).
Qed.

Lemma setPosition_settles (h : Items) (i : ItemId) (p : QPoint) :
  tree h -> bounding_ok h -> is_Some (h !! i) ->
  settles_to (same_skel h) (fun fuel => setPosition fuel i p h).
Proof.
  intros T B [it Hi]. unfold setPosition. rewrite Hi. simpl.
  set (it' := set_m_y (py p) (set_m_x (px p) it)).
  assert (M : settles_to (same_skel h) (fun fuel => emit_moved fuel i (<[i := it']> h)))
    by by apply (move_settles h i it).
  destruct (m_x it =? px p) eqn:Ex, (m_y it =? py p) eqn:Ey; simpl.
  - apply Z.eqb_eq in Ex, Ey.
    apply (rewrite_keeps h i it it' T B Hi); try done.
    unfold extent, position. simpl. by rewrite Ex, Ey.
  - exact M.
  - eapply settles_ext; [|exact M]. intros fuel. simpl.
    by destruct (emit_moved fuel i (<[i:=it']> h)).
  - apply (settles_bind (same_skel h)); [exact M|].
    intros h2 S2 T2 B2.
    eapply settles_weaken; [|apply emit_again; try done].
    + intros h3 S3. by eapply same_skel_trans.
    + destruct (same_skel_lookup _ _ _ _ S2 Hi) as (b & Hb & _). by eexists.
Qed.

Lemma setWidth_settles (h : Items) (i : ItemId) (w : Z) :
  tree h -> bounding_ok h -> is_Some (h !! i) ->
  settles_to (same_skel h) (fun fuel => setWidth fuel i w h).
Proof.
  intros T B [it Hi]. unfold setWidth. rewrite Hi. simpl.
  destruct (m_widthValid it && (m_width it =? w)); [by apply settles_now|].
  by apply (resize_settles h i it).
Qed.

Lemma setHeight_settles (h : Items) (i : ItemId) (w : Z) :
  tree h -> bounding_ok h -> is_Some (h !! i) ->
  settles_to (same_skel h) (fun fuel => setHeight fuel i w h).
Proof.
  intros T B [it Hi]. unfold setHeight. rewrite Hi. simpl.
  destruct (m_heightValid it && (m_height it =? w)); [by apply settles_now|].
  by apply (resize_settles h i it).
Qed.

Lemma setImplicitWidth_settles (h : Items) (i : ItemId) (w : Z) :
  tree h -> bounding_ok h -> is_Some (h !! i) ->
  settles_to (same_skel h) (fun fuel => setImplicitWidth fuel i w h).
Proof.
  intros T B [it Hi]. unfold setImplicitWidth. rewrite Hi. simpl.
  destruct (m_implicitWidth it =? w); [by apply settles_now|].
  destruct (m_widthValid it) eqn:V; [|by apply (resize_settles h i it)].
  apply (rewrite_keeps h i it (set_m_implicitWidth w it) T B Hi); try done.
  unfold rect, size, width. simpl. by rewrite V.
Qed.

Lemma setImplicitHeight_settles (h : Items) (i : ItemId) (w : Z) :
  tree h -> bounding_ok h -> is_Some (h !! i) ->
  settles_to (same_skel h) (fun fuel => setImplicitHeight fuel i w h).
Proof.
  intros T B [it Hi]. unfold setImplicitHeight. rewrite Hi. simpl.
  destruct (m_implicitHeight it =? w); [by apply settles_now|].
  destruct (m_heightValid it) eqn:V; [|by apply (resize_settles h i it)].
  apply (rewrite_keeps h i it (set_m_implicitHeight w it) T B Hi); try done.
  unfold rect, size, height. simpl. by rewrite V.
Qed.

Lemma setSize_settles (h : Items) (i : ItemId) (s : QSize) :
  tree h -> bounding_ok h -> is_Some (h !! i) ->
  settles_to (same_skel h) (fun fuel => setSize fuel i s h).
Proof.
  intros T B [it Hi]. unfold setSize. rewrite Hi. simpl.
  destruct (width it =? wd s) eqn:Ew, (height it =? ht s) eqn:Eh; simpl;
    try by apply (resize_settles h i it).
  apply Z.eqb_eq in Ew, Eh.
  match goal with |- context [<[i := ?x]> h] => set (it' := x) end.
  apply (rewrite_keeps h i it it' T B Hi); try done.
  unfold rect, size, width, height in *. simpl. by rewrite Ew, Eh.
Qed.

Lemma setImplicitSize_settles (h : Items) (i : ItemId) (s : QSize) :
  tree h -> bounding_ok h -> is_Some (h !! i) ->
  settles_to (same_skel h) (fun fuel => setImplicitSize fuel i s h).
Proof.
  intros T B [it Hi]. unfold setImplicitSize. rewrite Hi. simpl.
  match goal with |- context [<[i := ?x]> h] => set (it' := x) end.
  destruct (negb (m_implicitWidth it =? wd s) && negb (m_widthValid it)
            || negb (m_implicitHeight it =? ht s) && negb (m_heightValid it)) eqn:D;
    [by apply (resize_settles h i it)|].
  apply (rewrite_keeps h i it it' T B Hi); try done.
  apply orb_false_elim in D as [D1 D2].
  unfold rect, size, width, height, it'. simpl.
  destruct (m_widthValid it), (m_heightValid it),
    (Z.eqb_spec (m_implicitWidth it) (wd s)), (Z.eqb_spec (m_implicitHeight it) (ht s));
    simpl in *; try discriminate; congruence.
Qed.

End ItemFacts.

Section SkeletonFacts.
Import Item.

Lemma removeOne_elem (i j : ItemId) (l : list ItemId) :
  NoDup l -> j ∈ removeOne i l <-> j ∈ l /\ j <> i.
Proof.
  induction l as [|y l IH]; intros ND.
  - simpl. split; [intros H; by apply elem_of_nil in H | intros [H _]; by apply elem_of_nil in H].
  - apply NoDup_cons in ND as [Hy ND]. cbn [removeOne]. destruct (decide (y = i)) as [->|Hne].
    + split.
      * intros H. split; [by right|]. intros ->. contradiction.
      * intros [H Hj]. apply elem_of_cons in H as [->|H]; [contradiction|done].
    + rewrite !elem_of_cons, (IH ND). split.
      * intros [->|[H Hj]]; auto.
      * intros [[->|H] Hj]; auto.
Qed.

Lemma removeOne_NoDup (i : ItemId) (l : list ItemId) : NoDup l -> NoDup (removeOne i l).
Proof.
  induction l as [|y l IH]; intros ND; [done|].
  apply NoDup_cons in ND as [Hy ND]. cbn [removeOne]. destruct (decide (y = i)); [done|].
  apply NoDup_cons. split; [|by apply IH].
  intros H. apply (removeOne_elem i y l ND) in H as [H _]. contradiction.
Qed.

Lemma anchored_not_self (s : gmap nat Skeleton) (i : ItemId) :
  anchored s i -> forall sk, s !! i = Some sk -> sk_parent sk <> Some i.
Proof.
  intros A. induction A as [j sk Hs Hp | j sk k Hs Hp A IH]; intros sk' Hs' Hself.
  - congruence.
  - assert (sk' = sk) by congruence. subst sk'.
    assert (k = j) by congruence. subst k. exact (IH sk Hs Hself).
Qed.

Lemma tree_not_self (s : gmap nat Skeleton) (i : ItemId) (sk : Skeleton) :
  tree_sk s -> s !! i = Some sk -> sk_parent sk <> Some i.
Proof.
  intros T Hs. eapply anchored_not_self; [|exact Hs]. apply (tree_anchored s T). by eexists.
Qed.

Lemma tree_fresh_sk (s : gmap nat Skeleton) (i : ItemId) :
  tree_sk s -> s !! i = None -> tree_sk (<[i := (None, [], [])]> s).
Proof.
  intros T Hi.
  assert (Hin : forall j sk, s !! j = Some sk -> j <> i) by (intros j sk H ->; congruence).
  split.
  - intros j sk k Hj Hp. destruct (decide (j = i)) as [->|Hne].
    + rewrite lookup_insert_eq in Hj. by injection Hj as <-.
    + rewrite lookup_insert_ne in Hj by done.
      destruct (tree_parent s T j sk k Hj Hp) as (skk & Hk & Hc).
      exists skk. split; [|done]. rewrite lookup_insert_ne; [done|]. intros <-. congruence.
  - intros k skk j Hk Hc. destruct (decide (k = i)) as [->|Hne].
    + rewrite lookup_insert_eq in Hk. injection Hk as <-. by apply elem_of_nil in Hc.
    + rewrite lookup_insert_ne in Hk by done.
      destruct (tree_child s T k skk j Hk Hc) as (sk & Hj & Hp).
      exists sk. split; [|done]. rewrite lookup_insert_ne; [done|]. intros <-. congruence.
  - intros j sk Hj. destruct (decide (j = i)) as [->|Hne].
    + rewrite lookup_insert_eq in Hj. by injection Hj as <-.
    + rewrite lookup_insert_ne in Hj by done. by apply (tree_conn s T j).
  - intros k skk Hk. destruct (decide (k = i)) as [->|Hne].
    + rewrite lookup_insert_eq in Hk. injection Hk as <-. apply NoDup_nil_2.
    + rewrite lookup_insert_ne in Hk by done. by apply (tree_nodup s T k).
  - intros j Hj. destruct (decide (j = i)) as [->|Hne].
    + eapply anchored_root; [apply lookup_insert_eq|done].
    + rewrite lookup_insert_ne in Hj by done.
      pose proof (tree_anchored s T j Hj) as A. clear Hj Hne.
      induction A as [j sk Hs Hp | j sk k Hs Hp A IH].
      * eapply anchored_root; [|exact Hp]. rewrite lookup_insert_ne; [done|].
        intros <-. congruence.
      * eapply anchored_child; [|exact Hp|exact IH]. rewrite lookup_insert_ne; [done|].
        intros <-. congruence.
Qed.

Lemma avoids_fresh (s : gmap nat Skeleton) (i q : ItemId) :
  s !! i = None -> anchored s q -> avoids (<[i := (None, [], [])]> s) i q.
Proof.
  intros Hi A. induction A as [j sk Hs Hp | j sk k Hs Hp A IH].
  - assert (j <> i) by (intros ->; congruence).
    eapply avoids_root; [done| |exact Hp]. by rewrite lookup_insert_ne.
  - assert (j <> i) by (intros ->; congruence).
    eapply avoids_child; [done| |exact Hp|exact IH]. by rewrite lookup_insert_ne.
Qed.

Lemma avoids_lookup (s : gmap nat Skeleton) (i q : ItemId) :
  avoids s i q -> q <> i /\ is_Some (s !! q).
Proof. intros A. destruct A; split; try done; by eexists. Qed.

(** The tree without the link from [i] to its parent [p]. *)
Lemma tree_detach_sk (s : gmap nat Skeleton) (i p : ItemId) (ski : Skeleton) :
  tree_sk s -> s !! i = Some ski -> sk_parent ski = Some p ->
  tree_sk (sk_detached i p s).
Proof.
  intros T Hi Hp.
  destruct (tree_parent s T i ski p Hi Hp) as (skp & Hsp & Hin).
  assert (Hne : p <> i).
  { intros ->. by apply (tree_not_self s i ski T Hi). }
  unfold sk_detached. rewrite Hi, Hsp.
  set (ski' := (None, sk_children ski, []) : Skeleton).
  set (skp' := (sk_parent skp, removeOne i (sk_children skp), sk_connections skp) : Skeleton).
  set (s' := <[i := ski']> (<[p := skp']> s)).
  assert (Li : s' !! i = Some ski') by apply lookup_insert_eq.
  assert (Lp : s' !! p = Some skp').
  { unfold s'. rewrite lookup_insert_ne by done. apply lookup_insert_eq. }
  assert (Lo : forall j, j <> i -> j <> p -> s' !! j = s !! j).
  { intros j H1 H2. unfold s'. by rewrite !lookup_insert_ne. }
  assert (NDp : NoDup (sk_children skp)) by by apply (tree_nodup s T p).
  (* an item other than [i] keeps its parent and its connections *)
  assert (Keep : forall j sk, s !! j = Some sk -> j <> i ->
            exists sk', s' !! j = Some sk' /\ sk_parent sk' = sk_parent sk
                        /\ sk_connections sk' = sk_connections sk).
  { intros j sk Hj Hji. destruct (decide (j = p)) as [->|Hjp].
    - exists skp'. assert (sk = skp) by congruence. subst sk. done.
    - exists sk. by rewrite Lo. }
  (* a child other than [i] stays listed *)
  assert (Listed : forall k skk j, s !! k = Some skk -> j ∈ sk_children skk -> j <> i ->
            exists skk', s' !! k = Some skk' /\ j ∈ sk_children skk').
  { intros k skk j Hk Hc Hji. destruct (decide (k = i)) as [->|Hki].
    - exists ski'. assert (skk = ski) by congruence. subst skk. done.
    - destruct (decide (k = p)) as [->|Hkp].
      + exists skp'. assert (skk = skp) by congruence. subst skk. split; [done|].
        by apply removeOne_elem.
      + exists skk. by rewrite Lo. }
  (* what is listed now was listed before, and is not [i] *)
  assert (Was : forall k skk' j, s' !! k = Some skk' -> j ∈ sk_children skk' ->
            j <> i /\ exists skk, s !! k = Some skk /\ j ∈ sk_children skk).
  { intros k skk' j Hk Hc. destruct (decide (k = i)) as [->|Hki].
    - assert (skk' = ski') by congruence. subst skk'. split; [|by exists ski].
      intros ->. destruct (tree_child s T i ski i Hi Hc) as (x & Hx & Hpx).
      by apply (tree_not_self s i x T Hx).
    - destruct (decide (k = p)) as [->|Hkp].
      + assert (skk' = skp') by congruence. subst skk'.
        apply removeOne_elem in Hc as [Hc Hji]; [|done]. split; [done|by exists skp].
      + rewrite Lo in Hk by done. split; [|by exists skk'].
        intros ->. destruct (tree_child s T k skk' i Hk Hc) as (x & Hx & Hpx).
        congruence. }
  split.
  - intros j sk' k Hj Hpar. destruct (decide (j = i)) as [->|Hji].
    { assert (sk' = ski') by congruence. subst sk'. discriminate. }
    assert (exists sk, s !! j = Some sk /\ sk_parent sk = Some k) as (sk & Hsj & Hpj).
    { destruct (decide (j = p)) as [->|Hjp].
      - assert (sk' = skp') by congruence. subst sk'. by exists skp.
      - rewrite Lo in Hj by done. by exists sk'. }
    destruct (tree_parent s T j sk k Hsj Hpj) as (skk & Hk & Hc).
    by apply (Listed k skk j).
  - intros k skk' j Hk Hc.
    destruct (Was k skk' j Hk Hc) as (Hji & skk & Hsk & Hcs).
    destruct (tree_child s T k skk j Hsk Hcs) as (sk & Hj & Hpj).
    destruct (Keep j sk Hj Hji) as (sk' & Hj' & Hp' & _).
    exists sk'. split; [done|congruence].
  - intros j sk' Hj. destruct (decide (j = i)) as [->|Hji].
    { assert (sk' = ski') by congruence. by subst sk'. }
    destruct (decide (j = p)) as [->|Hjp].
    + assert (sk' = skp') by congruence. subst sk'. exact (tree_conn s T p skp Hsp).
    + rewrite Lo in Hj by done. by apply (tree_conn s T j).
  - intros k skk' Hk. destruct (decide (k = i)) as [->|Hki].
    { assert (skk' = ski') by congruence. subst skk'. exact (tree_nodup s T i ski Hi). }
    destruct (decide (k = p)) as [->|Hkp].
    + assert (skk' = skp') by congruence. subst skk'. by apply (removeOne_NoDup i (sk_children skp)).
    + rewrite Lo in Hk by done. by apply (tree_nodup s T k).
  - intros j Hj.
    assert (Hsj : is_Some (s !! j)).
    { destruct (decide (j = i)) as [->|Hji]; [by eexists|].
      destruct (decide (j = p)) as [->|Hjp]; [by eexists|]. by rewrite <- Lo. }
    pose proof (tree_anchored s T j Hsj) as A. clear Hj Hsj.
    induction A as [j sk Hs Hpj | j sk k Hs Hpj A IH].
    + destruct (decide (j = i)) as [->|Hji]; [by eapply anchored_root|].
      destruct (Keep j sk Hs Hji) as (sk' & Hj' & Hp' & _).
      eapply anchored_root; [exact Hj'|congruence].
    + destruct (decide (j = i)) as [->|Hji]; [by eapply anchored_root|].
      destruct (Keep j sk Hs Hji) as (sk' & Hj' & Hp' & _).
      eapply anchored_child; [exact Hj'| |exact IH]. congruence.
Qed.

Lemma avoids_detach (s : gmap nat Skeleton) (i p q : ItemId) :
  avoids s i q -> avoids (sk_detached i p s) i q.
Proof.
  intros A. unfold sk_detached.
  destruct (s !! i) as [ski|] eqn:Hi; [|done].
  destruct (s !! p) as [skp|] eqn:Hp; [|done].
  induction A as [j sk Hne Hs Hpj | j sk k Hne Hs Hpj A IH].
  - destruct (decide (j = p)) as [->|Hjp].
    + eapply avoids_root; [done| |].
      * rewrite lookup_insert_ne by done. apply lookup_insert_eq.
      * assert (sk = skp) by congruence. by subst sk.
    + eapply avoids_root; [done| |exact Hpj]. by rewrite !lookup_insert_ne.
  - destruct (decide (j = p)) as [->|Hjp].
    + eapply avoids_child; [done| | |exact IH].
      * rewrite lookup_insert_ne by done. apply lookup_insert_eq.
      * assert (sk = skp) by congruence. by subst sk.
    + eapply avoids_child; [done| |exact Hpj|exact IH]. by rewrite !lookup_insert_ne.
Qed.


(** The tree with the parentless [i] put below [q], which is not below
    [i]. *)
Lemma tree_attach_sk (s : gmap nat Skeleton) (i q : ItemId) (ski : Skeleton) :
  tree_sk s -> s !! i = Some ski -> sk_parent ski = None -> avoids s i q ->
  tree_sk (sk_attached i q s).
Proof.
  intros T Hi Hp Av.
  destruct (avoids_lookup s i q Av) as [Hne [skq Hsq]].
  assert (Hnl : forall k skk, s !! k = Some skk -> i ∉ sk_children skk).
  { intros k skk Hk Hc. destruct (tree_child s T k skk i Hk Hc) as (x & Hx & Hpx).
    congruence. }
  unfold sk_attached. rewrite Hi, Hsq.
  set (ski' := (Some q, sk_children ski, [q]) : Skeleton).
  set (skq' := (sk_parent skq, sk_children skq ++ [i], sk_connections skq) : Skeleton).
  set (s' := <[q := skq']> (<[i := ski']> s)).
  assert (Lq : s' !! q = Some skq') by apply lookup_insert_eq.
  assert (Li : s' !! i = Some ski').
  { unfold s'. rewrite lookup_insert_ne by done. apply lookup_insert_eq. }
  assert (Lo : forall j, j <> i -> j <> q -> s' !! j = s !! j).
  { intros j H1 H2. unfold s'. by rewrite !lookup_insert_ne. }
  assert (Keep : forall j sk, s !! j = Some sk -> j <> i ->
            exists sk', s' !! j = Some sk' /\ sk_parent sk' = sk_parent sk
                        /\ sk_connections sk' = sk_connections sk).
  { intros j sk Hj Hji. destruct (decide (j = q)) as [->|Hjq].
    - exists skq'. assert (sk = skq) by congruence. subst sk. done.
    - exists sk. by rewrite Lo. }
  assert (Listed : forall k skk j, s !! k = Some skk -> j ∈ sk_children skk ->
            exists skk', s' !! k = Some skk' /\ j ∈ sk_children skk').
  { intros k skk j Hk Hc. destruct (decide (k = i)) as [->|Hki].
    - exists ski'. assert (skk = ski) by congruence. subst skk. done.
    - destruct (decide (k = q)) as [->|Hkq].
      + exists skq'. assert (skk = skq) by congruence. subst skk. split; [done|].
        apply elem_of_app. by left.
      + exists skk. by rewrite Lo. }
  assert (Was : forall k skk' j, s' !! k = Some skk' -> j ∈ sk_children skk' ->
            (k = q /\ j = i) \/ (j <> i /\ exists skk, s !! k = Some skk /\ j ∈ sk_children skk)).
  { intros k skk' j Hk Hc. destruct (decide (k = i)) as [->|Hki].
    - assert (skk' = ski') by congruence. subst skk'. right.
      split; [|by exists ski]. intros ->. by apply (Hnl i ski).
    - destruct (decide (k = q)) as [->|Hkq].
      + assert (skk' = skq') by congruence. subst skk'.
        apply elem_of_app in Hc as [Hc|Hc].
        * right. split; [|by exists skq]. intros ->. by apply (Hnl q skq).
        * left. apply list_elem_of_singleton in Hc. done.
      + rewrite Lo in Hk by done. right. split; [|by exists skk'].
        intros ->. by apply (Hnl k skk'). }
  split.
  - intros j sk' k Hj Hpar. destruct (decide (j = i)) as [->|Hji].
    { assert (sk' = ski') by congruence. subst sk'.
      assert (k = q) by (cbv in Hpar; congruence). subst k.
      exists skq'. split; [done|]. apply elem_of_app. right. by apply list_elem_of_singleton. }
    assert (exists sk, s !! j = Some sk /\ sk_parent sk = Some k) as (sk & Hsj & Hpj).
    { destruct (decide (j = q)) as [->|Hjq].
      - assert (sk' = skq') by congruence. subst sk'. by exists skq.
      - rewrite Lo in Hj by done. by exists sk'. }
    destruct (tree_parent s T j sk k Hsj Hpj) as (skk & Hk & Hc).
    by apply (Listed k skk j).
  - intros k skk' j Hk Hc.
    destruct (Was k skk' j Hk Hc) as [[-> ->]|(Hji & skk & Hsk & Hcs)].
    { by exists ski'. }
    destruct (tree_child s T k skk j Hsk Hcs) as (sk & Hj & Hpj).
    destruct (Keep j sk Hj Hji) as (sk' & Hj' & Hp' & _).
    exists sk'. split; [done|congruence].
  - intros j sk' Hj. destruct (decide (j = i)) as [->|Hji].
    { assert (sk' = ski') by congruence. by subst sk'. }
    destruct (decide (j = q)) as [->|Hjq].
    + assert (sk' = skq') by congruence. subst sk'. exact (tree_conn s T q skq Hsq).
    + rewrite Lo in Hj by done. by apply (tree_conn s T j).
  - intros k skk' Hk. destruct (decide (k = i)) as [->|Hki].
    { assert (skk' = ski') by congruence. subst skk'. exact (tree_nodup s T i ski Hi). }
    destruct (decide (k = q)) as [->|Hkq].
    + assert (skk' = skq') by congruence. subst skk'.
      apply NoDup_app. split; [exact (tree_nodup s T q skq Hsq)|]. split.
      * intros x Hx Hx'. apply list_elem_of_singleton in Hx'. subst x. by apply (Hnl q skq).
      * apply NoDup_singleton.
    + rewrite Lo in Hk by done. by apply (tree_nodup s T k).
  - assert (Aq : forall j, avoids s i j -> anchored s' j).
    { intros j A. induction A as [j sk Hji Hs Hpj | j sk k Hji Hs Hpj A IH].
      - destruct (Keep j sk Hs Hji) as (sk' & Hj' & Hp' & _).
        eapply anchored_root; [exact Hj'|congruence].
      - destruct (Keep j sk Hs Hji) as (sk' & Hj' & Hp' & _).
        eapply anchored_child; [exact Hj'| |exact IH]. congruence. }
    assert (Ai : anchored s' i).
    { eapply anchored_child; [exact Li|reflexivity|by apply Aq]. }
    intros j Hj.
    assert (Hsj : is_Some (s !! j)).
    { destruct (decide (j = i)) as [->|Hji]; [by eexists|].
      destruct (decide (j = q)) as [->|Hjq]; [by eexists|]. by rewrite <- Lo. }
    pose proof (tree_anchored s T j Hsj) as A. clear Hj Hsj.
    induction A as [j sk Hs Hpj | j sk k Hs Hpj A IH].
    + destruct (decide (j = i)) as [->|Hji]; [done|].
      destruct (Keep j sk Hs Hji) as (sk' & Hj' & Hp' & _).
      eapply anchored_root; [exact Hj'|congruence].
    + destruct (decide (j = i)) as [->|Hji]; [done|].
      destruct (Keep j sk Hs Hji) as (sk' & Hj' & Hp' & _).
      eapply anchored_child; [exact Hj'| |exact IH]. congruence.
Qed.

End SkeletonFacts.

Section ReparentFacts.
Import Item.

Lemma conns_insert (h : Items) (i : ItemId) (it : Item) :
  conns (<[i := it]> h) = <[i := connections it]> (conns h).
Proof. apply fmap_insert. Qed.

Lemma links_reparent (h : Items) (i : ItemId) (x : Item) (y : option ItemId) :
  links h -> h !! i = Some x -> links (<[i := set_m_parentItem y x]> h).
Proof.
  intros L Hi k kt j Hk Hj.
  assert (exists kt0, h !! k = Some kt0 /\ m_childItems kt0 = m_childItems kt) as (kt0 & Hk0 & Ec).
  { destruct (decide (k = i)) as [->|Hne].
    - rewrite lookup_insert_eq in Hk. injection Hk as <-. by exists x.
    - rewrite lookup_insert_ne in Hk by done. by exists kt. }
  rewrite <- Ec in Hj. destruct (L k kt0 j Hk0 Hj) as (jt & Hjt & Cj).
  destruct (decide (j = i)) as [->|Hne].
  - exists (set_m_parentItem y x). rewrite lookup_insert_eq. split; [done|].
    assert (jt = x) by congruence. by subst jt.
  - exists jt. by rewrite lookup_insert_ne.
Qed.

(** [childrenBound] of an item that kept rectangle, children and bounding
    rectangle, in a store whose items kept their extents. *)
Lemma ok_frame (h h2 : Items) (jt jt0 : Item) (j : ItemId) :
  bounding_ok h ->
  (forall c, extent <$> h2 !! c = extent <$> h !! c) ->
  h !! j = Some jt0 ->
  rect jt = rect jt0 -> m_childItems jt = m_childItems jt0 ->
  boundingRect jt = boundingRect jt0 ->
  childrenBound h2 jt = Some (boundingRect jt).
Proof.
  intros B Hext Hj Hr Hc Hb. rewrite Hb, <- (B j jt0 Hj).
  apply childrenBound_ext; auto.
Qed.

Lemma set_parent_twice (x y : option ItemId) (it : Item) :
  set_m_parentItem x (set_m_parentItem y it) = set_m_parentItem x it.
Proof. by destruct it. Qed.

Lemma detach_settles (h : Items) (i p : ItemId) (it : Item) :
  tree h -> bounding_ok h -> h !! i = Some it -> m_parentItem it = Some p ->
  settles_to (fun h' => skeletons h' = sk_detached i p (skeletons h))
             (fun fuel => detach fuel i h).
Proof.
  intros T B Hi Hp.
  pose proof (skeletons_Some _ _ _ Hi) as Hsi.
  destruct (tree_parent _ T i _ p Hsi Hp) as (skp & Hsp & Hin).
  destruct (skeletons_inv _ _ _ Hsp) as (pt & Hpt & <-).
  assert (Hne : p <> i) by (intros ->; by apply (tree_not_self _ i _ T Hsi)).
  assert (Hcon : connections it = [p]).
  { pose proof (tree_conn _ T i _ Hsi) as C.
    unfold sk_connections, sk_parent, skeleton in C. simpl in C. by rewrite Hp in C. }
  set (pt' := set_m_childItems (removeOne i (m_childItems pt)) pt).
  set (h1 := <[p := pt']> h).
  set (it2 := set_connections [] it).
  set (h2 := <[i := it2]> h1).
  set (hd0 := <[i := set_m_parentItem None it2]> h1).
  assert (Skd : skeletons hd0 = sk_detached i p (skeletons h)).
  { unfold sk_detached, hd0, h1. rewrite Hsi, Hsp. by rewrite !skeletons_insert. }
  assert (Td : tree hd0).
  { unfold tree. rewrite Skd. by eapply tree_detach_sk. }
  assert (E2 : h2 = <[i := set_m_parentItem (Some p) (set_m_parentItem None it2)]> hd0).
  { unfold h2, hd0. rewrite insert_insert_eq, set_parent_twice. f_equal.
    unfold it2. destruct it; simpl in *; by subst. }
  assert (L2 : links h2).
  { rewrite E2. apply links_reparent; [by apply tree_links|apply lookup_insert_eq]. }
  assert (G2 : grounded (conns h2) p).
  { replace (conns h2) with (conns hd0).
    - apply tree_grounded; [done|]. unfold hd0, h1.
      rewrite lookup_insert_ne by done. rewrite lookup_insert_eq. by eexists.
    - unfold h2, hd0. by rewrite !conns_insert. }
  assert (Hext : forall c, extent <$> h2 !! c = extent <$> h !! c).
  { intros c. unfold h2, h1. destruct (decide (c = i)) as [->|Hci].
    - by rewrite lookup_insert_eq, Hi.
    - rewrite lookup_insert_ne by done. destruct (decide (c = p)) as [->|Hcp].
      + by rewrite lookup_insert_eq, Hpt.
      + by rewrite lookup_insert_ne. }
  assert (Ok2 : ok_except h2 p).
  { intros j jt Hjp Hj. unfold h2, h1 in Hj. destruct (decide (j = i)) as [->|Hji].
    - rewrite lookup_insert_eq in Hj. injection Hj as <-.
      by apply (ok_frame h h2 it2 it i).
    - rewrite !lookup_insert_ne in Hj by done. by apply (ok_frame h h2 jt jt j). }
  destruct (update_chain (conns h2) p G2 h2 eq_refl L2 Ok2) as (h3 & B3 & S3 & n & Hn).
  assert (Hi2 : h2 !! i = Some it2) by apply lookup_insert_eq.
  destruct (same_skel_lookup _ _ _ _ S3 Hi2) as (it1 & Hi3 & Sk1).
  exists (<[i := set_m_parentItem None it1]> h3).
  assert (Sk' : skeletons (<[i := set_m_parentItem None it1]> h3)
                = sk_detached i p (skeletons h)).
  { rewrite skeletons_insert, <- S3, <- Skd. unfold h2, hd0.
    rewrite !skeletons_insert, insert_insert_eq. f_equal.
    unfold skeleton in *. simpl in *. congruence. }
  split; [exact Sk'|]. split; [|split].
  - unfold tree. rewrite Sk'. by eapply tree_detach_sk.
  - by apply (bounding_ok_rewrite h3 i it1).
  - exists n. intros fuel Hf. unfold detach. rewrite Hi. simpl. rewrite Hp.
    unfold removeChild. rewrite Hpt. simpl.
    unfold containsItem. rewrite bool_decide_eq_true_2 by done. simpl.
    rewrite Hi. simpl. fold pt'. fold h1.
    replace (h1 !! i) with (Some it) by (unfold h1; by rewrite lookup_insert_ne).
    simpl. rewrite Hcon.
    replace (filter (fun q => q <> p) [p]) with (@nil nat).
    2:{ rewrite filter_cons, decide_False by (intros H; by apply H). reflexivity. }
    fold it2. fold h2. rewrite (Hn fuel Hf). simpl. by rewrite Hi3.
Qed.

Lemma attach_settles (h : Items) (i q : ItemId) (it : Item) :
  tree h -> bounding_ok h -> h !! i = Some it -> m_parentItem it = None ->
  avoids (skeletons h) i q ->
  settles_to (fun h' => skeletons h' = sk_attached i q (skeletons h))
             (fun fuel => attach fuel i q h).
Proof.
  intros T B Hi Hp Av.
  pose proof (skeletons_Some _ _ _ Hi) as Hsi.
  destruct (avoids_lookup _ _ _ Av) as [Hne [skq Hsq]].
  destruct (skeletons_inv _ _ _ Hsq) as (qt & Hqt & <-).
  assert (Hcon : connections it = []).
  { pose proof (tree_conn _ T i _ Hsi) as C.
    unfold sk_connections, sk_parent, skeleton in C. simpl in C. by rewrite Hp in C. }
  assert (Hnin : i ∉ m_childItems qt).
  { intros Hc. destruct (tree_child _ T q _ i Hsq Hc) as (x & Hx & Hpx).
    rewrite Hsi in Hx. injection Hx as <-. unfold sk_parent, skeleton in Hpx.
    simpl in Hpx. congruence. }
  set (ita := set_m_parentItem (Some q) it).
  set (ha := <[i := ita]> h).
  set (it1 := set_connections [q] ita).
  set (h1 := <[i := it1]> ha).
  set (qt' := set_m_childItems (m_childItems qt ++ [i]) qt).
  set (h2 := <[q := qt']> h1).
  assert (Sk2 : skeletons h2 = sk_attached i q (skeletons h)).
  { unfold sk_attached, h2, h1, ha. rewrite Hsi, Hsq.
    by rewrite !skeletons_insert, insert_insert_eq. }
  assert (T2 : tree h2).
  { unfold tree. rewrite Sk2. by eapply tree_attach_sk. }
  assert (Hext : forall c, extent <$> h2 !! c = extent <$> h !! c).
  { intros c. unfold h2, h1, ha. destruct (decide (c = q)) as [->|Hcq].
    - by rewrite lookup_insert_eq, Hqt.
    - rewrite lookup_insert_ne by done. destruct (decide (c = i)) as [->|Hci].
      + by rewrite lookup_insert_eq, Hi.
      + by rewrite !lookup_insert_ne. }
  assert (Ok2 : ok_except h2 q).
  { intros j jt Hjq Hj. unfold h2, h1, ha in Hj.
    rewrite lookup_insert_ne in Hj by done.
    destruct (decide (j = i)) as [->|Hji].
    - rewrite lookup_insert_eq in Hj. injection Hj as <-.
      by apply (ok_frame h h2 it1 it i).
    - rewrite !lookup_insert_ne in Hj by done. by apply (ok_frame h h2 jt jt j). }
  destruct (update_chain (conns h2) q) with (h0 := h2) as (h3 & B3 & S3 & n & Hn);
    [|done|by apply tree_links|done|].
  { apply tree_grounded; [done|]. unfold h2. rewrite lookup_insert_eq. by eexists. }
  exists h3. split; [by rewrite <- S3|]. split; [by eapply tree_same_skel|]. split; [done|].
  exists n. intros fuel Hf. unfold attach. rewrite Hi. simpl. fold ita. fold ha.
  unfold addChild.
  replace (ha !! q) with (Some qt) by (unfold ha; by rewrite lookup_insert_ne).
  simpl. unfold containsItem. rewrite bool_decide_eq_false_2 by done. simpl.
  replace (ha !! i) with (Some ita) by (unfold ha; by rewrite lookup_insert_eq).
  simpl. rewrite Hcon. simpl. fold it1. fold h1.
  replace (h1 !! q) with (Some qt) by (unfold h1, ha; by rewrite !lookup_insert_ne).
  simpl. fold qt'. fold h2. by apply Hn.
Qed.

End ReparentFacts.

Section OperationFacts.
Import Item.

Lemma setParentItem_split (fuel : nat) (i : ItemId) (item : option ItemId) (h : Items)
  (it : Item) :
  h !! i = Some it -> m_parentItem it <> item ->
  setParentItem fuel i item h
  = (hd ← detach fuel i h;
     match item with Some q => attach fuel i q hd | None => Some hd end).
Proof.
  intros Hi Hne. unfold setParentItem, detach. rewrite Hi. simpl.
  rewrite decide_False by done.
  destruct (m_parentItem it) as [p|] eqn:Hp; simpl.
  - destruct (removeChild fuel p i h) as [h1|]; simpl; [|done].
    destruct (h1 !! i) as [it1|]; simpl; [|done].
    destruct item as [q|]; [|done].
    unfold attach. rewrite lookup_insert_eq. simpl.
    by rewrite insert_insert_eq, set_parent_twice.
  - rewrite Hi. simpl. destruct item as [q|]; [|done].
    unfold attach. by rewrite Hi.
Qed.

Lemma setParentItem_settles (h : Items) (i : ItemId) (item : option ItemId) :
  tree h -> bounding_ok h -> is_Some (h !! i) ->
  match item with Some q => avoids (skeletons h) i q | None => True end ->
  settles_to (fun _ => True) (fun fuel => setParentItem fuel i item h).
Proof.
  intros T B [it Hi] Av.
  destruct (decide (m_parentItem it = item)) as [E|Hne].
  { eapply settles_ext; [|by apply (settles_now _ h)].
    intros fuel. unfold setParentItem. rewrite Hi. simpl. by rewrite decide_True. }
  eapply settles_ext; [intros fuel; symmetry; by apply (setParentItem_split fuel i item h it)|].
  apply (settles_bind
           (fun h' => exists it', h' !! i = Some it' /\ m_parentItem it' = None
                      /\ forall q, avoids (skeletons h) i q -> avoids (skeletons h') i q)).
  - destruct (m_parentItem it) as [p|] eqn:Hp.
    + eapply settles_weaken; [|by apply (detach_settles h i p it)].
      intros h' Sk.
      pose proof (skeletons_Some _ _ _ Hi) as Hsi.
      destruct (tree_parent _ T i _ p Hsi Hp) as (skp & Hsp & _).
      assert (Hl : skeletons h' !! i = Some (None, m_childItems it, [])).
      { rewrite Sk. unfold sk_detached. rewrite Hsi, Hsp. by rewrite lookup_insert_eq. }
      destruct (skeletons_inv _ _ _ Hl) as (it' & Hi' & Ske).
      exists it'. split; [done|]. split; [unfold skeleton in Ske; congruence|].
      intros q A. rewrite Sk. by apply avoids_detach.
    + eapply settles_ext; [|apply (settles_now _ h); try done].
      * intros fuel. unfold detach. rewrite Hi. simpl. by rewrite Hp.
      * exists it. auto.
  - intros h' (it' & Hi' & Hp' & Av') T' B'.
    destruct item as [q|].
    + eapply settles_weaken; [|by apply (attach_settles h' i q it'); auto]. done.
    + by apply settles_now.
Qed.

Lemma newItem_settles (h : Items) (i : ItemId) (parent : option ItemId) :
  tree h -> bounding_ok h -> h !! i = None ->
  match parent with Some q => is_Some (h !! q) | None => True end ->
  settles_to (fun _ => True) (fun fuel => newItem fuel i parent h).
Proof.
  intros T B Hi Hq.
  assert (Hsi : skeletons h !! i = None) by (unfold skeletons; by rewrite lookup_fmap, Hi).
  set (h0 := <[i := new_item]> h).
  assert (Sk0 : skeletons h0 = <[i := (None, [], [])]> (skeletons h))
    by apply skeletons_insert.
  assert (T0 : tree h0).
  { unfold tree. rewrite Sk0. by apply tree_fresh_sk. }
  assert (B0 : bounding_ok h0).
  { intros j jt Hj. unfold h0 in Hj. destruct (decide (j = i)) as [->|Hne].
    - rewrite lookup_insert_eq in Hj. by injection Hj as <-.
    - rewrite lookup_insert_ne in Hj by done. rewrite <- (B j jt Hj).
      apply childrenBound_ext; try done.
      intros c Hc. unfold h0. rewrite lookup_insert_ne; [done|]. intros Heq.
      destruct (tree_links h T j jt c Hj Hc) as (x & Hx & _). congruence. }
  eapply settles_ext.
  { intros fuel. unfold newItem. rewrite Hi. reflexivity. }
  apply setParentItem_settles; try done.
  - unfold h0. rewrite lookup_insert_eq. by eexists.
  - destruct parent as [q|]; [|done]. rewrite skeletons_insert. apply avoids_fresh; [done|].
    apply (tree_anchored _ T). destruct Hq as [qt Hqt].
    rewrite (skeletons_Some _ _ _ Hqt). by eexists.
Qed.

Lemma apply_settles (h : Items) (op : Op) :
  tree h -> bounding_ok h -> op_ok h op ->
  settles_to (fun _ => True) (fun fuel => apply fuel op h).
Proof.
  intros T B Ok.
  destruct op as [i x|i y|i p|i w|i w|i s|i w|i w|i s|i item|i parent]; simpl in *.
  - eapply settles_weaken; [|by apply setX_settles]. done.
  - eapply settles_weaken; [|by apply setY_settles]. done.
  - eapply settles_weaken; [|by apply setPosition_settles]. done.
  - eapply settles_weaken; [|by apply setWidth_settles]. done.
  - eapply settles_weaken; [|by apply setHeight_settles]. done.
  - eapply settles_weaken; [|by apply setSize_settles]. done.
  - eapply settles_weaken; [|by apply setImplicitWidth_settles]. done.
  - eapply settles_weaken; [|by apply setImplicitHeight_settles]. done.
  - eapply settles_weaken; [|by apply setImplicitSize_settles]. done.
  - destruct item as [q|].
    + destruct Ok as [Hi Av]. by apply setParentItem_settles.
    + by apply setParentItem_settles.
  - destruct parent as [q|].
    + destruct Ok as [Hi Hq]. by apply newItem_settles.
    + by apply newItem_settles.
Qed.

(** More fuel changes no result. *)
Lemma cascade_none (f : ItemId -> Items -> option Items) (l : list ItemId) :
  foldl (fun acc p => h' ← acc; f p h') None l = None.
Proof. induction l as [|p l IH]; [done|]. cbn [foldl]. simpl. exact IH. Qed.

Lemma cascade_mono (f g : ItemId -> Items -> option Items) (l : list ItemId) :
  (forall p h h', f p h = Some h' -> g p h = Some h') ->
  forall acc h', foldl (fun acc p => h' ← acc; f p h') acc l = Some h' ->
                 foldl (fun acc p => h' ← acc; g p h') acc l = Some h'.
Proof.
  intros Hfg. induction l as [|p l IH]; intros acc h' H; [done|].
  cbn [foldl] in *. destruct acc as [h0|]; simpl in *.
  - destruct (f p h0) as [h1|] eqn:E.
    + rewrite (Hfg p h0 h1 E). by apply IH.
    + by rewrite cascade_none in H.
  - by rewrite cascade_none in H.
Qed.

Lemma updateBoundingRect_mono (fuel fuel' : nat) (i : ItemId) (h h' : Items) :
  (fuel <= fuel')%nat ->
  updateBoundingRect fuel i h = Some h' -> updateBoundingRect fuel' i h = Some h'.
Proof.
  revert fuel' i h h'. induction fuel as [|fuel IH]; intros fuel' i h h' Hle H; [done|].
  destruct fuel' as [|fuel']; [lia|]. cbn [updateBoundingRect] in *.
  destruct (h !! i) as [it|]; simpl in *; [|done].
  destruct (childrenBound h it) as [br|]; simpl in *; [|done].
  destruct (rect_eqb (m_boundingRect it) br); [done|].
  revert H. apply cascade_mono. intros p h0 h1. apply IH. lia.
Qed.

Lemma emit_moved_mono (fuel fuel' : nat) (i : ItemId) (h h' : Items) :
  (fuel <= fuel')%nat ->
  emit_moved fuel i h = Some h' -> emit_moved fuel' i h = Some h'.
Proof.
  intros Hle. unfold emit_moved. destruct (h !! i) as [it|]; simpl; [|done].
  apply cascade_mono. intros p h0 h1. by apply updateBoundingRect_mono.
Qed.

Lemma setParentItem_mono (fuel fuel' : nat) (i : ItemId) (item : option ItemId)
  (h h' : Items) :
  (fuel <= fuel')%nat ->
  setParentItem fuel i item h = Some h' -> setParentItem fuel' i item h = Some h'.
Proof.
  intros Hle. unfold setParentItem. destruct (h !! i) as [it|]; simpl; [|done].
  destruct (decide (m_parentItem it = item)); [done|].
  assert (R : forall p h1, removeChild fuel p i h = Some h1 ->
                           removeChild fuel' p i h = Some h1).
  { intros p h1. unfold removeChild. destruct (h !! p) as [pt|]; simpl; [|done].
    destruct (negb _); [done|]. destruct (h !! i); simpl; [|done].
    destruct (_ !! i); simpl; [|done]. by apply updateBoundingRect_mono. }
  assert (A : forall q h0 h1, addChild fuel q i h0 = Some h1 ->
                              addChild fuel' q i h0 = Some h1).
  { intros q h0 h1. unfold addChild. destruct (h0 !! q) as [qt|]; simpl; [|done].
    destruct (containsItem _ _); [done|]. destruct (h0 !! i); simpl; [|done].
    destruct (_ !! q); simpl; [|done]. by apply updateBoundingRect_mono. }
  destruct (m_parentItem it) as [p|].
  - destruct (removeChild fuel p i h) as [h1|] eqn:E; simpl; [|done].
    rewrite (R p h1 E). simpl. destruct (h1 !! i); simpl; [|done].
    destruct item; [apply A|done].
  - simpl. destruct (h !! i); simpl; [|done]. destruct item; [apply A|done].
Qed.

Lemma apply_mono (fuel fuel' : nat) (op : Op) (h h' : Items) :
  (fuel <= fuel')%nat -> apply fuel op h = Some h' -> apply fuel' op h = Some h'.
Proof.
  intros Hle.
  pose proof (fun i h h' => updateBoundingRect_mono fuel fuel' i h h' Hle) as U.
  pose proof (fun i h h' => emit_moved_mono fuel fuel' i h h' Hle) as E.
  destruct op as [i x|i y|i p|i w|i w|i s|i w|i w|i s|i item|i parent]; simpl.
  - unfold setX. destruct (h !! i); simpl; [|done]. destruct (_ =? _); auto.
  - unfold setY. destruct (h !! i); simpl; [|done]. destruct (_ =? _); auto.
  - unfold setPosition. destruct (h !! i) as [it|]; simpl; [|done].
    destruct (negb (m_x it =? px p)), (negb (m_y it =? py p)); simpl; auto.
    + destruct (emit_moved fuel i _) as [h2|] eqn:E2; simpl; [|done].
      rewrite (E _ _ _ E2). simpl. apply E.
    + destruct (emit_moved fuel i _) as [h2|] eqn:E2; simpl; [|done].
      by rewrite (E _ _ _ E2).
  - unfold setWidth. destruct (h !! i); simpl; [|done]. destruct (_ && _); auto.
  - unfold setHeight. destruct (h !! i); simpl; [|done]. destruct (_ && _); auto.
  - unfold setSize. destruct (h !! i); simpl; [|done]. destruct (_ || _); auto.
  - unfold setImplicitWidth. destruct (h !! i) as [it|]; simpl; [|done].
    destruct (_ =? _); auto. destruct (m_widthValid it); auto.
  - unfold setImplicitHeight. destruct (h !! i) as [it|]; simpl; [|done].
    destruct (_ =? _); auto. destruct (m_heightValid it); auto.
  - unfold setImplicitSize. destruct (h !! i); simpl; [|done]. destruct (_ || _); auto.
  - by apply setParentItem_mono.
  - unfold newItem. destruct (h !! i); [done|]. by apply setParentItem_mono.
Qed.

Lemma apply_deterministic (f1 f2 : nat) (op : Op) (h h1 h2 : Items) :
  apply f1 op h = Some h1 -> apply f2 op h = Some h2 -> h1 = h2.
Proof.
  intros H1 H2.
  apply (apply_mono f1 (f1 `max` f2)) in H1; [|lia].
  apply (apply_mono f2 (f1 `max` f2)) in H2; [|lia]. congruence.
Qed.

Lemma ops_ok_cons (n : nat) (op : Op) (rest : list Op) (h h1 : Items) :
  op_ok h op -> apply n op h = Some h1 -> ops_ok h1 rest -> ops_ok h (op :: rest).
Proof.
  intros Ok H1 Hrest. split; [done|]. intros fuel h' H'.
  by rewrite (apply_deterministic fuel n op h h' h1 H' H1).
Qed.

Lemma run_settles (ops : list Op) (h : Items) :
  tree h -> bounding_ok h -> ops_ok h ops ->
  settles_to (fun _ => True) (fun fuel => run fuel ops h).
Proof.
  revert h. induction ops as [|op ops IH]; intros h T B Ok.
  - by apply settles_now.
  - destruct Ok as [Ok Hrest]. cbn [run].
    apply (settles_bind (fun h' => ops_ok h' ops)).
    + destruct (apply_settles h op T B Ok) as (h1 & _ & T1 & B1 & n & Hn).
      exists h1. split; [|split; [done|split; [done|by exists n]]].
      apply (Hrest n). by apply Hn.
    + intros h1 Ok1 T1 B1. by apply IH.
Qed.

Lemma tree_empty : tree ∅.
Proof.
  unfold tree, skeletons. rewrite fmap_empty.
  split; try (intros *; rewrite lookup_empty; intros [=]).
  intros j [x Hx]. by rewrite lookup_empty in Hx.
Qed.

Lemma bounding_ok_empty : bounding_ok ∅.
Proof. intros i it H. by rewrite lookup_empty in H. Qed.

(** C6. From an item tree in which every bounding rectangle is right, any
    finite sequence of geometry changes ([setX], [setY], [setPosition],
    [setWidth], [setHeight], [setSize], [setImplicitWidth],
    [setImplicitHeight], [setImplicitSize]), re-parentings
    ([setParentItem], which removes the child from the old and adds it to
    the new parent) and constructions comes to an end, given enough fuel
    for the signal cascades, and leaves a tree in which every item's
    [boundingRect()] is its own [rect()] united with every child's
    [boundingRect()] translated by that child's [position()]. *)
Theorem boundingRect_invariant (h : Items) (ops : list Op) :
  tree h -> bounding_ok h -> ops_ok h ops ->
  exists h', tree h' /\ bounding_ok h'
    /\ exists n, forall fuel, (n <= fuel)%nat -> run fuel ops h = Some h'.
Proof.
  intros T B Ok. destruct (run_settles ops h T B Ok) as (h' & _ & T' & B' & n & Hn).
  exists h'. split; [done|]. split; [done|]. by exists n.
Qed.

Lemma example_ops_ok : ops_ok ∅ example_ops.
Proof.
  unfold example_ops.
  eapply (ops_ok_cons 5); [reflexivity | vm_compute; reflexivity |].
  eapply (ops_ok_cons 5);
    [split; [reflexivity|eexists; vm_compute; reflexivity] | vm_compute; reflexivity |].
  eapply (ops_ok_cons 5);
    [split; [reflexivity|eexists; vm_compute; reflexivity] | vm_compute; reflexivity |].
  eapply (ops_ok_cons 5); [eexists; vm_compute; reflexivity | vm_compute; reflexivity |].
  eapply (ops_ok_cons 5); [eexists; vm_compute; reflexivity | vm_compute; reflexivity |].
  eapply (ops_ok_cons 5); [eexists; vm_compute; reflexivity | vm_compute; reflexivity |].
  eapply (ops_ok_cons 5); [split; [eexists; vm_compute; reflexivity|] | vm_compute; reflexivity |].
  { eapply avoids_child; [discriminate| vm_compute; reflexivity | reflexivity |].
    eapply avoids_root; [discriminate| vm_compute; reflexivity | reflexivity]. }
  exact I.
Defined.

Lemma boundingRect_invariant_witness :
  exists h', tree h' /\ bounding_ok h'
    /\ exists n, forall fuel, (n <= fuel)%nat -> run fuel example_ops ∅ = Some h'.
Proof.
  apply (boundingRect_invariant ∅ example_ops tree_empty bounding_ok_empty example_ops_ok).
Defined.

(** The example, run: the surface has moved below the decoration, and the
    window item bounds both. *)
Example example_ops_run :
  (fun h => (m_boundingRect <$> h !! 0%nat, m_boundingRect <$> h !! 2%nat,
             m_childItems <$> h !! 0%nat, m_childItems <$> h !! 2%nat))
    <$> run 5 example_ops ∅
  = Some (Some (mkRect 0 0 807 633), Some (mkRect 0 0 807 633),
          Some [2%nat], Some [1%nat]).
Proof. vm_compute. reflexivity. Qed.

(** [resetWidth] is not among the operations above: it clears
    [m_widthValid] and then calls [setImplicitWidth] with the implicit
    width the item already has, which returns at once, so the bounding
    rectangle keeps the explicit width. *)
Example resetWidth_keeps_stale_bound :
  (fun h => (width <$> h !! 1%nat, m_boundingRect <$> h !! 1%nat))
    <$> (h ← run 5 example_ops ∅; h1 ← setWidth 5 1%nat 1000 h; resetWidth 5 1%nat h1)
  = Some (Some 0, Some (mkRect 0 0 999 599)).
Proof. vm_compute. reflexivity. Qed.

End OperationFacts.

Section StackingFacts.
Import Item.

(** What the guards of [stackChildren] do reject: a list of another
    length leaves the children as they are, and a build with assertions
    stops at an item that is not a child. *)
Lemma stackChildren_guards (debug : bool) (h : Items) (i : ItemId) (it : Item)
  (children : list ItemId) :
  h !! i = Some it ->
  (length children <> length (m_childItems it) ->
   stackChildren debug i children h = Some h)
  /\ (length children = length (m_childItems it) ->
      (exists c, c ∈ children /\ (m_parentItem <$> h !! c) <> Some (Some i)) ->
      stackChildren true i children h = None).
Proof.
  intros Hi. unfold stackChildren. rewrite Hi. simpl. split.
  - intros Hl. destruct (Nat.eqb_spec (length (m_childItems it)) (length children));
      [congruence|reflexivity].
  - intros Hl (c & Hc & Hp).
    destruct (Nat.eqb_spec (length (m_childItems it)) (length children)); [|congruence].
    simpl.
    assert (E : forallb (fun c => match h !! c with
                                  | Some ct => bool_decide (m_parentItem ct = Some i)
                                  | None => false
                                  end) children = false).
    { apply not_true_is_false. intros Hall. rewrite forallb_forall in Hall.
      specialize (Hall c ltac:(by apply list_elem_of_In)).
      destruct (h !! c) as [ct|]; [|done]. apply bool_decide_eq_true in Hall.
      apply Hp. simpl. congruence. }
    by rewrite E.
Qed.

(** C10. A window item has the children 1 and 2.  [stackChildren] is given
    the list [1; 1], which has the right length and names children only but
    is no permutation of the children: with and without assertions it is
    installed as the new child list, and child 2 is gone from it. *)
Theorem stackChildren_installs_non_permutation :
  exists h, run 5 stack_example_ops ∅ = Some h
    /\ childItems h 0%nat = Some [1%nat; 2%nat]
    /\ ~ ([1%nat; 1%nat] ≡ₚ [1%nat; 2%nat])
    /\ (exists h', stackChildren true 0%nat [1%nat; 1%nat] h = Some h'
          /\ childItems h' 0%nat = Some [1%nat; 1%nat])
    /\ (exists h', stackChildren false 0%nat [1%nat; 1%nat] h = Some h'
          /\ childItems h' 0%nat = Some [1%nat; 1%nat]).
Proof.
  eexists. split; [vm_compute; reflexivity|].
  split; [vm_compute; reflexivity|]. split.
  - intros P. assert (H : 2%nat ∈ [1%nat; 1%nat]).
    { rewrite P. apply elem_of_cons. right. apply elem_of_cons. by left. }
    apply elem_of_cons in H as [H|H]; [done|].
    apply elem_of_cons in H as [H|H]; [done|]. by apply elem_of_nil in H.
  - split; eexists; (split; [vm_compute; reflexivity|vm_compute; reflexivity]).
Qed.

End StackingFacts.

(* --------------------------------------------------------------------- *)
(** ** Occlusion culling in the scene                                      *)
(* --------------------------------------------------------------------- *)

Section SceneFacts.
Import Scene.

(** A region without points is covered by every region, and covers only
    such regions. *)
Lemma covers_empty (a b : QRegion) : isEmpty b = true -> covers a b.
Proof. intros E x y H. rewrite isEmpty_contains in E. congruence. Qed.

Lemma covered_by_empty (a b : QRegion) : isEmpty a = true -> covers a b -> isEmpty b = true.
Proof.
  intros E H. apply isEmpty_contains. intros x y.
  destruct (contains b x y) eqn:Eb; [|reflexivity].
  rewrite isEmpty_contains in E. specialize (H x y Eb). congruence.
Qed.

(** Subtracting a region that covers the whole of [a] leaves nothing. *)
Lemma subtracted_all (a b c : QRegion) :
  covers c a -> covers b c -> isEmpty (subtracted a b) = true.
Proof.
  intros Ha Hb. apply isEmpty_contains. intros x y. rewrite contains_subtracted.
  destruct (contains a x y) eqn:E; [|reflexivity].
  by rewrite (Hb x y (Ha x y E)).
Qed.

Lemma covers_united_both (a b c : QRegion) : covers c a -> covers c b -> covers c (united a b).
Proof.
  intros Ha Hb x y. rewrite contains_united, orb_true_iff. intros [H|H]; auto.
Qed.

Lemma covers_eqb (a b : QRegion) : region_eqb a b = true -> covers b a.
Proof. intros E x y H. rewrite region_eqb_contains in E. by rewrite <- E. Qed.

(** The first loop adds the entry of the last window of the stack after
    those of the windows below it. *)
Lemma first_pass_app (m : Z) (r : QRegion) (s : QSize) (l1 l2 : list Window) :
  forall i acc,
    first_pass m r s i (l1 ++ l2) acc
    = first_pass m r s (i + length l1) l2 (first_pass m r s i l1 acc).
Proof.
  induction l1 as [|w l1 IH]; intros i acc.
  - simpl. by rewrite Nat.add_0_r.
  - destruct acc as [[p2 dirty] ofs]. cbn [app first_pass length].
    destruct (prepaint_data m r s w) as [data ofs']. rewrite IH.
    by replace (S i + length l1)%nat with (i + S (length l1))%nat by lia.
Qed.

(** The dirty area and the entries of the first loop stay within [D] when
    the damage and the paint regions of the windows do. *)
Lemma first_pass_within (D : QRegion) (m : Z) (r : QRegion) (s : QSize) (l : list Window) :
  Forall (fun w => isPaintingEnabled w = true -> covers D (paint (prepaint_data m r s w).1)) l ->
  forall i acc,
    Forall (fun d => covers D (region d)) acc.1.1 -> covers D acc.1.2 ->
    Forall (fun d => covers D (region d)) (first_pass m r s i l acc).1.1
    /\ covers D (first_pass m r s i l acc).1.2.
Proof.
  induction 1 as [|w l Hw Hl IH]; intros i [[p2 dirty] ofs] Hp Hd.
  - by split.
  - cbn [first_pass]. destruct (prepaint_data m r s w) as [data ofs'] eqn:E.
    simpl in Hw. destruct (isPaintingEnabled w).
    + apply IH; simpl in *.
      * apply Forall_app. split; [done|]. constructor; [|constructor]. by apply Hw.
      * apply covers_united_both; [done|]. by apply Hw.
    + by apply IH.
Qed.

(** Once [allclips] covers [D], no region settled by the occlusion loop
    reaches into [D], and [allclips] goes on covering it. *)
Lemma occlusion_pass_covered (full : bool) (disp D : QRegion) (l : list Phase2Data) :
  forall st, covers st.1 D ->
    Forall (fun d => isEmpty (intersected (region d) D) = true) (occlusion_pass full disp l st).1
    /\ covers (occlusion_pass full disp l st).2.1 D.
Proof.
  induction l as [|d l IH]; intros [clips utd] H.
  - by split.
  - cbn [occlusion_pass]. destruct (occlude full disp d (clips, utd)) as [d' st1] eqn:E.
    assert (Hd : isEmpty (intersected (region d') D) = true /\ covers st1.1 D).
    { unfold occlude in E.
      destruct (negb (isEmpty (p2clip d)) && negb (has_flag (p2mask d) PAINT_WINDOW_TRANSLUCENT));
        injection E as <- <-; simpl; (split; [by apply subtracted_misses|]); simpl in H;
        [by apply covers_united_l | done]. }
    destruct Hd as [Hd Hst]. specialize (IH st1 Hst).
    destruct (occlusion_pass full disp l st1) as [below st2]. simpl in *.
    destruct IH as [IH1 IH2]. split; [|done].
    apply Forall_app. split; [done|]. by constructor.
Qed.

(** Once [allclips] covers the output rectangle, every region settled by
    the occlusion loop is empty on a full repaint, and also when the
    regions of the entries and the translucent damage lie within the
    output rectangle. *)
Lemma occlusion_pass_empty (full : bool) (disp : QRegion) (l : list Phase2Data) :
  forall st, covers st.1 disp ->
    full = true \/ (covers disp st.2 /\ Forall (fun d => covers disp (region d)) l) ->
    Forall (fun d => isEmpty (region d) = true) (occlusion_pass full disp l st).1.
Proof.
  induction l as [|d l IH]; intros [clips utd] H Hin.
  - constructor.
  - cbn [occlusion_pass]. destruct (occlude full disp d (clips, utd)) as [d' st1] eqn:E.
    simpl in H.
    assert (Hr : isEmpty (subtracted
                   (if full then disp else united (region d) utd) clips) = true).
    { apply subtracted_all with disp; [|done].
      destruct Hin as [->|[Hu Hl]]; [by intros x y|].
      destruct full; [by intros x y|].
      apply covers_united_both; [|done]. by inversion Hl. }
    assert (Hd : isEmpty (region d') = true /\ covers st1.1 disp
                 /\ (full = true \/ (covers disp st1.2 /\ Forall (fun d => covers disp (region d)) l))).
    { unfold occlude in E.
      assert (Hl : full = true \/ Forall (fun d => covers disp (region d)) l
                                  /\ covers disp utd).
      { destruct Hin as [->|[Hu Hl]]; [by left|right]. split; [by inversion Hl|done]. }
      destruct (negb (isEmpty (p2clip d)) && negb (has_flag (p2mask d) PAINT_WINDOW_TRANSLUCENT));
        injection E as <- <-; simpl; (split; [done|]); (split; [by auto using covers_united_l|]);
        (destruct Hl as [->|[Hl Hu]]; [by left|right]); (split; [|done]);
        (destruct full; simpl; [done|]); (apply covers_united_both; [done|]);
        apply covers_empty.
      - apply covered_by_empty with (subtracted (united (region d) utd) clips); [done|].
        intros x y. rewrite contains_subtracted. by intros [? _]%andb_true_iff.
      - done. }
    destruct Hd as (Hd & Hst & Hin'). specialize (IH st1 Hst Hin').
    destruct (occlusion_pass full disp l st1) as [below st2]. simpl in *.
    apply Forall_app. split; [done|]. by constructor.
Qed.

(** The loop keeps the windows of the entries, in the order of the
    stack. *)
Lemma occlusion_pass_windows (full : bool) (disp : QRegion) (l : list Phase2Data) :
  forall st, map window (occlusion_pass full disp l st).1 = rev (map window l).
Proof.
  induction l as [|d l IH]; intros [clips utd]; [reflexivity|].
  cbn [occlusion_pass]. destruct (occlude full disp d (clips, utd)) as [d' st1] eqn:E.
  assert (window d' = window d).
  { unfold occlude in E.
    by destruct (negb (isEmpty (p2clip d)) && negb (has_flag (p2mask d) PAINT_WINDOW_TRANSLUCENT));
      injection E as <- _. }
  specialize (IH st1). destruct (occlusion_pass full disp l st1) as [below st2]. simpl in *.
  rewrite map_app, IH. simpl. congruence.
Qed.


(** Membership in a region built from unions and differences, decided
    point by point from the inclusions at hand. *)
Ltac region_points :=
  let x := fresh "x" in let y := fresh "y" in let H := fresh "H" in
  intros x y H; simpl in H;
  repeat (rewrite contains_subtracted in H || rewrite contains_united in H);
  repeat match goal with
         | Hc : covers _ _ |- _ => specialize (Hc x y)
         end;
  repeat match goal with
         | Hc : contains ?a x y = true -> _ |- _ =>
           destruct (contains a x y); [specialize (Hc eq_refl)|clear Hc]
         end;
  simpl in *; congruence.

Lemma first_pass_last (m : Z) (r : QRegion) (s : QSize) (below : list Window) (top : Window) :
  isPaintingEnabled top = true ->
  let data := (prepaint_data m r s top).1 in
  (first_pass m r s 0 (below ++ [top]) ([], r, false)).1.1
  = (first_pass m r s 0 below ([], r, false)).1.1
      ++ [mkPhase2 (length below) (paint data) (clip data) (mask data)].
Proof.
  intros He data. rewrite first_pass_app.
  destruct (first_pass m r s 0 below ([], r, false)) as [[p2 dirty] ofs].
  cbn [first_pass]. subst data.
  destruct (prepaint_data m r s top) as [data ofs']. by rewrite He.
Qed.

(** The counterexample to C1 as it was stated: on a non-full repaint the
    window below an opaque window covering the screen keeps the part of its
    pending repaint that lies left of the screen, and so does the
    background fill. *)
Lemma occlusion_leaves_offscreen_region :
  let p := paintSimpleScreen scene_offscreen PAINT_SCREEN_REGION (QRegion_xywh 0 0 10 10) in
  covers (clip (prepaint_data PAINT_SCREEN_REGION (QRegion_xywh 0 0 10 10) (mkSize 100 100)
                  (opaque_window (QRect_xywh 0 0 100 100) QRegion_empty)).1)
         (QRegion_xywh 0 0 100 100)
  /\ isOpaque (opaque_window (QRect_xywh 0 0 100 100) QRegion_empty) = true
  /\ map window (occluded p) = [0%nat; 1%nat]
  /\ (forall d, occluded p !! 0%nat = Some d -> isEmpty (region d) = false)
  /\ (forall fill, backgroundFill p = Some fill -> isEmpty fill = false)
  /\ (exists fill, backgroundFill p = Some fill).
Proof.
  split; [|split; [|split; [|split; [|split]]]].
  - intros x y H. exact H.
  - reflexivity.
  - vm_compute. reflexivity.
  - intros d H. vm_compute in H. injection H as <-. vm_compute. reflexivity.
  - intros fill H. vm_compute in H. injection H as <-. vm_compute. reflexivity.
  - eexists. vm_compute. reflexivity.
Qed.

(** C1, amended: in [paintSimpleScreen], when the topmost window of the
    stack is painted, not translucent, and its clip covers the output
    rectangle, the last entry after the occlusion loop is that of the top
    window, the region of every entry below it has no point in the output
    rectangle, and neither has the background fill [dirtyArea - allclips];
    they are empty on a full repaint and whenever no paint region reaches
    outside the output rectangle. *)
Theorem occlusion_below_opaque_top (sc : SceneState) (orig_mask : Z) (region : QRegion)
  (below : list Window) (top : Window) :
  stacking_order sc = below ++ [top] ->
  isPaintingEnabled top = true ->
  let s := screenSize sc in
  let displayRegion := QRegion_xywh 0 0 (wd s) (ht s) in
  let data := (prepaint_data orig_mask region s top).1 in
  covers (clip data) displayRegion ->
  has_flag (mask data) PAINT_WINDOW_TRANSLUCENT = false ->
  let p := paintSimpleScreen sc orig_mask region in
  exists lower topd,
    occluded p = lower ++ [topd] /\ window topd = length below
    /\ Forall (fun d => isEmpty (intersected (Scene.region d) displayRegion) = true) lower
    /\ (forall fill, backgroundFill p = Some fill ->
          isEmpty (intersected fill displayRegion) = true)
    /\ (fullRepaint p = true \/ in_display sc orig_mask region ->
          Forall (fun d => isEmpty (Scene.region d) = true) lower
          /\ (forall fill, backgroundFill p = Some fill -> isEmpty fill = true)).
Proof.
  intros Hso He s disp data Hclip Hmask p.
  pose proof (first_pass_last orig_mask region s below top He) as Hlast.
  assert (Hin : in_display sc orig_mask region ->
     Forall (fun d => covers disp (Scene.region d))
       (first_pass orig_mask region s 0 (stacking_order sc) ([], region, false)).1.1
     /\ covers disp (first_pass orig_mask region s 0 (stacking_order sc) ([], region, false)).1.2).
  { intros (Hr & _ & Hw & _). by apply first_pass_within. }
  subst p. unfold paintSimpleScreen. fold s. rewrite <- Hso in Hlast.
  destruct (first_pass orig_mask region s 0 (stacking_order sc) ([], region, false))
    as [[p2 dirty] ofs].
  destruct (first_pass orig_mask region s 0 below ([], region, false)) as [[p2b dirtyb] ofsb].
  simpl in Hlast, Hin. fold data in Hlast. subst p2. fold disp.
  set (dirty1 := united dirty (repaint_region sc)).
  set (full0 := region_eqb dirty1 disp).
  set (dirty2 := if full0 then dirty1 else extendPaintRegion sc dirty1 ofs).
  set (full := if full0 then true else region_eqb dirty2 disp).
  rewrite rev_unit. cbn [occlusion_pass].
  set (e := mkPhase2 (length below) (paint data) (clip data) (mask data)).
  destruct (occlude full disp e (QRegion_empty, repaint_region sc)) as [topd st1] eqn:E.
  assert (Ht : window topd = length below /\ covers st1.1 disp
               /\ (full = false -> covers disp (repaint_region sc) ->
                   covers disp (paint data) -> covers disp st1.2)).
  { unfold occlude in E. cbn [p2clip p2mask Scene.region window e] in E.
    rewrite Hmask in E. destruct (isEmpty (clip data)) eqn:Ec; simpl in E;
      injection E as <- <-; simpl; (split; [done|]); split.
    - apply covers_empty. by apply covered_by_empty with (clip data).
    - intros -> Hr Hp. by region_points.
    - exact Hclip.
    - intros -> Hr Hp. by region_points. }
  destruct Ht as (Hw & Hst & Hutd).
  pose proof (occlusion_pass_covered full disp disp (rev p2b) st1 Hst) as [Hlow Hall].
  pose proof (occlusion_pass_empty full disp (rev p2b) st1 Hst) as Hempty.
  destruct (occlusion_pass full disp (rev p2b) st1) as [lower [clips utd]].
  simpl in Hlow, Hall, Hempty.
  destruct (paint_pass _ _) as [calls paintedArea].
  exists lower, topd. cbn [occluded backgroundFill fullRepaint].
  split; [done|]. split; [done|]. split; [done|]. split.
  - intros fill Hf. destruct (has_flag orig_mask PAINT_SCREEN_BACKGROUND_FIRST); [done|].
    injection Hf as <-. by apply subtracted_misses.
  - intros Hc.
    assert (Hd : covers disp dirty2
                 /\ (full = true \/
                     covers disp st1.2 /\ Forall (fun d => covers disp (Scene.region d)) (rev p2b))).
    { destruct Hc as [Hf|Hd].
      - split; [|by left]. subst full dirty2.
        destruct full0 eqn:E0; by apply covers_eqb.
      - pose proof Hd as (Hr & Hrep & Hws & Hext).
        destruct (Hin Hd) as [Hp Hdirty].
        apply Forall_app in Hp as [Hp Hp'].
        assert (covers disp dirty1) by by apply covers_united_both.
        split.
        + subst dirty2. destruct full0; [done|]. fold s disp in Hext. by apply Hext.
        + destruct full eqn:Ef; [by left|right]. split.
          * apply Hutd; [done|done|]. by inversion Hp'.
          * by apply Forall_rev. }
    destruct Hd as [Hd2 Hd]. split; [by apply Hempty|].
    intros fill Hf. destruct (has_flag orig_mask PAINT_SCREEN_BACKGROUND_FIRST); [done|].
    injection Hf as <-. by apply subtracted_all with disp.
Qed.

(** The theorem on the scene above: the translucent window below the
    opaque one has no paint region within the 100 x 100 screen, and
    neither has the background fill. *)
Lemma occlusion_below_opaque_top_witness :
  exists lower topd,
    occluded (paintSimpleScreen scene_offscreen PAINT_SCREEN_REGION (QRegion_xywh 0 0 10 10))
    = lower ++ [topd]
    /\ window topd = 1%nat
    /\ Forall (fun d => isEmpty (intersected (Scene.region d) (QRegion_xywh 0 0 100 100)) = true)
         lower
    /\ (forall fill,
          backgroundFill (paintSimpleScreen scene_offscreen PAINT_SCREEN_REGION
                            (QRegion_xywh 0 0 10 10)) = Some fill ->
          isEmpty (intersected fill (QRegion_xywh 0 0 100 100)) = true).
Proof.
  destruct (occlusion_below_opaque_top scene_offscreen PAINT_SCREEN_REGION
              (QRegion_xywh 0 0 10 10)
              [translucent_window (QRect_xywh (-10) 0 20 20) (QRegion_xywh (-10) 0 20 20)]
              (opaque_window (QRect_xywh 0 0 100 100) QRegion_empty))
    as (lower & topd & H1 & H2 & H3 & H4 & _).
  - reflexivity.
  - reflexivity.
  - intros x y H. exact H.
  - reflexivity.
  - exists lower, topd. split; [exact H1|]. split; [exact H2|]. split; [exact H3 | exact H4].
Defined.

End SceneFacts.

(* --------------------------------------------------------------------- *)
(** ** More on the damage history and on the pixel copy                    *)
(* --------------------------------------------------------------------- *)

Section DamageHistoryMore.
Import OpenGLBackend.

Lemma removeLast_take {A} (l : list A) : removeLast l = take (length l - 1) l.
Proof.
  unfold removeLast. destruct l as [|a l] using rev_ind; [reflexivity|].
  rewrite removelast_last, length_app. simpl.
  replace (length l + 1 - 1)%nat with (length l) by lia.
  by rewrite take_app_length.
Qed.

(** One recorded frame: the new region in front of the first eleven-less-one
    of the old ones. *)
Lemma addToDamageHistory_take (hist : DamageHistory) (r : QRegion) :
  (length hist <= 11)%nat -> addToDamageHistory hist r = take 11 (r :: hist).
Proof.
  intros H. unfold addToDamageHistory.
  destruct (10 <? Z.of_nat (length hist)) eqn:E.
  - apply Z.ltb_lt in E. assert (length hist = 11%nat) as L by lia.
    rewrite removeLast_take, L. reflexivity.
  - apply Z.ltb_ge in E. cbn [take]. f_equal. rewrite take_ge; [done|lia].
Qed.

Lemma take_app_take {A} (n : nat) (l m : list A) :
  take n (l ++ take n m) = take n (l ++ m).
Proof.
  rewrite !take_app, take_take. do 2 f_equal. lia.
Qed.

Lemma record_frames_take (frames : list QRegion) (hist : DamageHistory) :
  (length hist <= 11)%nat ->
  record_frames frames hist = take 11 (rev frames ++ hist).
Proof.
  revert hist. induction frames as [|r frames IH]; intros hist H.
  - simpl. rewrite take_ge; [done|lia].
  - cbn [record_frames rev]. rewrite IH.
    + rewrite addToDamageHistory_take by done. rewrite <- app_assoc.
      change ([r] ++ hist) with (r :: hist). apply take_app_take.
    + rewrite addToDamageHistory_take by done. rewrite length_take. lia.
Qed.

(** X1. The damage history after any number of frames, recorded one after the
    other into an empty history, consists of the last eleven damage regions,
    the newest first. *)
Theorem damage_history_keeps_last_eleven (frames : list QRegion) :
  record_frames frames [] = take 11 (rev frames)
  /\ (length (record_frames frames []) = Nat.min 11 (length frames)).
Proof.
  rewrite record_frames_take by (simpl; lia). rewrite app_nil_r. split; [done|].
  rewrite length_take, length_rev. lia.
Qed.

(** Membership in the union of a list of regions. *)
Lemma contains_union_all (l : list QRegion) (x y : Z) :
  contains (union_all l) x y = existsb (fun r => contains r x y) l.
Proof.
  unfold union_all. induction l as [|r l IH]; [reflexivity|].
  cbn [concat existsb]. by rewrite contains_app, IH.
Qed.

Lemma accumulated_in_range (s : QSize) (hist : DamageHistory) (age : Z) :
  0 < age <= Z.of_nat (length hist) ->
  accumulatedDamageHistory s hist age = union_all (take (Z.to_nat (age - 1)) hist).
Proof.
  intros [H0 H1]. unfold accumulatedDamageHistory.
  replace (0 <? age) with true by (symmetry; apply Z.ltb_lt; lia).
  replace (age <=? Z.of_nat (length hist)) with true by (symmetry; apply Z.leb_le; lia).
  simpl. apply replay_concat. lia.
Qed.

(** X2. An older buffer needs at least the repaint of a younger one: within the
    recorded history the accumulated damage grows with the age. *)
Theorem accumulatedDamageHistory_monotone (s : QSize) (hist : DamageHistory) (a b : Z) :
  0 < a -> a <= b -> b <= Z.of_nat (length hist) ->
  covers (accumulatedDamageHistory s hist b) (accumulatedDamageHistory s hist a).
Proof.
  intros Ha Hab Hb x y. rewrite !accumulated_in_range by lia.
  rewrite !contains_union_all, !existsb_exists.
  intros (r & Hr & Hc). exists r. split; [|done].
  apply list_elem_of_In. apply list_elem_of_In in Hr.
  apply list_elem_of_lookup in Hr as [i Hi]. apply list_elem_of_lookup. exists i.
  apply lookup_take_Some in Hi as [Hi Hlt]. apply lookup_take_Some. split; [done|lia].
Qed.

Lemma accumulatedDamageHistory_monotone_witness :
  covers (accumulatedDamageHistory (mkSize 100 100)
            [QRegion_xywh 0 0 5 5; QRegion_xywh 10 10 5 5; QRegion_xywh 20 20 5 5] 3)
         (accumulatedDamageHistory (mkSize 100 100)
            [QRegion_xywh 0 0 5 5; QRegion_xywh 10 10 5 5; QRegion_xywh 20 20 5 5] 2).
Proof.
  apply (accumulatedDamageHistory_monotone (mkSize 100 100)
           [QRegion_xywh 0 0 5 5; QRegion_xywh 10 10 5 5; QRegion_xywh 20 20 5 5] 2 3);
    simpl; lia.
Defined.

(** X3. Recording a frame shifts the ages by one: the repaint for a buffer of
    age [age >= 2] after a frame with damage [d] has been recorded is [d]
    together with the repaint that age [age - 1] called for before. *)
Theorem addToDamageHistory_shifts_age (s : QSize) (hist : DamageHistory) (d : QRegion)
  (age : Z) :
  1 < age -> age <= Z.of_nat (length (addToDamageHistory hist d)) ->
  accumulatedDamageHistory s (addToDamageHistory hist d) age
  = united d (accumulatedDamageHistory s hist (age - 1)).
Proof.
  intros H1 H2. rewrite accumulated_in_range by lia.
  rewrite addToDamageHistory_length in H2.
  assert (Hk : (Z.to_nat (age - 1 - 1) <= length hist)%nat /\ age - 1 <= Z.of_nat (length hist)).
  { destruct (10 <? Z.of_nat (length hist)); lia. }
  rewrite accumulated_in_range by lia.
  replace (Z.to_nat (age - 1)) with (S (Z.to_nat (age - 1 - 1))) by lia.
  unfold addToDamageHistory. cbn [take]. unfold union_all, united. cbn [concat].
  do 2 f_equal.
  destruct (10 <? Z.of_nat (length hist)) eqn:E; [|done].
  apply Z.ltb_lt in E. rewrite removeLast_take, take_take. f_equal. lia.
Qed.

Lemma addToDamageHistory_shifts_age_witness :
  accumulatedDamageHistory (mkSize 100 100)
    (addToDamageHistory [QRegion_xywh 0 0 5 5; QRegion_xywh 10 10 5 5] (QRegion_xywh 1 1 2 2)) 3
  = united (QRegion_xywh 1 1 2 2)
      (accumulatedDamageHistory (mkSize 100 100)
         [QRegion_xywh 0 0 5 5; QRegion_xywh 10 10 5 5] 2).
Proof.
  apply (addToDamageHistory_shifts_age (mkSize 100 100)
           [QRegion_xywh 0 0 5 5; QRegion_xywh 10 10 5 5] (QRegion_xywh 1 1 2 2) 3);
    simpl; lia.
Defined.

(** X4. [copyPixels] blits exactly the pixels of the region, mirrored top to
    bottom: the GL pixel in column [x] and row [height - 1 - y] is covered
    by a blit if and only if the region contains the point [(x, y)]. *)
Theorem copyPixels_mirrors_region (height : Z) (region : QRegion) (x y : Z) :
  existsb (fun b => blit_covers b x (height - 1 - y)) (copyPixels height region)
  = contains region x y.
Proof.
  unfold copyPixels, contains. induction region as [|r region IH]; [reflexivity|].
  cbn [map existsb]. rewrite IH. f_equal.
  unfold blit_covers, rect_contains, rect_width, rect_height. cbn.
  apply eq_true_iff_eq.
  rewrite !andb_true_iff, !Z.leb_le, !Z.ltb_lt. lia.
Qed.

End DamageHistoryMore.

(* --------------------------------------------------------------------- *)
(** ** More on the frame bracket of the DRM EGL backend                    *)
(* --------------------------------------------------------------------- *)

Section FrameBracketMore.
Import OpenGLBackend EglGbmBackend.

(** The loop of [present] over the outputs: what it logs, the buffers it
    hands out and the ages it reads. *)
Lemma present_outputs_spec (supports : bool) (os : list Output) :
  forall fr ag lg,
    exists added,
      present_outputs supports (fr, ag, lg) os
      = ((fr + length os)%nat,
         (if supports then drop (length os) ag else ag),
         lg ++ added,
         imap (fun i o =>
                 mkOutput (output o) (Some (fr + i)%nat)
                          (if supports then default (bufferAge o) (ag !! i) else bufferAge o))
              os)
      /\ deleted added = omap buffer os
      /\ presented added = imap (fun i o => ((fr + i)%nat, output o)) os.
Proof.
  induction os as [|o os IH]; intros fr ag lg.
  - exists []. simpl. rewrite Nat.add_0_r, app_nil_r. destruct supports; by rewrite ?drop_0.
  - cbn [present_outputs].
    destruct (present_output supports (fr, ag, lg) o) as [st1 o1] eqn:E.
    unfold present_output in E.
    set (lg1 := lg ++ [MakeContextCurrent (output o); EglSwapBuffers (output o);
                       CreateBuffer (output o) fr; BackendPresent fr (output o)]) in E.
    set (lg2 := match buffer o with Some old => lg1 ++ [DeleteBuffer old] | None => lg1 end) in E.
    assert (Hlg2 : exists a2, lg2 = lg ++ a2 /\ deleted a2 = option_list (buffer o)
                              /\ presented a2 = [(fr, output o)]).
    { subst lg2 lg1. destruct (buffer o) as [old|].
      - eexists. rewrite <- app_assoc. split; [reflexivity|]. by split.
      - eexists. split; [reflexivity|]. by split. }
    destruct Hlg2 as (a2 & -> & Hd2 & Hp2).
    assert (Hst : exists a3, st1 = (S fr, (if supports then drop 1 ag else ag), lg ++ a3)
                   /\ deleted a3 = option_list (buffer o) /\ presented a3 = [(fr, output o)]
                   /\ o1 = mkOutput (output o) (Some fr)
                             (if supports then default (bufferAge o) (ag !! 0%nat)
                              else bufferAge o)).
    { assert (Hq : forall e, deleted (a2 ++ [QueryBufferAge e]) = option_list (buffer o)
                             /\ presented (a2 ++ [QueryBufferAge e]) = [(fr, output o)]).
      { intros e. unfold deleted, presented in *. rewrite !omap_app, Hd2, Hp2. simpl.
        by rewrite app_nil_r. }
      destruct supports.
      - destruct ag as [|a rest]; injection E as <- <-;
          exists (a2 ++ [QueryBufferAge (output o)]); rewrite <- app_assoc;
          destruct (Hq (output o)) as [Hq1 Hq2]; by rewrite ?drop_0.
      - injection E as <- <-. by exists a2. }
    destruct Hst as (a3 & -> & Hd3 & Hp3 & ->).
    destruct (IH (S fr) (if supports then drop 1 ag else ag) (lg ++ a3)) as (a4 & E4 & Hd4 & Hp4).
    rewrite E4. exists (a3 ++ a4). split; [|split].
    + cbn [length imap]. rewrite Nat.add_0_r, <- app_assoc.
      replace (S fr + length os)%nat with (fr + S (length os))%nat by lia.
      assert (Hdrop : (if supports
                       then drop (length os) (if supports then drop 1 ag else ag)
                       else if supports then drop 1 ag else ag)
                      = if supports then drop (S (length os)) ag else ag).
      { destruct supports; [|reflexivity]. rewrite drop_drop. f_equal. }
      rewrite Hdrop. do 2 f_equal. apply imap_ext. intros i x _. unfold compose.
      replace (S fr + i)%nat with (fr + S i)%nat by lia.
      destruct supports; [|reflexivity]. by rewrite lookup_drop.
    + unfold deleted in *. rewrite omap_app, Hd3, Hd4. simpl.
      by destruct (buffer o).
    + unfold presented in *. rewrite omap_app, Hp3, Hp4. cbn [imap]. rewrite Nat.add_0_r.
      simpl. f_equal. apply imap_ext. intros i x _. unfold compose. f_equal. lia.
Qed.


Lemma present_spec (b : Backend) :
  exists added,
    present b
    = mkEgl (imap (fun i o =>
                     mkOutput (output o) (Some (fresh b + i)%nat)
                       (if supportsBufferAge b then default (bufferAge o) (ages b !! i)
                        else bufferAge o))
                  (m_outputs b))
            (m_damageHistory b) (supportsBufferAge b)
            (fresh b + length (m_outputs b))%nat
            (if supportsBufferAge b then drop (length (m_outputs b)) (ages b) else ages b)
            (log b ++ added)
    /\ deleted added = omap buffer (m_outputs b)
    /\ presented added = imap (fun i o => ((fresh b + i)%nat, output o)) (m_outputs b).
Proof.
  destruct (present_outputs_spec (supportsBufferAge b) (m_outputs b) (fresh b) (ages b) (log b))
    as (added & E & Hd & Hp).
  exists added. unfold present. rewrite E. auto.
Qed.

Lemma map_imap {A B C} (g : B -> C) (F : nat -> A -> B) (l : list A) :
  map g (imap F l) = imap (fun i a => g (F i a)) l.
Proof.
  revert F. induction l as [|a l IH]; intros F; [reflexivity|].
  cbn [imap map]. f_equal. apply IH.
Qed.

Lemma imap_index {A B} (f : nat -> B) (l : list A) (n : nat) :
  imap (fun i _ => f (n + i)%nat) l = map f (seq n (length l)).
Proof.
  revert n. induction l as [|a l IH]; intros n; [reflexivity|].
  cbn [imap length seq map]. rewrite Nat.add_0_r. f_equal.
  rewrite <- IH. apply imap_ext. intros i x _. unfold compose. f_equal. lia.
Qed.

Lemma imap_pair_zip {A B} (g : A -> B) (l : list A) (n : nat) :
  imap (fun i a => ((n + i)%nat, g a)) l = zip (seq n (length l)) (map g l).
Proof.
  revert n. induction l as [|a l IH]; intros n; [reflexivity|].
  cbn [imap length seq map zip zip_with]. rewrite Nat.add_0_r. f_equal.
  rewrite <- IH. apply imap_ext. intros i x _. unfold compose. f_equal. lia.
Qed.

(** X5. [present] hands every output a buffer of its own, one more than the
    last each time, and gives it to the DRM backend for that output; the
    buffers the outputs held before are the ones deleted, each once and in
    the order of the outputs; outputs and damage history stay as they
    are. *)
Theorem present_hands_out_new_buffers (b : Backend) :
  let n := length (m_outputs b) in
  map output (m_outputs (present b)) = map output (m_outputs b)
  /\ map buffer (m_outputs (present b)) = map Some (seq (fresh b) n)
  /\ fresh (present b) = (fresh b + n)%nat
  /\ m_damageHistory (present b) = m_damageHistory b
  /\ exists added,
       log (present b) = log b ++ added
       /\ deleted added = omap buffer (m_outputs b)
       /\ presented added = zip (seq (fresh b) n) (map output (m_outputs b)).
Proof.
  intros n. destruct (present_spec b) as (added & -> & Hd & Hp).
  cbn [m_outputs fresh m_damageHistory log]. rewrite !map_imap. cbn [output buffer].
  split; [apply (imap_const output)|]. split; [apply (imap_index Some)|].
  split; [done|]. split; [done|]. exists added.
  split; [done|]. split; [done|]. rewrite Hp. apply imap_pair_zip.
Qed.

Lemma contains_fold_united {A} (g : A -> QRegion) (l : list A) (init : QRegion) (x y : Z) :
  contains (fold_left (fun r o => united r (g o)) l init) x y
  = contains init x y || existsb (fun o => contains (g o) x y) l.
Proof.
  revert init. induction l as [|o l IH]; intros init.
  - simpl. by rewrite orb_false_r.
  - cbn [fold_left existsb]. rewrite IH, contains_united. by rewrite orb_assoc.
Qed.

(** X6. After a frame that ended without damage every buffer age is 1, so
    the next [prepareRenderingFrame] asks for no repaint at all, as long as
    one frame of damage has been recorded; with an empty history and
    buffer-age support even age 1 is out of range and the next frame
    repaints the whole of the screens. *)
Theorem empty_frame_asks_for_no_repaint (s : QSize) (b : Backend)
  (renderedRegion damagedRegion : QRegion) :
  isEmpty damagedRegion = true ->
  (m_damageHistory b <> [] ->
   prepareRenderingFrame s (endRenderingFrame b renderedRegion damagedRegion) = QRegion_empty)
  /\ (m_damageHistory b = [] -> supportsBufferAge b = true -> m_outputs b <> [] ->
      covers (prepareRenderingFrame s (endRenderingFrame b renderedRegion damagedRegion))
             (QRegion_xywh 0 0 (wd s) (ht s))).
Proof.
  intros Hd. unfold endRenderingFrame, prepareRenderingFrame. rewrite Hd. cbn. split.
  - intros Hh. destruct (supportsBufferAge b); [|reflexivity].
    assert (E : accumulatedDamageHistory s (m_damageHistory b) 1 = QRegion_empty).
    { rewrite accumulated_in_range; [reflexivity|].
      destruct (m_damageHistory b); [done|]. cbn [length]. lia. }
    induction (m_outputs b) as [|o os IH]; [reflexivity|].
    cbn [map fold_left bufferAge]. rewrite E. exact IH.
  - intros Hh -> Ho x y Hc. rewrite contains_fold_united. apply orb_true_iff. right.
    destruct (m_outputs b) as [|o os]; [done|]. cbn [map existsb bufferAge].
    rewrite Hh. change (accumulatedDamageHistory s [] 1) with (QRegion_xywh 0 0 (wd s) (ht s)).
    by rewrite Hc.
Qed.

Lemma empty_frame_asks_for_no_repaint_witness :
  prepareRenderingFrame (mkSize 100 100)
    (endRenderingFrame backend_two_outputs (QRegion_xywh 0 0 4 4) QRegion_empty)
  = QRegion_empty.
Proof.
  apply (empty_frame_asks_for_no_repaint (mkSize 100 100) backend_two_outputs
           (QRegion_xywh 0 0 4 4) QRegion_empty).
  - reflexivity.
  - discriminate.
Defined.

(** X7. A frame with damage [d] is presented and recorded; when the
    driver then reports a buffer age of 2 for every output (the back buffer
    is the one from the frame before), the next [prepareRenderingFrame]
    asks for exactly the points of [d]. *)
Theorem damage_is_repaired_at_age_two (s : QSize) (b : Backend)
  (renderedRegion d : QRegion) :
  isEmpty d = false ->
  supportsBufferAge b = true ->
  m_outputs b <> [] ->
  m_damageHistory b <> [] ->
  (forall i, (i < length (m_outputs b))%nat -> ages b !! i = Some 2) ->
  forall x y,
    contains (prepareRenderingFrame s (endRenderingFrame b renderedRegion d)) x y
    = contains d x y.
Proof.
  intros Hd Hs Ho Hh Hages x y. unfold endRenderingFrame. rewrite Hd.
  destruct (present_spec b) as (added & -> & _). cbn [supportsBufferAge].
  rewrite Hs. unfold prepareRenderingFrame. cbn [supportsBufferAge m_outputs m_damageHistory].
  rewrite contains_fold_united. cbn [contains existsb QRegion_empty]. 
  assert (E : forall o, o ∈ imap (fun i o => mkOutput (output o) (Some (fresh b + i)%nat)
                                      (default (bufferAge o) (ages b !! i))) (m_outputs b) ->
              accumulatedDamageHistory s (addToDamageHistory (m_damageHistory b) d) (bufferAge o)
              = united d QRegion_empty).
  { intros o Hin. apply list_elem_of_lookup in Hin as [i Hi].
    rewrite list_lookup_imap in Hi.
    destruct (m_outputs b !! i) as [o0|] eqn:E0; [|discriminate].
    injection Hi as <-. cbn [bufferAge].
    rewrite (Hages i) by (by eapply lookup_lt_Some). change (default (bufferAge o0) (Some 2)) with 2.
    rewrite accumulated_in_range; [reflexivity|].
    rewrite addToDamageHistory_length.
    destruct (m_damageHistory b); [done|]. cbn [length].
    destruct (10 <? _) eqn:E; [apply Z.ltb_lt in E|]; lia. }
  destruct (m_outputs b) as [|o os] eqn:Eo; [done|].
  cbn [imap existsb]. rewrite E by (cbn [imap]; by left).
  rewrite contains_united. cbn [contains existsb QRegion_empty]. rewrite orb_false_r.
  destruct (contains d x y) eqn:Ec; [reflexivity|]. simpl.
  apply not_true_is_false. intros Hex. apply existsb_exists in Hex as (o' & Hin & Hc).
  rewrite E in Hc.
  - rewrite contains_united, Ec in Hc. discriminate.
  - cbn [imap]. right. by apply list_elem_of_In.
Qed.

Lemma damage_is_repaired_at_age_two_witness :
  contains (prepareRenderingFrame (mkSize 100 100)
              (endRenderingFrame backend_double_buffered (QRegion_xywh 0 0 9 9)
                 (QRegion_xywh 2 2 3 3))) 3 3
  = contains (QRegion_xywh 2 2 3 3) 3 3.
Proof.
  refine (damage_is_repaired_at_age_two (mkSize 100 100) backend_double_buffered
            (QRegion_xywh 0 0 9 9) (QRegion_xywh 2 2 3 3) _ _ _ _ _ 3 3).
  - reflexivity.
  - reflexivity.
  - discriminate.
  - discriminate.
  - intros i Hi. destruct i as [|[|i]]; [reflexivity|reflexivity|]. simpl in Hi. lia.
Defined.

End FrameBracketMore.

(* --------------------------------------------------------------------- *)
(** ** Item tree: positions, stacking and re-parenting                     *)
(* --------------------------------------------------------------------- *)

Section ItemPositionFacts.
Import Item.

Lemma point_add_0_l (p : QPoint) : point_add (mkPoint 0 0) p = p.
Proof. destruct p. reflexivity. Qed.

Lemma point_add_swap (a b c : QPoint) :
  point_add (point_add a b) c = point_add a (point_add c b).
Proof. unfold point_add. simpl. f_equal; lia. Qed.

(** Along a parent chain that ends, the loop of [rootPosition] adds to its
    accumulator what [windowPosition] returns. *)
Lemma position_chain (h : Items) (j : ItemId) :
  anchored (skeletons h) j ->
  exists q n, forall fuel, (n <= fuel)%nat ->
    windowPosition fuel h j = Some q
    /\ forall ret, rootPosition_loop fuel h ret (Some j) = Some (point_add ret q).
Proof.
  induction 1 as [j sk Hj Hp | j sk k Hj Hp Hk (q & n & IH)];
    apply skeletons_inv in Hj as (jt & Hjt & <-); unfold sk_parent, skeleton in Hp;
    simpl in Hp.
  - exists (position jt), 1%nat. intros [|fuel] Hf; [lia|]. split.
    + cbn [windowPosition]. rewrite Hjt. simpl. rewrite Hp. simpl.
      by rewrite point_add_0_l.
    + intros ret. cbn [rootPosition_loop]. rewrite Hjt. simpl. rewrite Hp.
      by destruct fuel.
  - exists (point_add q (position jt)), (S n). intros [|fuel] Hf; [lia|].
    destruct (IH fuel ltac:(lia)) as [IHw IHr]. split.
    + cbn [windowPosition]. rewrite Hjt. simpl. rewrite Hp, IHw. reflexivity.
    + intros ret. cbn [rootPosition_loop]. rewrite Hjt. simpl. rewrite Hp, IHr.
      by rewrite point_add_swap.
Qed.

(** X8. In an item tree [rootPosition()] and [windowPosition()] agree on
    every item: the loop over the parents and the recursion over them both
    come to an end and give the same point. *)
Theorem rootPosition_is_windowPosition (h : Items) (i : ItemId) :
  tree h -> is_Some (h !! i) ->
  exists p n, forall fuel, (n <= fuel)%nat ->
    rootPosition fuel h i = Some p /\ windowPosition fuel h i = Some p.
Proof.
  intros T [it Hi].
  assert (A : anchored (skeletons h) i).
  { apply (tree_anchored _ T). rewrite (skeletons_Some _ _ _ Hi). by eexists. }
  destruct (m_parentItem it) as [k|] eqn:Hp.
  - assert (Ak : anchored (skeletons h) k).
    { inversion A as [j sk Hj Hn | j sk k' Hj Hk Hak]; subst;
        rewrite (skeletons_Some _ _ _ Hi) in Hj; injection Hj as <-;
        unfold sk_parent, skeleton in *; simpl in *; congruence. }
    destruct (position_chain h k Ak) as (q & n & Hq).
    exists (point_add q (position it)), (S n). intros [|fuel] Hf; [lia|].
    destruct (Hq fuel ltac:(lia)) as [Hw _].
    destruct (Hq (S fuel) ltac:(lia)) as [_ Hr]. split.
    + unfold rootPosition. rewrite Hi. cbn [mbind option_bind]. rewrite Hp, Hr.
      f_equal. unfold point_add. simpl. f_equal; lia.
    + cbn [windowPosition]. rewrite Hi. simpl. by rewrite Hp, Hw.
  - exists (position it), 1%nat. intros [|fuel] Hf; [lia|]. split.
    + unfold rootPosition. rewrite Hi. simpl. by rewrite Hp.
    + cbn [windowPosition]. rewrite Hi. simpl. rewrite Hp. simpl. by rewrite point_add_0_l.
Qed.


Lemma run_mono (fuel fuel' : nat) (ops : list Op) (h h' : Items) :
  (fuel <= fuel')%nat -> run fuel ops h = Some h' -> run fuel' ops h = Some h'.
Proof.
  intros Hf. revert h. induction ops as [|op ops IH]; intros h; [done|].
  cbn [run]. destruct (apply fuel op h) as [h1|] eqn:E; [|discriminate].
  simpl. intros H. rewrite (apply_mono fuel fuel' op h h1 Hf E). simpl. by apply IH.
Qed.

(** What a run of operations that may be asked for ends in, whatever the
    fuel it was given. *)
Lemma run_tree (h h' : Items) (ops : list Op) (n : nat) :
  tree h -> bounding_ok h -> ops_ok h ops -> run n ops h = Some h' ->
  tree h' /\ bounding_ok h'.
Proof.
  intros T B Ok Hr. destruct (run_settles ops h T B Ok) as (h2 & _ & T2 & B2 & m & Hm).
  pose proof (run_mono n (n `max` m) ops h h' ltac:(lia) Hr) as H1.
  rewrite (Hm (n `max` m)%nat) in H1 by lia. by injection H1 as <-.
Qed.

Lemma example_tree_ok : tree example_tree /\ bounding_ok example_tree.
Proof.
  apply (run_tree ∅ example_tree example_ops 5 tree_empty bounding_ok_empty example_ops_ok).
  vm_compute. reflexivity.
Qed.

Lemma rootPosition_is_windowPosition_witness :
  exists p n, forall fuel, (n <= fuel)%nat ->
    rootPosition fuel example_tree 1%nat = Some p
    /\ windowPosition fuel example_tree 1%nat = Some p.
Proof.
  apply (rootPosition_is_windowPosition example_tree 1%nat).
  - exact (proj1 example_tree_ok).
  - eexists. vm_compute. reflexivity.
Defined.

End ItemPositionFacts.

Section ItemStackingFacts.
Import Item.

Lemma indexOf_NoDup (l : list ItemId) (i : nat) (x : ItemId) :
  NoDup l -> l !! i = Some x -> indexOf l x = Z.of_nat i.
Proof.
  intros Hn Hi. unfold indexOf.
  destruct (list_find (fun y => y = x) l) as [[k y]|] eqn:E.
  - apply list_find_Some in E as (Hk & -> & _).
    by rewrite (NoDup_lookup l i k x Hn Hi Hk).
  - apply list_find_None in E. rewrite Forall_forall in E.
    exfalso. apply (E x); [|done]. by eapply list_elem_of_lookup_2.
Qed.

Lemma removeOne_delete (l : list ItemId) (i : nat) (x : ItemId) :
  NoDup l -> l !! i = Some x -> removeOne x l = delete i l.
Proof.
  revert i. induction l as [|y l IH]; intros i Hn Hi; [done|].
  apply NoDup_cons in Hn as [Hy Hn]. destruct i as [|i]; simpl in Hi.
  - injection Hi as ->. cbn [removeOne]. by rewrite decide_True.
  - cbn [removeOne]. rewrite decide_False.
    + change (delete (S i) (y :: l)) with (y :: delete i l). f_equal. by apply IH.
    + intros ->. apply Hy. by eapply list_elem_of_lookup_2.
Qed.

(** Where the sibling is once [self] has been taken out of the list. *)
Lemma delete_lookup_other (l : list ItemId) (i j : nat) (s : ItemId) :
  i <> j -> l !! j = Some s ->
  delete i l !! (if decide (j < i)%nat then j else (j - 1)%nat) = Some s.
Proof.
  intros Hij Hj. destruct (decide (j < i)%nat) as [H|H].
  - by rewrite list_lookup_delete_lt.
  - rewrite list_lookup_delete_ge by lia. by replace (S (j - 1)) with j by lia.
Qed.

(** [move] on a list without duplicates: the element goes to its new
    place in what is left without it. *)
Lemma move_spec (l : list ItemId) (i t : nat) (x : ItemId) :
  l !! i = Some x -> (t < length l)%nat ->
  move (Z.of_nat i) (Z.of_nat t) l = Some (take t (delete i l) ++ x :: drop t (delete i l)).
Proof.
  intros Hi Ht. unfold move. pose proof (lookup_lt_Some _ _ _ Hi) as Hl.
  replace (0 <=? Z.of_nat i) with true by (symmetry; apply Z.leb_le; lia).
  replace (Z.of_nat i <? Z.of_nat (length l)) with true by (symmetry; apply Z.ltb_lt; lia).
  replace (0 <=? Z.of_nat t) with true by (symmetry; apply Z.leb_le; lia).
  replace (Z.of_nat t <? Z.of_nat (length l)) with true by (symmetry; apply Z.ltb_lt; lia).
  cbn [andb]. rewrite !Nat2Z.id, Hi. reflexivity.
Qed.

(** Put back where it was taken out, the element leaves the list as it
    was. *)
Lemma delete_put_back (l : list ItemId) (i : nat) (x : ItemId) :
  l !! i = Some x -> take i (delete i l) ++ x :: drop i (delete i l) = l.
Proof.
  intros Hi. pose proof (lookup_lt_Some _ _ _ Hi) as Hl.
  rewrite delete_take_drop.
  rewrite take_app_length' by (rewrite length_take; lia).
  rewrite drop_app_length' by (rewrite length_take; lia).
  by apply take_drop_middle.
Qed.

(** Two children of [p] in a tree: where they are in the child list. *)
Lemma siblings_indices (h : Items) (self s p : ItemId) (it st : Item) :
  tree h -> h !! self = Some it -> h !! s = Some st -> self <> s ->
  m_parentItem it = Some p -> m_parentItem st = Some p ->
  exists pt i j, h !! p = Some pt /\ NoDup (m_childItems pt)
    /\ m_childItems pt !! i = Some self /\ m_childItems pt !! j = Some s /\ i <> j.
Proof.
  intros T Hi Hs Hne Hp Hq.
  destruct (tree_parent _ T self (skeleton it) p (skeletons_Some _ _ _ Hi) Hp)
    as (skp & Hskp & Hin1).
  destruct (tree_parent _ T s (skeleton st) p (skeletons_Some _ _ _ Hs) Hq)
    as (skp' & Hskp' & Hin2).
  rewrite Hskp in Hskp'. injection Hskp' as <-.
  pose proof (tree_nodup _ T p skp Hskp) as Hn.
  apply skeletons_inv in Hskp as (pt & Hpt & <-).
  unfold sk_children, skeleton in *. simpl in *.
  apply list_elem_of_lookup in Hin1 as [i Hi1]. apply list_elem_of_lookup in Hin2 as [j Hj].
  exists pt, i, j. repeat split; try done. intros ->. congruence.
Qed.

(** X9. [stackBefore] among siblings of a tree: the child list of the
    parent becomes the old one with [self] taken out and put back right
    before [sibling]; it is a permutation of the old list, the other
    children keep their order, and nothing else in the tree changes. *)
Theorem stackBefore_places_before_sibling (h : Items) (self s p : ItemId) (it st : Item) :
  tree h -> h !! self = Some it -> h !! s = Some st -> self <> s ->
  m_parentItem it = Some p -> m_parentItem st = Some p ->
  exists pt l1 l2,
    h !! p = Some pt
    /\ stackBefore self (Some s) h
       = Some (<[p := set_m_childItems (l1 ++ self :: s :: l2) pt]> h)
    /\ l1 ++ self :: s :: l2 ≡ₚ m_childItems pt
    /\ l1 ++ s :: l2 = removeOne self (m_childItems pt).
Proof.
  intros T Hi Hs Hne Hp Hq.
  destruct (siblings_indices h self s p it st T Hi Hs Hne Hp Hq)
    as (pt & i & j & Hpt & Hn & Hci & Hcj & Hij).
  set (t := if decide (j < i)%nat then j else (j - 1)%nat).
  pose proof (delete_lookup_other _ i j s Hij Hcj) as Ht. fold t in Ht.
  set (rest := delete i (m_childItems pt)) in *.
  exists pt, (take t rest), (drop (S t) rest).
  assert (Hrest : take t rest ++ s :: drop (S t) rest = rest).
  { rewrite <- (take_drop t rest) at 3. f_equal. symmetry. by apply drop_S. }
  assert (Hperm : take t rest ++ self :: s :: drop (S t) rest ≡ₚ m_childItems pt).
  { rewrite <- Permutation_middle, Hrest. symmetry. by apply delete_Permutation. }
  split; [done|]. split; [|split; [done|]].
  2:{ rewrite Hrest. symmetry. by apply removeOne_delete. }
  unfold stackBefore. rewrite Hs, Hi. cbn [mbind option_bind]. rewrite Hq, Hp.
  rewrite bool_decide_eq_true_2 by done. cbn [negb orb].
  rewrite bool_decide_eq_false_2 by done. cbn [mbind option_bind]. rewrite Hpt.
  cbn [mbind option_bind].
  rewrite (indexOf_NoDup _ i self Hn Hci), (indexOf_NoDup _ j s Hn Hcj).
  destruct (Z.of_nat i =? Z.of_nat j - 1) eqn:E.
  - apply Z.eqb_eq in E. assert (j = S i) as -> by lia.
    assert (Hid : set_m_childItems (take t rest ++ self :: s :: drop (S t) rest) pt = pt).
    { assert (El : take t rest ++ self :: s :: drop (S t) rest = m_childItems pt).
      { rewrite <- (drop_S rest s t Ht). subst t. rewrite decide_False by lia.
        replace (S i - 1)%nat with i by lia. by apply delete_put_back. }
      rewrite El. by destruct pt. }
    rewrite Hid. by rewrite insert_id.
  - apply Z.eqb_neq in E.
    assert (Hto : (if Z.of_nat i >? Z.of_nat j then Z.of_nat j else Z.of_nat j - 1) = Z.of_nat t).
    { subst t. destruct (decide (j < i)%nat) as [H|H].
      - replace (Z.of_nat i >? Z.of_nat j) with true; [done|]. symmetry. apply Z.gtb_lt. lia.
      - replace (Z.of_nat i >? Z.of_nat j) with false; [lia|].
        symmetry. apply not_true_is_false. rewrite Z.gtb_lt. lia. }
    rewrite Hto, (move_spec _ i t self Hci).
    + cbn [mbind option_bind]. fold rest. by rewrite (drop_S rest s t Ht).
    + apply lookup_lt_Some in Ht. subst rest. rewrite length_delete in Ht by eauto. lia.
Qed.


(** X10. [stackAfter] among siblings of a tree: the child list of the
    parent becomes the old one with [self] taken out and put back right
    after [sibling]; it is a permutation of the old list, the other
    children keep their order, and nothing else in the tree changes. *)
Theorem stackAfter_places_after_sibling (h : Items) (self s p : ItemId) (it st : Item) :
  tree h -> h !! self = Some it -> h !! s = Some st -> self <> s ->
  m_parentItem it = Some p -> m_parentItem st = Some p ->
  exists pt l1 l2,
    h !! p = Some pt
    /\ stackAfter self (Some s) h
       = Some (<[p := set_m_childItems (l1 ++ s :: self :: l2) pt]> h)
    /\ l1 ++ s :: self :: l2 ≡ₚ m_childItems pt
    /\ l1 ++ s :: l2 = removeOne self (m_childItems pt).
Proof.
  intros T Hi Hs Hne Hp Hq.
  destruct (siblings_indices h self s p it st T Hi Hs Hne Hp Hq)
    as (pt & i & j & Hpt & Hn & Hci & Hcj & Hij).
  set (t := if decide (j < i)%nat then j else (j - 1)%nat).
  pose proof (delete_lookup_other _ i j s Hij Hcj) as Ht. fold t in Ht.
  set (rest := delete i (m_childItems pt)) in *.
  exists pt, (take t rest), (drop (S t) rest).
  assert (Hrest : take t rest ++ s :: drop (S t) rest = rest).
  { rewrite <- (take_drop t rest) at 3. f_equal. symmetry. by apply drop_S. }
  assert (Hperm : take t rest ++ s :: self :: drop (S t) rest ≡ₚ m_childItems pt).
  { rewrite (cons_middle s), app_assoc, <- Permutation_middle, <- app_assoc.
    rewrite <- (cons_middle s), Hrest. symmetry. by apply delete_Permutation. }
  assert (Htake : take (S t) rest = take t rest ++ [s]) by by apply take_S_r.
  split; [done|]. split; [|split; [done|]].
  2:{ rewrite Hrest. symmetry. by apply removeOne_delete. }
  unfold stackAfter. rewrite Hs, Hi. cbn [mbind option_bind]. rewrite Hq, Hp.
  rewrite bool_decide_eq_true_2 by done. cbn [negb orb].
  rewrite bool_decide_eq_false_2 by done. cbn [mbind option_bind]. rewrite Hpt.
  cbn [mbind option_bind].
  rewrite (indexOf_NoDup _ i self Hn Hci), (indexOf_NoDup _ j s Hn Hcj).
  destruct (Z.of_nat i =? Z.of_nat j + 1) eqn:E.
  - apply Z.eqb_eq in E. assert (i = S j) as -> by lia.
    assert (Hid : set_m_childItems (take t rest ++ s :: self :: drop (S t) rest) pt = pt).
    { assert (El : take t rest ++ s :: self :: drop (S t) rest = m_childItems pt).
      { rewrite (cons_middle s), app_assoc, <- Htake. subst t. rewrite decide_True by lia.
        by apply delete_put_back. }
      rewrite El. by destruct pt. }
    rewrite Hid. by rewrite insert_id.
  - apply Z.eqb_neq in E.
    assert (Hto : (if Z.of_nat i >? Z.of_nat j then Z.of_nat j + 1 else Z.of_nat j)
                  = Z.of_nat (S t)).
    { subst t. destruct (decide (j < i)%nat) as [H|H].
      - replace (Z.of_nat i >? Z.of_nat j) with true; [lia|]. symmetry. apply Z.gtb_lt. lia.
      - replace (Z.of_nat i >? Z.of_nat j) with false; [lia|].
        symmetry. apply not_true_is_false. rewrite Z.gtb_lt. lia. }
    rewrite Hto, (move_spec _ i (S t) self Hci).
    + cbn [mbind option_bind]. fold rest. rewrite Htake, <- app_assoc. reflexivity.
    + apply lookup_lt_Some in Ht. subst rest. rewrite length_delete in Ht by eauto. lia.
Qed.

Lemma stack_example_ops_ok : ops_ok ∅ stack_example_ops.
Proof.
  unfold stack_example_ops.
  eapply (ops_ok_cons 5); [reflexivity | vm_compute; reflexivity |].
  eapply (ops_ok_cons 5);
    [split; [reflexivity|eexists; vm_compute; reflexivity] | vm_compute; reflexivity |].
  eapply (ops_ok_cons 5);
    [split; [reflexivity|eexists; vm_compute; reflexivity] | vm_compute; reflexivity |].
  exact I.
Qed.

Lemma stack_example_tree_ok : tree stack_example_tree /\ bounding_ok stack_example_tree.
Proof.
  apply (run_tree ∅ stack_example_tree stack_example_ops 5 tree_empty bounding_ok_empty
           stack_example_ops_ok).
  vm_compute. reflexivity.
Qed.

Lemma stackBefore_places_before_sibling_witness :
  exists pt l1 l2,
    stack_example_tree !! 0%nat = Some pt
    /\ stackBefore 2%nat (Some 1%nat) stack_example_tree
       = Some (<[0%nat := set_m_childItems (l1 ++ 2%nat :: 1%nat :: l2) pt]> stack_example_tree)
    /\ l1 ++ 2%nat :: 1%nat :: l2 ≡ₚ m_childItems pt
    /\ l1 ++ 1%nat :: l2 = removeOne 2%nat (m_childItems pt).
Proof.
  eapply (stackBefore_places_before_sibling stack_example_tree 2%nat 1%nat 0%nat).
  - exact (proj1 stack_example_tree_ok).
  - vm_compute. reflexivity.
  - vm_compute. reflexivity.
  - lia.
  - reflexivity.
  - reflexivity.
Defined.

Lemma stackAfter_places_after_sibling_witness :
  exists pt l1 l2,
    stack_example_tree !! 0%nat = Some pt
    /\ stackAfter 1%nat (Some 2%nat) stack_example_tree
       = Some (<[0%nat := set_m_childItems (l1 ++ 2%nat :: 1%nat :: l2) pt]> stack_example_tree)
    /\ l1 ++ 2%nat :: 1%nat :: l2 ≡ₚ m_childItems pt
    /\ l1 ++ 2%nat :: l2 = removeOne 1%nat (m_childItems pt).
Proof.
  eapply (stackAfter_places_after_sibling stack_example_tree 1%nat 2%nat 0%nat).
  - exact (proj1 stack_example_tree_ok).
  - vm_compute. reflexivity.
  - vm_compute. reflexivity.
  - lia.
  - reflexivity.
  - reflexivity.
Defined.

(** The example, run: item 2 goes below item 1 and back. *)
Example stacking_example_run :
  (stackBefore 2%nat (Some 1%nat) stack_example_tree ≫= fun h => childItems h 0%nat)
  = Some [2%nat; 1%nat]
  /\ ((h ← stackBefore 2%nat (Some 1%nat) stack_example_tree; stackAfter 2%nat (Some 1%nat) h)
      ≫= fun h => childItems h 0%nat)
     = Some [1%nat; 2%nat].
Proof. split; vm_compute; reflexivity. Qed.

End ItemStackingFacts.

Section ItemResetFacts.
Import Item.

(** X11. [resetWidth] and [resetHeight] only clear the "valid" flag: the
    call of [setImplicitWidth] (or [setImplicitHeight]) with the implicit
    size the item already has returns at once, so [updateBoundingRect] is
    not run and no signal is emitted.  For an item without children whose
    bounding rectangle was right and whose explicit width (height) differed
    from the implicit one, the bounding rectangle is wrong afterwards. *)
Theorem reset_size_skips_bounding_update (fuel : nat) (h : Items) (i : ItemId) (it : Item) :
  h !! i = Some it ->
  resetWidth fuel i h = Some (<[i := set_m_widthValid false it]> h)
  /\ resetHeight fuel i h = Some (<[i := set_m_heightValid false it]> h)
  /\ (bounding_ok h -> m_childItems it = [] ->
      (m_widthValid it = true -> m_width it <> m_implicitWidth it ->
       ~ bounding_ok (<[i := set_m_widthValid false it]> h))
      /\ (m_heightValid it = true -> m_height it <> m_implicitHeight it ->
          ~ bounding_ok (<[i := set_m_heightValid false it]> h))).
Proof.
  intros Hi. split; [|split].
  - unfold resetWidth, setImplicitWidth. rewrite Hi. cbn [mbind option_bind].
    rewrite lookup_insert_eq. cbn [mbind option_bind]. cbn. by rewrite Z.eqb_refl.
  - unfold resetHeight, setImplicitHeight. rewrite Hi. cbn [mbind option_bind].
    rewrite lookup_insert_eq. cbn [mbind option_bind]. cbn. by rewrite Z.eqb_refl.
  - intros B Hc. specialize (B i it Hi). unfold childrenBound in B. rewrite Hc in B.
    simpl in B. injection B as B. split; intros Hv Hne B';
      (match type of B' with bounding_ok (<[i := ?x]> h) =>
         specialize (B' i x (lookup_insert_eq h i x)) end);
      unfold childrenBound in B'; cbn in B'; rewrite Hc in B'; simpl in B';
      injection B' as B'; unfold boundingRect in *; rewrite <- B in B';
      unfold rect, size, width, height, QRect_of, QRect_xywh in B'; cbn in B';
      rewrite Hv in B'; injection B' as B'; lia.
Qed.

Lemma reset_size_skips_bounding_update_witness :
  resetWidth 0 1%nat example_tree
  = Some (<[1%nat := set_m_widthValid false
                       (mkItem (Some 2%nat) [] [2%nat] (mkRect 0 0 799 599) 4 30 800 0 600 0
                               true true)]> example_tree).
Proof.
  assert (H : example_tree !! 1%nat
              = Some (mkItem (Some 2%nat) [] [2%nat] (mkRect 0 0 799 599) 4 30 800 0 600 0
                             true true)) by (vm_compute; reflexivity).
  exact (proj1 (reset_size_skips_bounding_update 0 example_tree 1%nat _ H)).
Defined.

End ItemResetFacts.

Section ItemReparentFacts.
Import Item.

(** X12. Re-parenting in a tree: [setParentItem] takes item [i] out of the
    child list of its old parent [p] and appends it to the child list of
    the new parent [q], on top of the children [q] already has; [i] points
    to [q] afterwards, the result is a tree again and every bounding
    rectangle in it is right.  [q] must not be [i] or below [i]. *)
Theorem setParentItem_moves_child (h : Items) (i p q : ItemId) (it pt qt : Item) :
  tree h -> bounding_ok h ->
  h !! i = Some it -> m_parentItem it = Some p ->
  h !! p = Some pt -> h !! q = Some qt -> p <> q ->
  avoids (skeletons h) i q ->
  exists h',
    (exists n, forall fuel, (n <= fuel)%nat -> setParentItem fuel i (Some q) h = Some h')
    /\ tree h' /\ bounding_ok h'
    /\ m_parentItem <$> h' !! i = Some (Some q)
    /\ childItems h' q = Some (m_childItems qt ++ [i])
    /\ childItems h' p = Some (removeOne i (m_childItems pt))
    /\ i ∉ removeOne i (m_childItems pt).
Proof.
  intros T B Hi Hp Hpt Hqt Hpq Av.
  pose proof (skeletons_Some _ _ _ Hi) as Hsi.
  pose proof (skeletons_Some _ _ _ Hpt) as Hsp.
  pose proof (skeletons_Some _ _ _ Hqt) as Hsq.
  assert (Hip : i <> p).
  { intros ->. by apply (tree_not_self _ p _ T Hsi). }
  destruct (avoids_lookup _ _ _ Av) as [Hqi _].
  set (s1 := sk_detached i p (skeletons h)).
  assert (Hs1 : s1 = <[i := (None, m_childItems it, [])]>
                       (<[p := (m_parentItem pt, removeOne i (m_childItems pt), connections pt)]>
                          (skeletons h))).
  { subst s1. unfold sk_detached. by rewrite Hsi, Hsp. }
  assert (S : settles_to (fun h' => skeletons h' = sk_attached i q s1)
                         (fun fuel => setParentItem fuel i (Some q) h)).
  { eapply settles_ext;
      [intros fuel; symmetry; apply (setParentItem_split fuel i (Some q) h it Hi); congruence|].
    apply (settles_bind (fun h' => skeletons h' = s1)).
    - by apply (detach_settles h i p it).
    - intros h1 Sk1 T1 B1.
      assert (Hl : skeletons h1 !! i = Some (None, m_childItems it, [])).
      { rewrite Sk1, Hs1. by rewrite lookup_insert_eq. }
      destruct (skeletons_inv _ _ _ Hl) as (it1 & Hi1 & Ske).
      eapply settles_weaken; [|apply (attach_settles h1 i q it1 T1 B1 Hi1)].
      + intros h2 Sk2. by rewrite Sk2, Sk1.
      + unfold skeleton in Ske. congruence.
      + rewrite Sk1. by apply avoids_detach. }
  destruct S as (h' & Sk & T' & B' & n & Hn).
  assert (Hs1i : s1 !! i = Some (None, m_childItems it, [])).
  { rewrite Hs1. by rewrite lookup_insert_eq. }
  assert (Hs1q : s1 !! q = Some (skeleton qt)).
  { rewrite Hs1. by rewrite !lookup_insert_ne. }
  assert (Sk' : skeletons h'
                = <[q := (m_parentItem qt, m_childItems qt ++ [i], connections qt)]>
                    (<[i := (Some q, m_childItems it, [q])]> s1)).
  { rewrite Sk. unfold sk_attached. by rewrite Hs1i, Hs1q. }
  assert (Li : skeletons h' !! i = Some (Some q, m_childItems it, [q])).
  { rewrite Sk'. rewrite lookup_insert_ne by done. by rewrite lookup_insert_eq. }
  assert (Lq : skeletons h' !! q = Some (m_parentItem qt, m_childItems qt ++ [i], connections qt)).
  { rewrite Sk'. by rewrite lookup_insert_eq. }
  assert (Lp : skeletons h' !! p
               = Some (m_parentItem pt, removeOne i (m_childItems pt), connections pt)).
  { rewrite Sk'. rewrite !lookup_insert_ne by done. rewrite Hs1.
    rewrite lookup_insert_ne by done. by rewrite lookup_insert_eq. }
  exists h'. split; [by exists n|]. split; [done|]. split; [done|].
  apply skeletons_inv in Li as (it' & Hi' & Ei).
  apply skeletons_inv in Lq as (qt' & Hq' & Eq).
  apply skeletons_inv in Lp as (pt' & Hp' & Ep).
  unfold skeleton in *. unfold childItems. rewrite Hi', Hq', Hp'. simpl.
  split; [congruence|]. split; [congruence|]. split; [congruence|].
  pose proof (tree_nodup _ T p _ Hsp) as ND. unfold sk_children, skeleton in ND. simpl in ND.
  intros Hin. apply (removeOne_elem i i _ ND) in Hin as [_ Hne]. done.
Qed.

Lemma setParentItem_moves_child_witness :
  exists h',
    (exists n, forall fuel, (n <= fuel)%nat ->
               setParentItem fuel 1%nat (Some 0%nat) example_tree = Some h')
    /\ tree h' /\ bounding_ok h'
    /\ m_parentItem <$> h' !! 1%nat = Some (Some 0%nat)
    /\ childItems h' 0%nat = Some ([2%nat] ++ [1%nat])
    /\ childItems h' 2%nat = Some (removeOne 1%nat [1%nat])
    /\ 1%nat ∉ removeOne 1%nat [1%nat].
Proof.
  apply (setParentItem_moves_child example_tree 1%nat 2%nat 0%nat
           (mkItem (Some 2%nat) [] [2%nat] (mkRect 0 0 799 599) 4 30 800 0 600 0 true true)
           (mkItem (Some 0%nat) [1%nat] [0%nat] (mkRect 0 0 807 633) 0 0 808 0 634 0 true true)
           (mkItem None [2%nat] [] (mkRect 0 0 807 633) 0 0 0 0 0 0 false false)).
  - exact (proj1 example_tree_ok).
  - exact (proj2 example_tree_ok).
  - vm_compute. reflexivity.
  - reflexivity.
  - vm_compute. reflexivity.
  - vm_compute. reflexivity.
  - lia.
  - eapply avoids_root; [lia | vm_compute; reflexivity | reflexivity].
Defined.

End ItemReparentFacts.

(* --------------------------------------------------------------------- *)
(** ** DRM output: failed commits, DPMS and the presentation cycle         *)
(* --------------------------------------------------------------------- *)

Section DrmCommitFacts.
Import DrmOutput.

Lemma bind_Some {A B} (m : M A) (k : A -> M B) (o : DrmOutput) (r : B * DrmOutput) :
  bind m k o = Some r -> exists a o1, m o = Some (a, o1) /\ k a o1 = Some r.
Proof.
  unfold bind. destruct (m o) as [[a o1]|]; [|discriminate]. intros H. by exists a, o1.
Qed.

Lemma same_request_refl o : same_request o o.
Proof. repeat split. Qed.

Lemma same_request_trans o1 o2 o3 :
  same_request o1 o2 -> same_request o2 o3 -> same_request o1 o3.
Proof. unfold same_request. intuition congruence. Qed.

Hint Resolve same_request_refl same_request_trans : core.

Lemma kernel_call_request : keeps same_request kernel_call.
Proof.
  intros o a o'. unfold kernel_call. destruct (kernel o); intros [= _ <-]; repeat split.
Qed.

Lemma emit_request e : keeps same_request (emit e).
Proof. unfold emit. keeps_auto. Qed.

Lemma delete_buffer_request b : keeps same_request (delete_buffer b).
Proof. unfold delete_buffer. destruct b; [apply emit_request | keeps_auto]. Qed.

Lemma the_crtc_request : keeps same_request the_crtc.
Proof. unfold the_crtc. keeps_auto. Qed.

Lemma plane_setNext_request p b : keeps same_request (plane_setNext p b).
Proof. unfold plane_setNext. keeps_auto. Qed.

Lemma plane_setCurrent_request p b : keeps same_request (plane_setCurrent p b).
Proof. unfold plane_setCurrent. keeps_auto. Qed.

Hint Resolve kernel_call_request emit_request delete_buffer_request the_crtc_request
  plane_setNext_request plane_setCurrent_request : core.

Lemma atomicReqModesetPopulate_request enable :
  keeps same_request (atomicReqModesetPopulate enable).
Proof. unfold atomicReqModesetPopulate. keeps_auto. Qed.

Lemma populate_planes_request l : keeps same_request (populate_planes l).
Proof. induction l; cbn [populate_planes]; keeps_auto. Qed.

Hint Resolve atomicReqModesetPopulate_request populate_planes_request : core.

Lemma dpmsFinishOff_request : keeps same_request dpmsFinishOff.
Proof. unfold dpmsFinishOff. keeps_auto. Qed.

(** Clearing the "next" slot of every plane on the flip list. *)
Lemma clear_next_request (l : list PlaneRef) :
  keeps same_request (for_each l (fun p => plane_setNext p None)).
Proof. keeps_auto. Qed.

Lemma clear_next_slot (l : list PlaneRef) (o o' : DrmOutput) :
  l <> [] -> for_each l (fun p => plane_setNext p None) o = Some (tt, o') ->
  pl_next (m_primaryPlane o') = None.
Proof.
  revert o. induction l as [|p l IH]; intros o Hl; [done|].
  cbn [for_each]. intros H. apply bind_Some in H as (a & o1 & H1 & H2).
  destruct l as [|q l].
  - injection H2 as <-. unfold plane_setNext, modify in H1. by injection H1 as _ <-.
  - by apply (IH o1).
Qed.

(** The error handler of [doAtomicCommit] always runs to its end, and
    leaves nothing staged. *)
Lemma errorHandler_unstages (o o' : DrmOutput) :
  errorHandler o = Some (tt, o') -> unstaged o o'.
Proof.
  unfold errorHandler. intros H.
  apply bind_Some in H as (cur & o1 & H1 & H). injection H1 as <- <-.
  apply bind_Some in H as (pend & o1 & H1 & H). injection H1 as <- <-.
  apply bind_Some in H as ([] & o1 & H1 & H).
  assert (P1 : m_dpmsModePending o1 = m_dpmsMode o /\ m_dpmsMode o1 = m_dpmsMode o
               /\ m_modesetRequested o1 = m_modesetRequested o
               /\ m_pageFlipPending o1 = m_pageFlipPending o
               /\ m_nextPlanesFlipList o1 = m_nextPlanesFlipList o
               /\ m_atomicOffPending o1 = m_atomicOffPending o).
  { unfold when in H1. case_bool_decide as E; simpl in H1.
    - injection H1 as <-. by rewrite E.
    - apply bind_Some in H1 as ([] & o2 & H2 & H1). injection H2 as <-.
      assert (S : same_request (set_m_dpmsModePending (m_dpmsMode o) o) o1).
      { destruct (negb (bool_decide (m_dpmsMode o = On))); simpl in H1.
        - by apply (dpmsFinishOff_request _ _ _ H1).
        - injection H1 as <-. apply same_request_refl. }
      destruct S as (S1 & S2 & S3 & S4 & S5 & S6). simpl in *. by rewrite S1, S2. }
  destruct P1 as (P1 & P2 & P3 & P4 & P5 & P6).
  apply bind_Some in H as (l & o2 & H2 & H). injection H2 as <- <-.
  apply bind_Some in H as ([] & o2 & H2 & H). injection H as <-.
  pose proof (clear_next_request _ _ _ _ H2) as (S1 & S2 & S3 & S4 & S5 & S6).
  unfold unstaged. simpl. rewrite S1, S2, S3, S4, S6. repeat split; try congruence.
  intros Hl. eapply clear_next_slot; [|exact H2]. congruence.
Qed.

Lemma unstaged_after (o o1 o' : DrmOutput) :
  same_request o o1 -> unstaged o1 o' -> unstaged o o'.
Proof.
  intros (S1 & S2 & S3 & S4 & S5 & S6) (U1 & U2 & U3 & U4 & U5 & U6 & U7).
  unfold unstaged. rewrite <- S1, <- S3, <- S4, <- S5, <- S6. repeat split; auto; congruence.
Qed.

Lemma fail_with_errorHandler (o o' : DrmOutput) (b : bool) :
  (errorHandler ;; ret false) o = Some (b, o') -> b = false /\ unstaged o o'.
Proof.
  intros H. apply bind_Some in H as ([] & o1 & H1 & H). injection H as <- <-.
  split; [done|]. by apply errorHandler_unstages.
Qed.

(** X13. A commit that fails, tested or real and at whichever step, leaves
    nothing staged: the flip list is empty, the "next" slot of the plane
    that was on it is cleared, and the pending DPMS mode is back at the
    mode in force; the mode in force, the mode-set request and the flip
    flag are as before the attempt. *)
Theorem doAtomicCommit_failure_unstages (mode : AtomicCommitMode) (o o' : DrmOutput) :
  doAtomicCommit mode o = Some (false, o') -> unstaged o o'.
Proof.
  unfold doAtomicCommit. intros H.
  apply bind_Some in H as (req & o1 & H1 & H).
  pose proof (kernel_call_request _ _ _ H1) as S1.
  destruct req; simpl in H;
    [|apply fail_with_errorHandler in H as [_ H]; by eapply unstaged_after].
  apply bind_Some in H as (modeset & o2 & H2 & H). injection H2 as <- <-.
  apply bind_Some in H as (pend & o2 & H2 & H). injection H2 as <- <-.
  apply bind_Some in H as (prepared & o2 & H2 & H).
  assert (S2 : same_request o1 o2).
  { destruct (m_modesetRequested o1); [|injection H2 as _ <-; auto].
    apply bind_Some in H2 as (blob & o3 & H3 & H2).
    assert (S3 : same_request o1 o3).
    { destruct (bool_decide _); [by apply (kernel_call_request _ _ _ H3)|].
      injection H3 as _ <-. auto. }
    destruct blob; simpl in H2; [|injection H2 as _ <-; auto].
    eapply same_request_trans; [exact S3|]. by apply (atomicReqModesetPopulate_request _ _ _ _ H2). }
  assert (S12 : same_request o o2) by by eapply same_request_trans.
  destruct prepared; simpl in H;
    [|apply fail_with_errorHandler in H as [_ H]; by eapply unstaged_after].
  apply bind_Some in H as (l & o3 & H3 & H). injection H3 as <- <-.
  apply bind_Some in H as (populated & o3 & H3 & H).
  pose proof (populate_planes_request _ _ _ _ H3) as S3.
  assert (S13 : same_request o o3) by by eapply same_request_trans.
  destruct populated; simpl in H;
    [|apply fail_with_errorHandler in H as [_ H]; by eapply unstaged_after].
  apply bind_Some in H as (ok & o4 & H4 & H).
  pose proof (kernel_call_request _ _ _ H4) as S4.
  apply bind_Some in H as ([] & o5 & H5 & H).
  pose proof (emit_request _ _ _ _ H5) as S5.
  assert (S15 : same_request o o5).
  { eapply same_request_trans; [exact S13|]. by eapply same_request_trans. }
  destruct ok; simpl in H;
    [|apply fail_with_errorHandler in H as [_ H]; by eapply unstaged_after].
  apply bind_Some in H as ([] & o6 & H6 & H). discriminate.
Qed.

Lemma doAtomicCommit_failure_unstages_witness :
  exists o', doAtomicCommit Real output_commit_fails = Some (false, o')
    /\ unstaged output_commit_fails o'.
Proof.
  eexists. split; [vm_compute; reflexivity|].
  apply (doAtomicCommit_failure_unstages Real output_commit_fails).
  vm_compute. reflexivity.
Defined.

End DrmCommitFacts.

Section DrmDpmsMoreFacts.
Import DrmOutput.

(** X14. Without atomic mode-setting the pending DPMS mode never stays
    apart from the mode in force: [updateDpms] returns with both equal.
    When it had a new mode to apply, the two are the new mode if the
    kernel took the connector property, and the old mode if it did not. *)
Theorem updateDpms_legacy_in_sync (mode : DpmsMode) (o : DrmOutput) (c : DrmCrtc) :
  atomicModeSetting (gpu o) = false ->
  m_crtc o = Some c ->
  m_dpmsMode o = m_dpmsModePending o ->
  exists o',
    updateDpms mode o = Some (tt, o')
    /\ m_dpmsMode o' = m_dpmsModePending o'
    /\ (m_dpms o = true -> isEnabled o = true -> mode <> m_dpmsModePending o ->
        m_dpmsMode o' = if hd true (kernel o) then mode else m_dpmsMode o).
Proof.
  intros Ha Hc Hs.
  destruct o as [g b en dp cr pl fl del dm dmp pf aop msr md tr gp lws k t].
  simpl in *. subst. unfold updateDpms, dpmsLegacyApply, kernel_call. run_monad. simpl.
  destruct dp, en; simpl; try (eexists; split; [reflexivity|]; split; [done|]; done).
  case_bool_decide as E; simpl.
  { eexists; split; [reflexivity|]. split; [done|]. intros _ _ ?. done. }
  rewrite Ha. simpl.
  destruct k as [|[] k]; simpl.
  - destruct (bool_decide (mode = On)); simpl;
      (eexists; split; [reflexivity|]); simpl; auto.
  - destruct (bool_decide (mode = On)); simpl;
      (eexists; split; [reflexivity|]); simpl; auto.
  - eexists; split; [reflexivity|]; simpl; auto.
Qed.

Lemma updateDpms_legacy_in_sync_witness :
  exists o',
    updateDpms Off output_legacy_flagged = Some (tt, o')
    /\ m_dpmsMode o' = m_dpmsModePending o'
    /\ (m_dpms output_legacy_flagged = true -> isEnabled output_legacy_flagged = true ->
        Off <> m_dpmsModePending output_legacy_flagged ->
        m_dpmsMode o' = if hd true (kernel output_legacy_flagged) then Off
                        else m_dpmsMode output_legacy_flagged).
Proof.
  apply (updateDpms_legacy_in_sync Off output_legacy_flagged (mkCrtc (Some 1%nat) None));
    reflexivity.
Defined.

(** The flip handler of an atomic output on which no off is pending: the
    buffers are flipped, and no commit is issued. *)
Lemma pageFlipped_without_deferred_off (o : DrmOutput) (c : DrmCrtc) :
  atomicModeSetting (gpu o) = true ->
  m_pageFlipPending o = true ->
  m_atomicOffPending o = false ->
  m_crtc o = Some c ->
  exists o', pageFlipped o = Some (tt, o')
    /\ commits o' = commits o
    /\ m_pageFlipPending o' = false
    /\ m_atomicOffPending o' = false
    /\ m_dpmsModePending o' = m_dpmsModePending o
    /\ m_dpmsMode o' = m_dpmsMode o.
Proof.
  intros Ha Hf Hoff Hc.
  destruct o as [g b en dp cr pl fl del dm dmp pf aop msr md tr gp lws k t].
  simpl in *. subst. unfold pageFlipped. run_monad. simpl. rewrite Ha. simpl.
  destruct del; simpl.
  { eexists. split; [reflexivity|]. simpl. repeat split.
    unfold commits. simpl. rewrite filter_app. simpl. by rewrite app_nil_r. }
  destruct (deleteBufferAfterPageFlip g) eqn:Hd.
  - destruct (pl_next pl) as [nb|] eqn:Hnb.
    + match goal with |- context [for_each fl ?f ?o0] =>
        destruct (for_each_same_control fl f o0 plane_flipBufferWithDelete_same_control)
          as (o1 & E1 & S1) end.
      rewrite E1. simpl.
      destruct S1 as (? & ? & ? & ? & ? & ? & ? & ? & ? & S10 & ? & ? & ?). simpl in *.
      rewrite S10. eexists. split; [reflexivity|]. simpl. repeat split; auto.
    + destruct (pl_current pl); simpl; eexists; (split; [reflexivity|]); simpl;
        repeat split; auto.
      unfold commits. simpl. rewrite filter_app. simpl. by rewrite app_nil_r.
  - match goal with |- context [for_each fl ?f ?o0] =>
      destruct (for_each_same_control fl f o0 plane_flipBuffer_same_control)
        as (o1 & E1 & S1) end.
    rewrite E1. simpl.
    destruct S1 as (S1 & ? & ? & ? & S5 & ? & ? & ? & ? & S10 & ? & ? & ?). simpl in *.
    unfold crtc_flipBuffer. run_monad. simpl. rewrite S5. simpl. rewrite S1, Hd. simpl.
    rewrite S10. eexists. split; [reflexivity|]. simpl. repeat split; auto.
Qed.

(** X15. A DPMS off that is asked for while a flip is pending on an atomic
    output and taken back ([updateDpms(On)]) before the flip event never
    reaches the hardware: the three calls issue no commit, and after the
    flip event no off is pending and the pending mode is On. *)
Theorem dpms_off_taken_back_before_flip (o : DrmOutput) (mode : DpmsMode) (c : DrmCrtc) :
  atomicModeSetting (gpu o) = true ->
  m_pageFlipPending o = true ->
  m_dpms o = true ->
  isEnabled o = true ->
  mode <> On ->
  mode <> m_dpmsModePending o ->
  m_crtc o = Some c ->
  exists o',
    (updateDpms mode ;; updateDpms On ;; pageFlipped) o = Some (tt, o')
    /\ commits o' = commits o
    /\ m_atomicOffPending o' = false
    /\ m_dpmsModePending o' = On
    /\ m_dpmsMode o' = m_dpmsMode o
    /\ m_pageFlipPending o' = false.
Proof.
  intros Ha Hf Hd He Hon Hp Hc.
  unfold bind at 1. rewrite (updateDpms_deferred mode o Ha Hf Hd He Hon Hp).
  set (o1 := set_m_atomicOffPending true _).
  assert (E2 : exists o2, updateDpms On o1 = Some (tt, o2)
             /\ commits o2 = commits o /\ m_atomicOffPending o2 = false
             /\ m_dpmsModePending o2 = On /\ m_dpmsMode o2 = m_dpmsMode o
             /\ m_pageFlipPending o2 = true /\ gpu o2 = gpu o /\ m_crtc o2 = Some c).
  { subst o1. destruct o as [g b en dp cr pl fl del dm dmp pf aop msr md tr gp lws k t].
    simpl in *. subst. unfold updateDpms. run_monad. simpl.
    rewrite bool_decide_eq_false_2 by congruence. simpl. rewrite Ha. simpl.
    eexists. split; [reflexivity|]. simpl. repeat split.
    unfold commits. simpl. rewrite !filter_app. simpl. by rewrite !app_nil_r. }
  destruct E2 as (o2 & E2 & C2 & A2 & P2 & M2 & F2 & G2 & K2).
  unfold bind. rewrite E2.
  destruct (pageFlipped_without_deferred_off o2 c) as (o3 & E3 & C3 & F3 & A3 & P3 & M3);
    try congruence.
  exists o3. rewrite E3. repeat split; congruence.
Qed.

Lemma dpms_off_taken_back_before_flip_witness :
  exists o',
    (updateDpms Off ;; updateDpms On ;; pageFlipped) output_flip_pending = Some (tt, o')
    /\ commits o' = commits output_flip_pending
    /\ m_atomicOffPending o' = false
    /\ m_dpmsModePending o' = On
    /\ m_dpmsMode o' = m_dpmsMode output_flip_pending
    /\ m_pageFlipPending o' = false.
Proof.
  apply (dpms_off_taken_back_before_flip output_flip_pending Off (mkCrtc None None));
    try reflexivity; discriminate.
Defined.

End DrmDpmsMoreFacts.

Section DrmCycleFacts.
Import DrmOutput.

Lemma populate_planes_ok (l : list PlaneRef) (o : DrmOutput) :
  kernel o = [] -> populate_planes l o = Some (true, o).
Proof.
  intros Hk. induction l as [|p l IH]; [reflexivity|].
  cbn [populate_planes]. unfold bind, kernel_call. rewrite Hk, IH. reflexivity.
Qed.

(** A commit for a DPMS target of On that the kernel takes: it is noted
    in the trace, and a real one with a mode-set puts the mode-set request
    down and the target in force. *)
Lemma doAtomicCommit_ok (mode : AtomicCommitMode) (o : DrmOutput) (c : DrmCrtc) :
  kernel o = [] -> m_crtc o = Some c -> m_dpmsModePending o = On ->
  doAtomicCommit mode o
  = Some (true,
          let o1 := set_trace (trace o ++ [AtomicCommit mode (m_modesetRequested o) On true]) o in
          if match mode with Real => m_modesetRequested o | Test => false end
          then set_m_dpmsMode On (set_m_modesetRequested false o1)
          else o1).
Proof.
  intros Hk Hc Hp.
  destruct o as [g b en dp cr pl fl del dm dmp pf aop msr md tr gp lws k t].
  simpl in *. subst. unfold doAtomicCommit, atomicReqModesetPopulate, kernel_call.
  run_monad. simpl.
  destruct msr; simpl.
  - match goal with |- context [populate_planes ?l ?o0] =>
      rewrite (populate_planes_ok l o0 eq_refl) end.
    simpl. by destruct mode.
  - match goal with |- context [populate_planes ?l ?o0] =>
      rewrite (populate_planes_ok l o0 eq_refl) end.
    simpl. by destruct mode.
Qed.

(** [present] on an atomic output that is ready for a frame and whose
    kernel takes every request. *)
Lemma present_ok (b : Buffer) (o : DrmOutput) (c : DrmCrtc) :
  atomicModeSetting (gpu o) = true ->
  HAVE_EGL_STREAMS (gpu o) && useEglStreams (gpu o) = false ->
  sessionActive (backend o) = true ->
  m_dpmsModePending o = On ->
  m_pageFlipPending o = false ->
  m_crtc o = Some c ->
  kernel o = [] ->
  exists o',
    present b o = Some (true, o')
    /\ m_pageFlipPending o' = true
    /\ pl_next (m_primaryPlane o') = Some b
    /\ pl_current (m_primaryPlane o') = pl_current (m_primaryPlane o)
    /\ m_nextPlanesFlipList o' = m_nextPlanesFlipList o ++ [PrimaryPlane]
    /\ deletions o' = deletions o
    /\ gpu o' = gpu o /\ backend o' = backend o /\ m_crtc o' = m_crtc o
    /\ kernel o' = [] /\ m_dpmsModePending o' = On
    /\ m_atomicOffPending o' = m_atomicOffPending o /\ m_deleted o' = m_deleted o.
Proof.
  intros Ha Hst Hs Hp Hf Hc Hk.
  destruct o as [g bk en dp cr pl fl del dm dmp pf aop msr md tr gp lws k t].
  simpl in *. subst.
  assert (St : forall m : bool,
             HAVE_EGL_STREAMS g && useEglStreams g && m = false) by (intros m; by rewrite Hst).
  unfold present, presentAtomically, stage, plane_setNext. run_monad. simpl.
  rewrite Ha. simpl. rewrite Hs. simpl. rewrite St. simpl.
  match goal with |- context [doAtomicCommit Test ?o0] =>
    rewrite (doAtomicCommit_ok Test o0 c eq_refl eq_refl eq_refl) end.
  simpl.
  match goal with |- context [doAtomicCommit Real ?o0] =>
    rewrite (doAtomicCommit_ok Real o0 c eq_refl eq_refl eq_refl) end.
  simpl.
  destruct msr; simpl; (eexists; split; [reflexivity|]); simpl; repeat split;
    unfold deletions; simpl; rewrite <- ?app_assoc, omap_app; simpl; by rewrite app_nil_r.
Qed.

(** The flip event on an atomic output on which one buffer is staged and
    no off is pending. *)
Lemma pageFlipped_promotes (b : Buffer) (o : DrmOutput) (c : DrmCrtc) :
  atomicModeSetting (gpu o) = true ->
  m_pageFlipPending o = true ->
  m_atomicOffPending o = false ->
  m_deleted o = false ->
  m_crtc o = Some c ->
  m_nextPlanesFlipList o = [PrimaryPlane] ->
  pl_next (m_primaryPlane o) = Some b ->
  exists o' c',
    pageFlipped o = Some (tt, o')
    /\ m_pageFlipPending o' = false
    /\ m_nextPlanesFlipList o' = []
    /\ pl_current (m_primaryPlane o') = Some b
    /\ pl_next (m_primaryPlane o') = None
    /\ deletions o'
       = deletions o
         ++ (if deleteBufferAfterPageFlip (gpu o)
                && negb (bool_decide (pl_current (m_primaryPlane o) = Some b))
             then option_list (pl_current (m_primaryPlane o))
             else [])
    /\ gpu o' = gpu o /\ backend o' = backend o /\ m_crtc o' = Some c'
    /\ kernel o' = kernel o /\ m_dpmsModePending o' = m_dpmsModePending o.
Proof.
  intros Ha Hf Hoff Hdel Hc Hl Hn.
  destruct o as [g bk en dp cr pl fl del dm dmp pf aop msr md tr gp lws k t].
  destruct pl as [cur next transf]. simpl in *. subst.
  unfold pageFlipped.
  unfold plane_flipBufferWithDelete, plane_flipBuffer, crtc_flipBuffer, delete_buffer.
  run_monad. simpl. rewrite Ha. simpl.
  destruct (deleteBufferAfterPageFlip g) eqn:Hd; simpl; run_monad; simpl.
  - destruct (decide (cur = Some b)) as [->|Hne].
    + rewrite !bool_decide_eq_true_2 by done. simpl.
      eexists _, _. split; [reflexivity|]. simpl. repeat split.
      unfold deletions. simpl. by rewrite app_nil_r.
    + rewrite !bool_decide_eq_false_2 by done. simpl.
      destruct cur as [old|]; simpl; (eexists _, _; split; [reflexivity|]); simpl;
        repeat split; unfold deletions; simpl; rewrite ?omap_app; simpl;
        by rewrite ?app_nil_r.
  - rewrite Hd. simpl. eexists _, _. split; [reflexivity|]. simpl. repeat split.
    unfold deletions. simpl. by rewrite app_nil_r.
Qed.

(** X16. The presentation cycle of an atomic output whose kernel takes
    every request: [present] stages the buffer in the "next" slot and sets
    the flip flag; the flip event promotes the buffer to "current", clears
    "next", the flip list and the flag, and deletes the buffer shown before
    if buffers are deleted after flips; the next [present] is accepted
    again. *)
Theorem present_flip_present (o : DrmOutput) (b1 b2 : Buffer) (c : DrmCrtc) :
  atomicModeSetting (gpu o) = true ->
  HAVE_EGL_STREAMS (gpu o) && useEglStreams (gpu o) = false ->
  sessionActive (backend o) = true ->
  m_dpmsModePending o = On ->
  m_pageFlipPending o = false ->
  m_atomicOffPending o = false ->
  m_deleted o = false ->
  m_crtc o = Some c ->
  m_nextPlanesFlipList o = [] ->
  kernel o = [] ->
  exists o1 o2 o3,
    present b1 o = Some (true, o1)
    /\ m_pageFlipPending o1 = true
    /\ pl_next (m_primaryPlane o1) = Some b1
    /\ pageFlipped o1 = Some (tt, o2)
    /\ m_pageFlipPending o2 = false
    /\ m_nextPlanesFlipList o2 = []
    /\ pl_current (m_primaryPlane o2) = Some b1
    /\ pl_next (m_primaryPlane o2) = None
    /\ deletions o2
       = deletions o
         ++ (if deleteBufferAfterPageFlip (gpu o)
                && negb (bool_decide (pl_current (m_primaryPlane o) = Some b1))
             then option_list (pl_current (m_primaryPlane o))
             else [])
    /\ present b2 o2 = Some (true, o3)
    /\ pl_current (m_primaryPlane o3) = Some b1
    /\ pl_next (m_primaryPlane o3) = Some b2.
Proof.
  intros Ha Hst Hs Hp Hf Hoff Hdel Hc Hl Hk.
  destruct (present_ok b1 o c) as (o1 & E1 & F1 & N1 & C1 & L1 & D1 & G1 & B1 & K1 & Ke1 & P1 & A1 & De1);
    try done.
  destruct (pageFlipped_promotes b1 o1 c) as (o2 & c2 & E2 & F2 & L2 & C2 & N2 & D2 & G2 & B2 & K2 & Ke2 & P2);
    try congruence.
  { by rewrite L1, Hl. }
  destruct (present_ok b2 o2 c2) as (o3 & E3 & F3 & N3 & C3 & L3 & D3 & G3 & B3 & K3 & Ke3 & P3 & A3 & De3);
    try congruence.
  exists o1, o2, o3. repeat split; try done; try congruence.
  rewrite D2, D1, G1, C1. reflexivity.
Qed.

Lemma present_flip_present_witness :
  exists o1 o2 o3,
    present 2%nat (set_kernel [] output_mode_change) = Some (true, o1)
    /\ pageFlipped o1 = Some (tt, o2)
    /\ pl_current (m_primaryPlane o2) = Some 2%nat
    /\ present 3%nat o2 = Some (true, o3).
Proof.
  destruct (present_flip_present (set_kernel [] output_mode_change) 2%nat 3%nat (mkCrtc None None))
    as (o1 & o2 & o3 & H1 & _ & _ & H2 & _ & _ & H3 & _ & _ & H4 & _); try reflexivity.
  exists o1, o2, o3. split; [exact H1|]. split; [exact H2|]. split; [exact H3 | exact H4].
Defined.

End DrmCycleFacts.

Section RefreshRateFacts.
Import DrmOutput.

Lemma int64_small (x : Z) : - 2 ^ 63 <= x < 2 ^ 63 -> int64 x = x.
Proof. intros H. unfold int64. rewrite Z.mod_small; lia. Qed.

Lemma uint64_small (x : Z) : 0 <= x < 2 ^ 64 -> uint64 x = x.
Proof. intros H. unfold uint64. by rewrite Z.mod_small. Qed.

(** X17. [refreshRateForMode] never wraps around: for every mode whose
    fields are within their C types and whose totals are not zero, the
    result is the pixel clock in mHz divided by the size of a frame,
    rounded to the nearest integer ([2 |a - r * vtotal| <= vtotal] for the
    line rate [a]), then doubled for an interlaced mode, halved for a
    double-scan mode and divided by [vscan] if that is above 1. *)
Theorem refreshRateForMode_exact (m : ModeTimings) :
  0 <= t_clock m < 2 ^ 32 -> 0 < t_htotal m < 2 ^ 16 -> 0 < t_vtotal m < 2 ^ 16 ->
  0 <= t_vscan m < 2 ^ 16 ->
  let a := t_clock m * 1000000 / t_htotal m in
  let r := (a + t_vtotal m / 2) / t_vtotal m in
  let r1 := if negb (Z.land (t_flags m) DRM_MODE_FLAG_INTERLACE =? 0) then r * 2 else r in
  let r2 := if negb (Z.land (t_flags m) DRM_MODE_FLAG_DBLSCAN =? 0) then r1 / 2 else r1 in
  let r3 := if 1 <? t_vscan m then r2 / t_vscan m else r2 in
  refreshRateForMode m = Some r3
  /\ 2 * Z.abs (a - r * t_vtotal m) <= t_vtotal m
  /\ 0 <= r3 < 2 ^ 54.
Proof.
  intros Hc Hh Hv Hs a r r1 r2 r3.
  assert (Ha : 0 <= a < 2 ^ 52).
  { subst a. split; [apply Z.div_pos; lia|].
    apply Z.div_lt_upper_bound; [lia|]. nia. }
  assert (Hr : 0 <= r < 2 ^ 53).
  { subst r. split; [apply Z.div_pos; [|lia]; pose proof (Z.div_pos (t_vtotal m) 2); lia|].
    apply Z.div_lt_upper_bound; [lia|].
    assert (t_vtotal m / 2 < 2 ^ 16) by (apply Z.div_lt_upper_bound; lia). nia. }
  assert (Hround : 2 * Z.abs (a - r * t_vtotal m) <= t_vtotal m).
  { subst r. set (v := t_vtotal m) in *.
    pose proof (Z.div_mod (a + v / 2) v ltac:(lia)) as E.
    pose proof (Z.mod_pos_bound (a + v / 2) v ltac:(lia)) as B.
    pose proof (Z.div_mod v 2 ltac:(lia)) as E2.
    pose proof (Z.mod_pos_bound v 2 ltac:(lia)) as B2.
    lia. }
  assert (Hr1 : 0 <= r1 < 2 ^ 54).
  { subst r1. destruct (negb (Z.land (t_flags m) DRM_MODE_FLAG_INTERLACE =? 0)); lia. }
  assert (Hr2 : 0 <= r2 <= r1).
  { subst r2. destruct (negb (Z.land (t_flags m) DRM_MODE_FLAG_DBLSCAN =? 0)); [|lia].
    split; [apply Z.div_pos; lia|]. apply Z.div_le_upper_bound; lia. }
  assert (Hr3 : 0 <= r3 <= r2).
  { subst r3. destruct (1 <? t_vscan m) eqn:E; [|lia]. apply Z.ltb_lt in E.
    split; [apply Z.div_pos; lia|]. apply Z.div_le_upper_bound; [lia|]. nia. }
  split; [|split; [done|lia]].
  unfold refreshRateForMode.
  replace (t_htotal m =? 0) with false by (symmetry; apply Z.eqb_neq; lia).
  replace (t_vtotal m =? 0) with false by (symmetry; apply Z.eqb_neq; lia).
  cbn [orb]. f_equal.
  rewrite (int64_small (t_clock m * 1000000)) by lia.
  rewrite (Z.quot_div_nonneg (t_clock m * 1000000)) by lia. fold a.
  rewrite (Z.quot_div_nonneg (t_vtotal m) 2) by lia.
  assert (0 <= t_vtotal m / 2 < 2 ^ 16).
  { split; [apply Z.div_pos; lia | apply Z.div_lt_upper_bound; lia]. }
  rewrite (int64_small (a + _)) by lia.
  rewrite (Z.quot_div_nonneg (a + _)) by lia. fold r.
  rewrite (int64_small r), (uint64_small r) by lia.
  replace (if negb (Z.land (t_flags m) DRM_MODE_FLAG_INTERLACE =? 0) then uint64 (r * 2) else r)
    with r1
    by (subst r1; destruct (negb (Z.land (t_flags m) DRM_MODE_FLAG_INTERLACE =? 0));
        [by rewrite uint64_small by lia | done]).
  replace (if negb (Z.land (t_flags m) DRM_MODE_FLAG_DBLSCAN =? 0) then r1 ÷ 2 else r1)
    with r2
    by (subst r2; destruct (negb (Z.land (t_flags m) DRM_MODE_FLAG_DBLSCAN =? 0));
        [by rewrite Z.quot_div_nonneg by lia | done]).
  subst r3. destruct (1 <? t_vscan m) eqn:E; [|done]. apply Z.ltb_lt in E.
  by rewrite Z.quot_div_nonneg by lia.
Qed.

Lemma refreshRateForMode_exact_witness :
  refreshRateForMode timings_1080p = Some 60000.
Proof.
  apply (refreshRateForMode_exact timings_1080p); simpl; lia.
Defined.

(** Without a total the division is undefined. *)
Example refreshRateForMode_zero_total :
  refreshRateForMode (mkTimings 148500 0 1125 0 0) = None
  /\ refreshRateForMode (mkTimings 148500 2200 0 0 0) = None.
Proof. split; reflexivity. Qed.

End RefreshRateFacts.

(* --------------------------------------------------------------------- *)
(** ** The paint pass of the scene                                         *)
(* --------------------------------------------------------------------- *)

Section ScenePaintFacts.
Import Scene.

Lemma first_pass_windows (m : Z) (r : QRegion) (s : QSize) (l : list Window) :
  forall i acc,
    map window (first_pass m r s i l acc).1.1 = map window acc.1.1 ++ enabled_from i l.
Proof.
  induction l as [|w l IH]; intros i [[p2 dirty] ofs].
  - simpl. by rewrite app_nil_r.
  - cbn [first_pass enabled_from]. destruct (prepaint_data m r s w) as [data ofs'].
    rewrite IH. destruct (isPaintingEnabled w); simpl; [|done].
    by rewrite map_app, <- app_assoc.
Qed.

Lemma paint_pass_windows (l : list Phase2Data) :
  forall area, map window (paint_pass l area).1 = map window l.
Proof.
  induction l as [|d l IH]; intros area; [reflexivity|].
  cbn [paint_pass]. specialize (IH (united area (region d))).
  destruct (paint_pass l (united area (region d))) as [rest final]. simpl in *. by rewrite IH.
Qed.

Lemma enabled_from_spec (l : list Window) :
  forall i j, j ∈ enabled_from i l
    <-> exists w, (i <= j)%nat /\ l !! (j - i)%nat = Some w /\ isPaintingEnabled w = true.
Proof.
  induction l as [|w l IH]; intros i j.
  - simpl. split; [intros H; by apply elem_of_nil in H | intros (w & _ & H & _); done].
  - cbn [enabled_from]. rewrite elem_of_app, IH. split.
    + intros [H|(w' & Hle & Hl & He)].
      * destruct (isPaintingEnabled w) eqn:E; [|by apply elem_of_nil in H].
        apply list_elem_of_singleton in H as ->. exists w.
        split; [lia|]. by rewrite Nat.sub_diag.
      * exists w'. split; [lia|]. split; [|done].
        replace (j - i)%nat with (S (j - S i)) by lia. done.
    + intros (w' & Hle & Hl & He). destruct (decide (j = i)) as [->|Hne].
      * left. rewrite Nat.sub_diag in Hl. injection Hl as ->. rewrite He.
        by apply list_elem_of_singleton.
      * right. exists w'. split; [lia|]. split; [|done].
        replace (j - i)%nat with (S (j - S i)) in Hl by lia. done.
Qed.

Lemma enabled_from_sorted (l : list Window) :
  forall i k j a b, (k < j)%nat ->
    enabled_from i l !! k = Some a -> enabled_from i l !! j = Some b -> (a < b)%nat.
Proof.
  induction l as [|w l IH]; intros i k j a b Hkj Ha Hb; [done|].
  cbn [enabled_from] in Ha, Hb. destruct (isPaintingEnabled w); simpl in Ha, Hb.
  - destruct j as [|j]; [lia|]. simpl in Hb. destruct k as [|k]; simpl in Ha.
    + injection Ha as <-. apply list_elem_of_lookup_2, enabled_from_spec in Hb as (_ & H & _).
      lia.
    + apply (IH (S i) k j); [lia|done|done].
  - by apply (IH (S i) k j).
Qed.

(** X18. [paintSimpleScreen] calls [paintWindow] once for every window of
    the stacking order that is to be painted after the effects have had
    their say, in stacking order from bottom to top, and for no other
    window. *)
Theorem paintSimpleScreen_paints_enabled_windows (sc : SceneState) (orig_mask : Z)
  (region : QRegion) :
  let painted := map window (paintWindow (paintSimpleScreen sc orig_mask region)) in
  painted = enabled_from 0 (stacking_order sc)
  /\ (forall k j a b, (k < j)%nat -> painted !! k = Some a -> painted !! j = Some b ->
        (a < b)%nat)
  /\ (forall i, i ∈ painted
        <-> exists w, stacking_order sc !! i = Some w /\ isPaintingEnabled w = true).
Proof.
  intros painted.
  assert (E : painted = enabled_from 0 (stacking_order sc)).
  { subst painted. unfold paintSimpleScreen.
    pose proof (first_pass_windows orig_mask region (screenSize sc) (stacking_order sc) 0
                  ([], region, false)) as Hf.
    destruct (first_pass _ _ _ _ _ _) as [[p2 dirty] ofs]. simpl in Hf.
    match goal with |- context [occlusion_pass ?f ?d (rev p2) ?st] =>
      pose proof (occlusion_pass_windows f d (rev p2) st) as Ho;
      destruct (occlusion_pass f d (rev p2) st) as [occ [clips utd]] end.
    simpl in Ho. rewrite map_rev, rev_involutive in Ho.
    match goal with |- context [paint_pass occ ?a] =>
      pose proof (paint_pass_windows occ a) as Hp;
      destruct (paint_pass occ a) as [calls final] end.
    simpl in *. congruence. }
  split; [done|]. rewrite E. split; [apply enabled_from_sorted|].
  intros i. rewrite enabled_from_spec. rewrite Nat.sub_0_r. split.
  - intros (w & _ & H1 & H2). by exists w.
  - intros (w & H1 & H2). exists w. split; [lia|done].
Qed.

(** The regions of the [paintWindow] calls: each one covers the area
    painted before it. *)
Lemma paint_pass_grows (l : list Phase2Data) :
  forall area,
    (forall d, d ∈ (paint_pass l area).1 -> covers (region d) area)
    /\ (forall i j d1 d2, (i <= j)%nat ->
          (paint_pass l area).1 !! i = Some d1 -> (paint_pass l area).1 !! j = Some d2 ->
          covers (region d2) (region d1)).
Proof.
  induction l as [|d l IH]; intros area.
  - simpl. split; [intros d H; by apply elem_of_nil in H | done].
  - cbn [paint_pass]. destruct (IH (united area (region d))) as (F & S).
    destruct (paint_pass l (united area (region d))) as [rest final]. simpl in *.
    assert (Ca : covers (united area (region d)) area) by (apply covers_united_l; by intros x y).
    split.
    + intros d' [->|H]%elem_of_cons; [done|]. intros x y Hc. by apply (F d' H), Ca.
    + intros i j d1 d2 Hij H1 H2. destruct i as [|i]; simpl in H1.
      * injection H1 as <-. destruct j as [|j]; simpl in H2.
        -- injection H2 as <-. by intros x y.
        -- simpl. apply F. by eapply list_elem_of_lookup_2.
      * destruct j as [|j]; [lia|]. simpl in H2. apply (S i j); [lia|done|done].
Qed.

(** X19. In [paintSimpleScreen] every window is painted with all that has
    been painted so far: the region of each [paintWindow] call covers the
    background fill and the region of every call before it. *)
Theorem paintWindow_regions_accumulate (sc : SceneState) (orig_mask : Z) (region : QRegion) :
  let p := paintSimpleScreen sc orig_mask region in
  (forall i j d1 d2, (i <= j)%nat ->
     paintWindow p !! i = Some d1 -> paintWindow p !! j = Some d2 ->
     covers (Scene.region d2) (Scene.region d1))
  /\ (forall fill d, backgroundFill p = Some fill -> d ∈ paintWindow p ->
        covers (Scene.region d) fill).
Proof.
  intros p. subst p. unfold paintSimpleScreen.
  destruct (first_pass _ _ _ _ _ _) as [[p2 dirty] ofs].
  destruct (occlusion_pass _ _ _ _) as [occ [clips utd]].
  match goal with |- context [paint_pass occ ?a] =>
    pose proof (paint_pass_grows occ a) as (F & S);
    destruct (paint_pass occ a) as [calls final] end.
  simpl in *. split; [done|].
  intros fill d Hf Hd. specialize (F d Hd).
  destruct (has_flag orig_mask PAINT_SCREEN_BACKGROUND_FIRST); [done|].
  by injection Hf as <-.
Qed.

End ScenePaintFacts.

Section ScenePaintScreenFacts.
Import Scene.

(** X20. The damage [paintSimpleScreen] reports lies within the region it
    reports as painted, and it leaves out the part of [repaint_region]
    that was only rendered to bring a reused back buffer up to date: a
    damaged point of [repaint_region] is always a point of the damage
    passed in or of the paint region of a window. *)
Theorem damaged_region_within_painted (sc : SceneState) (orig_mask : Z) (region : QRegion) :
  let p := paintSimpleScreen sc orig_mask region in
  let dirtyArea :=
    (first_pass orig_mask region (screenSize sc) 0 (stacking_order sc) ([], region, false)).1.2 in
  covers (painted_region' p) (damaged_region' p)
  /\ forall x y, contains (damaged_region' p) x y = true ->
       contains (repaint_region sc) x y = true -> contains dirtyArea x y = true.
Proof.
  intros p dirtyArea. subst p dirtyArea. unfold paintSimpleScreen.
  destruct (first_pass _ _ _ _ _ _) as [[p2 dirty] ofs].
  destruct (occlusion_pass _ _ _ _) as [occ [clips utd]].
  destruct (paint_pass _ _) as [calls final]. cbn [painted_region' damaged_region' fst snd].
  split.
  - intros x y. destruct (if region_eqb _ _ then true else _);
      rewrite contains_subtracted, ?contains_united; intros [H _]%andb_true_iff; [done|].
    rewrite H. apply orb_true_r.
  - intros x y. destruct (if region_eqb _ _ then true else _);
      rewrite !contains_subtracted; intros [_ H]%andb_true_iff Hr; rewrite Hr in H;
      simpl in H; by destruct (contains dirty x y).
Qed.

Lemma has_flag_cleared (mask flag : Z) : has_flag (Z.land mask (Z.lnot flag)) flag = false.
Proof.
  unfold has_flag. rewrite <- Z.land_assoc, (Z.land_comm (Z.lnot flag)), Z.land_lnot_diag.
  by rewrite Z.land_0_r.
Qed.

(** X21. [paintScreen] never paints a region with a transformation: the
    mask that goes to the effects and back to the caller has
    [PAINT_SCREEN_REGION] only without the two "transformed" flags, and
    then the region lies within the screens; without the region flag and
    without transformation the region is the whole of the screens.  The
    valid region handed back lies within the screens, and the expected
    presentation timestamp never goes back. *)
Theorem paintScreen_region_and_mask (s : QSize) (expected presentTime : Z)
  (prePaintScreen : ScreenPrePaintData -> ScreenPrePaintData)
  (paintScreen_effects : Z -> QRegion -> QRegion * QRegion) (damage : QRegion) :
  let displayRegion := QRegion_xywh 0 0 (wd s) (ht s) in
  let transformed := Z.lor PAINT_SCREEN_TRANSFORMED PAINT_SCREEN_WITH_TRANSFORMED_WINDOWS in
  let r := paintScreen s expected presentTime prePaintScreen paintScreen_effects damage in
  (has_flag (out_mask r) PAINT_SCREEN_REGION = true ->
     has_flag (out_mask r) transformed = false /\ covers displayRegion (effects_region r))
  /\ (has_flag (out_mask r) PAINT_SCREEN_REGION = false ->
      has_flag (out_mask r) transformed = false -> effects_region r = displayRegion)
  /\ (has_flag (out_mask r) transformed = true -> effects_region r = infiniteRegion)
  /\ covers displayRegion (validRegion r)
  /\ m_expectedPresentTimestamp r = Z.max expected presentTime.
Proof.
  intros disp transformed r. subst r. unfold paintScreen. fold disp transformed.
  set (pdata := prePaintScreen _).
  destruct (has_flag (sp_mask pdata) transformed) eqn:Et;
    [|destruct (has_flag (sp_mask pdata) PAINT_SCREEN_REGION) eqn:Er];
    destruct (paintScreen_effects _ _) as [painted damaged];
    cbn [out_mask effects_region validRegion m_expectedPresentTimestamp].
  all: assert (Hv : forall a, covers disp (intersected a disp))
         by (intros a x y; rewrite contains_intersected; by intros [_ ?]%andb_true_iff).
  all: assert (Ht : (if presentTime <? expected then expected else presentTime)
                    = Z.max expected presentTime)
         by (destruct (presentTime <? expected) eqn:E;
             [apply Z.ltb_lt in E | apply Z.ltb_ge in E]; lia).
  - rewrite has_flag_cleared. split; [done|]. split; [|split; [done|split; [apply Hv|done]]].
    intros _ Hn. exfalso. revert Hn. unfold has_flag.
    rewrite <- Z.land_assoc.
    change (Z.land (Z.lnot PAINT_SCREEN_REGION) transformed) with transformed.
    fold (has_flag (sp_mask pdata) transformed). by rewrite Et.
  - split; [intros _; split; [done|apply Hv]|]. split; [congruence|].
    split; [congruence|]. split; [apply Hv|done].
  - split; [congruence|]. split; [done|]. split; [congruence|]. split; [apply Hv|done].
Qed.

End ScenePaintScreenFacts.

(* --------------------------------------------------------------------- *)
(** ** Scheduled repaints, painting flags and the windows of the scene     *)
(* --------------------------------------------------------------------- *)

Section SceneRepaintFacts.
Import SceneRepaints.

(** What one screen's repaints become. *)
Lemma contains_QRegion_of_rect (g : QRect) (x y : Z) :
  contains (QRegion_of_rect g) x y = rect_contains g x y.
Proof.
  unfold QRegion_of_rect. destruct (rect_isEmpty g) eqn:E.
  - symmetry. by apply rect_isEmpty_contains.
  - simpl. by rewrite orb_false_r.
Qed.

Lemma addRepaint_fold (outputs : list QRect) (region : QRegion) (n : nat) :
  forall a reps sched,
    let r := fold_left (addRepaint_step outputs region) (seq a n) (reps, sched) in
    length r.1 = length reps
    /\ (forall i, (i < a \/ a + n <= i)%nat -> r.1 !! i = reps !! i)
    /\ (forall i old g, (a <= i < a + n)%nat -> reps !! i = Some old -> outputs !! i = Some g ->
          exists new, r.1 !! i = Some new
            /\ forall x y, contains new x y
                 = contains old x y || (contains region x y && rect_contains g x y))
    /\ (forall l, l ∈ r.2 <-> l ∈ sched \/
          exists i old g, l = OutputLoop i /\ (a <= i < a + n)%nat
            /\ reps !! i = Some old /\ outputs !! i = Some g
            /\ isEmpty (intersected region (QRegion_of_rect g)) = false).
Proof.
  induction n as [|n IH]; intros a reps sched.
  - simpl. split; [done|]. split; [done|]. split; [intros; lia|].
    intros l. split; [by left|]. intros [H|(i & _ & _ & _ & H & _)]; [done|lia].
  - cbn [seq fold_left].
    set (st := addRepaint_step outputs region (reps, sched) a).
    assert (Hst : length st.1 = length reps
              /\ (forall i, i <> a -> st.1 !! i = reps !! i)
              /\ (forall old g, reps !! a = Some old -> outputs !! a = Some g ->
                    exists new, st.1 !! a = Some new
                      /\ forall x y, contains new x y
                           = contains old x y || (contains region x y && rect_contains g x y))
              /\ (forall l, l ∈ st.2 <-> l ∈ sched \/
                    exists old g, l = OutputLoop a /\ reps !! a = Some old
                      /\ outputs !! a = Some g
                      /\ isEmpty (intersected region (QRegion_of_rect g)) = false)).
    { subst st. unfold addRepaint_step.
      destruct (outputs !! a) as [g|] eqn:Eg; [destruct (reps !! a) as [old|] eqn:Eo|].
      - destruct (isEmpty (intersected region (QRegion_of_rect g))) eqn:Ee; simpl.
        + split; [done|]. split; [done|]. split.
          * intros old' g' [= <-] [= <-]. exists old. split; [done|]. intros x y.
            rewrite isEmpty_contains in Ee. specialize (Ee x y).
            rewrite contains_intersected, contains_QRegion_of_rect in Ee.
            rewrite Ee. by rewrite orb_false_r.
          * intros l. split; [by left|]. intros [H|(o' & g' & _ & _ & [= <-] & H)]; [done|].
            congruence.
        + split; [by rewrite length_insert|]. split; [intros i Hi; by rewrite list_lookup_insert_ne|].
          split.
          * intros old' g' [= <-] [= <-]. exists (united old (intersected region (QRegion_of_rect g))).
            split; [apply list_lookup_insert_eq; by eapply lookup_lt_Some|].
            intros x y. by rewrite contains_united, contains_intersected, contains_QRegion_of_rect.
          * intros l. rewrite elem_of_app, list_elem_of_singleton. split.
            -- intros [H| ->]; [by left|]. right. by exists old, g.
            -- intros [H|(o' & g' & -> & _)]; [by left|by right].
      - simpl. split; [done|]. split; [done|]. split; [done|].
        intros l. split; [by left|]. intros [H|(o' & g' & _ & H & _)]; [done|congruence].
      - simpl. split; [done|]. split; [done|]. split; [done|].
        intros l. split; [by left|]. intros [H|(o' & g' & _ & _ & H & _)]; [done|congruence]. }
    destruct Hst as (L1 & K1 & U1 & S1). destruct st as [reps1 sched1]. simpl in *.
    destruct (IH (S a) reps1 sched1) as (L2 & K2 & U2 & S2).
    split; [congruence|]. split; [|split].
    + intros i Hi. rewrite K2 by lia. apply K1. lia.
    + intros i old g Hi Ho Hg. destruct (decide (i = a)) as [->|Hne].
      * destruct (U1 old g Ho Hg) as (new & Hn & Hc). exists new. split; [|done].
        rewrite K2 by lia. done.
      * apply (U2 i old g); [lia| |done]. by rewrite K1.
    + intros l. rewrite S2, S1. split.
      * intros [[H|(old & g & -> & Ho & Hg & He)]|(i & old & g & -> & Hi & Ho & Hg & He)].
        -- by left.
        -- right. exists a, old, g. repeat split; try done; lia.
        -- right. exists i, old, g. rewrite K1 in Ho by lia. repeat split; try done; lia.
      * intros [H|(i & old & g & -> & Hi & Ho & Hg & He)]; [by left; left|].
        destruct (decide (i = a)) as [->|Hne].
        -- left. right. by exists old, g.
        -- right. exists i, old, g. rewrite K1 by lia. repeat split; try done; lia.
Qed.


(** X22. [addRepaint] (and [addLayerRepaint]) with per-screen rendering:
    when there is one entry of [m_repaints] per enabled output, every
    entry gains exactly the part of the region that lies on its output, so
    that repaints that were within their output stay within it, and the
    render loops asked for a repaint are those of the outputs the region
    touches; when the numbers differ nothing is recorded and nothing is
    scheduled. *)
Theorem addRepaint_per_screen (outputs : list QRect) (m_repaints : list QRegion)
  (region : QRegion) :
  (length m_repaints <> length outputs ->
   addRepaint true outputs m_repaints region = Some (m_repaints, []))
  /\ (length m_repaints = length outputs ->
      exists repaints' scheduled,
        addRepaint true outputs m_repaints region = Some (repaints', scheduled)
        /\ length repaints' = length m_repaints
        /\ (forall i old g, m_repaints !! i = Some old -> outputs !! i = Some g ->
              exists new, repaints' !! i = Some new
                /\ (forall x y, contains new x y
                      = contains old x y || (contains region x y && rect_contains g x y))
                /\ (covers (QRegion_of_rect g) old -> covers (QRegion_of_rect g) new))
        /\ (forall l, l ∈ scheduled <->
              exists i g, l = OutputLoop i /\ outputs !! i = Some g
                /\ isEmpty (intersected region (QRegion_of_rect g)) = false)).
Proof.
  split.
  - intros Hne. unfold addRepaint. by rewrite (proj2 (Nat.eqb_neq _ _) Hne).
  - intros Hl. unfold addRepaint. rewrite (proj2 (Nat.eqb_eq _ _) Hl). cbn [negb].
    destruct (addRepaint_fold outputs region (length m_repaints) 0 m_repaints [])
      as (L & _ & U & S).
    destruct (fold_left _ _ _) as [repaints' scheduled]. simpl in *.
    exists repaints', scheduled. split; [done|]. split; [done|]. split.
    + intros i old g Ho Hg.
      destruct (U i old g) as (new & Hn & Hc); [|done|done|].
      { split; [lia|]. by eapply lookup_lt_Some. }
      exists new. split; [done|]. split; [done|].
      intros Hcov x y. rewrite Hc, orb_true_iff, andb_true_iff.
      intros [H|[_ H]]; [by apply Hcov | by rewrite contains_QRegion_of_rect].
    + intros l. rewrite S. split.
      * intros [H|(i & old & g & -> & _ & _ & Hg & He)]; [by apply elem_of_nil in H|].
        by exists i, g.
      * intros (i & g & -> & Hg & He). right.
        assert (Hi : (i < length m_repaints)%nat) by (rewrite Hl; by eapply lookup_lt_Some).
        destruct (lookup_lt_is_Some_2 _ _ Hi) as [old Ho].
        exists i, old, g. repeat split; try done; lia.
Qed.

Lemma addRepaint_per_screen_witness :
  exists repaints' scheduled,
    addRepaint true [QRect_xywh 0 0 100 100; QRect_xywh 100 0 100 100]
               [QRegion_empty; QRegion_empty] (QRegion_xywh 90 0 5 5)
    = Some (repaints', scheduled)
    /\ length repaints' = 2%nat.
Proof.
  destruct (proj2 (addRepaint_per_screen [QRect_xywh 0 0 100 100; QRect_xywh 100 0 100 100]
                     [QRegion_empty; QRegion_empty] (QRegion_xywh 90 0 5 5)) eq_refl)
    as (repaints' & scheduled & H1 & H2 & _).
  exists repaints', scheduled. split; [exact H1 | exact H2].
Defined.

(** The region above touches the first output only. *)
Example addRepaint_example :
  snd <$> addRepaint true [QRect_xywh 0 0 100 100; QRect_xywh 100 0 100 100]
                     [QRegion_empty; QRegion_empty] (QRegion_xywh 90 0 5 5)
  = Some [OutputLoop 0]
  /\ addRepaint false [] [] (QRegion_xywh 90 0 5 5) = None.
Proof. split; vm_compute; reflexivity. Qed.

(** X23. After [resetPaintingEnabled] a window is enabled for painting
    exactly when it is not deleted, is on the desktop that is rendered (the
    current one, unless a desktop is being rendered by an effect), is on
    the current activity and, if it is a client, is neither minimized nor
    hidden.  [disablePainting] with a reason always disables, and
    [enablePainting] with the same reason brings back the flags as they
    were if the reason was not among them. *)
Theorem painting_enabled_after_reset (isDesktopRendering : bool) (t : Toplevel) :
  (isPaintingEnabled (resetPaintingEnabled isDesktopRendering t) = true
   <-> isDeleted t = false
       /\ (if isDesktopRendering then isOnRenderedDesktop t else isOnCurrentDesktop t) = true
       /\ isOnCurrentActivity t = true
       /\ match client t with
          | Some (isMinimized, isHiddenInternal) =>
            isMinimized = false /\ isHiddenInternal = false
          | None => True
          end)
  /\ (forall reason d, reason <> 0 -> isPaintingEnabled (disablePainting reason d) = false)
  /\ (forall reason d, Z.land d reason = 0 ->
        enablePainting reason (disablePainting reason d) = d).
Proof.
  split; [|split].
  - destruct t as [del ord ocd oca [[mini hidden]|]]; unfold resetPaintingEnabled; simpl;
      destruct isDesktopRendering, del, ord, ocd, oca; try destruct mini, hidden;
      vm_compute; intuition congruence.
  - intros reason d Hr. unfold isPaintingEnabled, disablePainting.
    apply Z.eqb_neq. intros H. apply Z.lor_eq_0_iff in H as [_ H]. done.
  - intros reason d Hd. unfold enablePainting, disablePainting.
    apply Z.bits_inj'. intros n Hn.
    apply (f_equal (fun z => Z.testbit z n)) in Hd.
    rewrite Z.land_spec, Z.bits_0 in Hd.
    rewrite Z.land_spec, Z.lor_spec, Z.lnot_spec by done.
    destruct (Z.testbit d n), (Z.testbit reason n); simpl in *; congruence.
Qed.

End SceneRepaintFacts.

Section SceneWindowsFacts.
Import SceneWindows.

(** The stacking order is made of the windows found for the toplevels; it
    depends on nothing but these. *)
Lemma createStackingOrder_lookups (toplevels toplevels' : list ToplevelId) :
  forall s s' : Windows,
    Forall2 (fun c c' => is_Some (m_windows s !! c) /\ m_windows s' !! c' = m_windows s !! c)
            toplevels toplevels' ->
    stacking_order s' = stacking_order s ->
    exists r r', createStackingOrder toplevels s = Some r
      /\ createStackingOrder toplevels' s' = Some r'
      /\ stacking_order r' = stacking_order r
      /\ m_windows r = m_windows s /\ m_windows r' = m_windows s'
      /\ length (stacking_order r) = (length (stacking_order s) + length toplevels)%nat.
Proof.
  revert toplevels'. induction toplevels as [|c l IH]; intros toplevels' s s' F Hs.
  - apply Forall2_nil_inv_l in F as ->. exists s, s'. simpl. repeat split; try done; lia.
  - apply Forall2_cons_inv_l in F as (c' & l' & [[w Hw] Hc] & F & ->).
    cbn [createStackingOrder]. rewrite Hc, Hw.
    destruct (IH l' (mkWindows (m_windows s) (stacking_order s ++ [w]) (deleted_windows s))
                 (mkWindows (m_windows s') (stacking_order s' ++ [w]) (deleted_windows s')))
      as (r & r' & E1 & E2 & H1 & H2 & H3 & H4); [done|by simpl; rewrite Hs|].
    exists r, r'. repeat split; try done. rewrite H4. simpl. rewrite length_app. simpl. lia.
Qed.

(** X24. Closing a window that leaves a [Deleted] behind moves its scene
    window from the toplevel to the [Deleted]: the window is found under
    the new key and no longer under the old one, the other toplevels keep
    their windows and nothing is deleted; a stacking order that names the
    [Deleted] in place of the toplevel is made of the same windows as
    before.  Without a [Deleted] the window is removed and deleted. *)
Theorem windowClosed_rekeys (s : Windows) (toplevel d : ToplevelId) (w : WindowId)
  (toplevels : list ToplevelId) :
  m_windows s !! toplevel = Some w ->
  d <> toplevel ->
  m_windows s !! d = None ->
  Forall (fun c => is_Some (m_windows s !! c)) toplevels ->
  exists s',
    windowClosed toplevel (Some d) s = Some s'
    /\ m_windows s' !! d = Some w
    /\ m_windows s' !! toplevel = None
    /\ (forall c, c <> toplevel -> c <> d -> m_windows s' !! c = m_windows s !! c)
    /\ deleted_windows s' = deleted_windows s
    /\ (stacking_order <$>
          createStackingOrder (map (fun c => if decide (c = toplevel) then d else c) toplevels)
                              (clearStackingOrder s'))
       = (stacking_order <$> createStackingOrder toplevels (clearStackingOrder s))
    /\ (exists s1, windowClosed toplevel None s = Some s1
          /\ m_windows s1 !! toplevel = None
          /\ deleted_windows s1 = deleted_windows s ++ [w]).
Proof.
  intros Hw Hd Hnew Hall. unfold windowClosed, removeToplevel. rewrite Hw.
  eexists. split; [reflexivity|]. cbn [m_windows deleted_windows].
  split; [by rewrite lookup_insert_eq|].
  split; [rewrite lookup_insert_ne by done; by rewrite lookup_delete_eq|].
  split; [intros c H1 H2; rewrite lookup_insert_ne by done; by rewrite lookup_delete_ne|].
  split; [done|]. split.
  - match goal with |- context [clearStackingOrder ?x] => set (s' := x) end.
    destruct (createStackingOrder_lookups toplevels
                (map (fun c => if decide (c = toplevel) then d else c) toplevels)
                (clearStackingOrder s) (clearStackingOrder s'))
      as (r & r' & E1 & E2 & H1 & _); [|done|by rewrite E1, E2; simpl; rewrite H1].
    apply Forall2_fmap_r, Forall_Forall2_diag.
    eapply Forall_impl; [exact Hall|]. intros c Hc. split; [done|].
    destruct Hc as [wc Hwc].
    subst s'. cbn [clearStackingOrder m_windows]. destruct (decide (c = toplevel)) as [->|Hne].
    + by rewrite lookup_insert_eq.
    + rewrite lookup_insert_ne, lookup_delete_ne; [done|done|]. congruence.
  - eexists. split; [reflexivity|]. cbn [m_windows deleted_windows].
    split; [by rewrite lookup_delete_eq|done].
Qed.

Lemma windowClosed_rekeys_witness :
  exists s',
    windowClosed 1%nat (Some 9%nat) (mkWindows {[1%nat := 11%nat; 2%nat := 12%nat]} [] [])
    = Some s'
    /\ m_windows s' !! 9%nat = Some 11%nat
    /\ m_windows s' !! 1%nat = None.
Proof.
  destruct (windowClosed_rekeys (mkWindows {[1%nat := 11%nat; 2%nat := 12%nat]} [] [])
              1%nat 9%nat 11%nat [2%nat; 1%nat]) as (s' & H1 & H2 & H3 & _).
  - vm_compute. reflexivity.
  - lia.
  - vm_compute. reflexivity.
  - repeat constructor; eexists; vm_compute; reflexivity.
  - exists s'. split; [exact H1|]. split; [exact H2 | exact H3].
Defined.

End SceneWindowsFacts.

(* --------------------------------------------------------------------- *)
(** ** Backends with a damage history per output                           *)
(* --------------------------------------------------------------------- *)

Section WaylandFrameFacts.
Import OpenGLBackend EglWaylandBackend.

Lemma replay_within (g : QRegion) (hist : DamageHistory) (n : nat) :
  Forall (fun d => covers g d) hist -> (n <= length hist)%nat ->
  covers g (replay hist n QRegion_empty).
Proof.
  intros F Hn. rewrite replay_concat by done. intros x y.
  rewrite contains_union_all, existsb_exists. intros (d & Hd & Hc).
  rewrite Forall_forall in F. apply (F d); [|done].
  apply list_elem_of_In in Hd. rewrite <- (take_drop n hist). apply elem_of_app. by left.
Qed.

Lemma removeLast_Forall {A} (P : A -> Prop) (l : list A) :
  Forall P l -> Forall P (removeLast l).
Proof.
  intros F. unfold removeLast. destruct l as [|a l] using rev_ind; [done|].
  rewrite removelast_last. by apply Forall_app in F as [F _].
Qed.

(** X25. The Wayland EGL backend keeps repaints on the output: every
    damage [endFrame] records lies within the geometry of the output, and
    so does the region [beginFrame] asks the scene to repaint.  After
    [screenGeometryChanged] the age is 0 and [beginFrame] asks for the
    whole output, if buffer ages are supported at all. *)
Theorem wayland_repaint_stays_on_output (caps : Caps) (age : option Z)
  (output : EglWaylandOutput) (renderedRegion damagedRegion : QRegion) :
  history_on_output output ->
  covers (QRegion_of_rect (geometry output)) (beginFrame caps output)
  /\ history_on_output (endFrame caps age output renderedRegion damagedRegion).1
  /\ geometry (endFrame caps age output renderedRegion damagedRegion).1 = geometry output
  /\ (supportsBufferAge caps = true ->
      beginFrame caps (screenGeometryChanged output) = QRegion_of_rect (geometry output)).
Proof.
  intros H. unfold history_on_output in *. split; [|split; [|split]].
  - unfold beginFrame. destruct (supportsBufferAge caps); [|by intros x y].
    destruct ((0 <? m_bufferAge output) && _) eqn:E; [|by intros x y].
    apply andb_true_iff in E as [E1 E2]. apply Z.ltb_lt in E1. apply Z.leb_le in E2.
    apply replay_within; [done|lia].
  - unfold endFrame, presentOnSurface. destruct (supportsBufferAge caps); cbn; [|done].
    constructor.
    + intros x y. rewrite contains_intersected. by intros [_ ?]%andb_true_iff.
    + destruct (10 <? _); [by apply removeLast_Forall | done].
  - unfold endFrame, presentOnSurface. by destruct (supportsBufferAge caps).
  - intros Hs. unfold beginFrame, screenGeometryChanged. by rewrite Hs.
Qed.

Lemma wayland_repaint_stays_on_output_witness :
  covers (QRegion_of_rect (QRect_xywh 0 0 100 100))
         (beginFrame (mkCaps true true false)
                     (mkOutput (QRect_xywh 0 0 100 100) 2 [QRegion_xywh 0 0 5 5; QRegion_xywh 2 2 5 5])).
Proof.
  apply (wayland_repaint_stays_on_output (mkCaps true true false) None
           (mkOutput (QRect_xywh 0 0 100 100) 2 [QRegion_xywh 0 0 5 5; QRegion_xywh 2 2 5 5])
           QRegion_empty QRegion_empty).
  unfold history_on_output; cbn.
  apply Forall_cons_2; [|apply Forall_cons_2; [|apply Forall_nil_2]]; intros x y;
    unfold QRegion_xywh; rewrite !contains_QRegion_of_rect; unfold rect_contains; cbn;
    rewrite !andb_true_iff, !Z.leb_le; lia.
Defined.

(** X26. The damage the Wayland EGL backend passes to
    [eglSwapBuffersWithDamageEXT] at the end of a frame is the first entry
    of the history as the frame found it, that is the damage of the frame
    before, and not the damage of the frame that is presented, which is
    recorded only after the swap; with an empty history the swap is made
    without damage. *)
Theorem wayland_swap_uses_previous_damage (caps : Caps) (age1 age2 : option Z)
  (output : EglWaylandOutput) (r1 d1 r2 d2 : QRegion) :
  supportsBufferAge caps = true ->
  supportsSwapBuffersWithDamage caps = true ->
  let g := QRegion_of_rect (geometry output) in
  let f1 := endFrame caps age1 output r1 d1 in
  let f2 := endFrame caps age2 f1.1 r2 d2 in
  f2.2 = [OutputChange (intersected d2 g); SwapBuffersWithDamage (intersected d1 g);
          QueryBufferAge]
  /\ f1.2 = [OutputChange (intersected d1 g);
             match m_damageHistory output with
             | first :: _ => SwapBuffersWithDamage first
             | [] => SwapBuffers
             end;
             QueryBufferAge]
  /\ hd_error (m_damageHistory f2.1) = Some (intersected d2 g).
Proof.
  intros Hb Hs g f1 f2. subst f1 f2 g. unfold endFrame, presentOnSurface.
  rewrite Hb, Hs. cbn. rewrite ?Hb, ?Hs. cbn. split; [done|]. split; [|done].
  by destruct (m_damageHistory output).
Qed.

Lemma wayland_swap_uses_previous_damage_witness :
  (endFrame (mkCaps true true false) None
     (endFrame (mkCaps true true false) None (mkOutput (QRect_xywh 0 0 100 100) 0 [])
        QRegion_empty (QRegion_xywh 0 0 5 5)).1
     QRegion_empty (QRegion_xywh 50 50 5 5)).2
  = [OutputChange (intersected (QRegion_xywh 50 50 5 5) (QRegion_of_rect (QRect_xywh 0 0 100 100)));
     SwapBuffersWithDamage
       (intersected (QRegion_xywh 0 0 5 5) (QRegion_of_rect (QRect_xywh 0 0 100 100)));
     QueryBufferAge].
Proof.
  apply (wayland_swap_uses_previous_damage (mkCaps true true false) None None
           (mkOutput (QRect_xywh 0 0 100 100) 0 []) QRegion_empty (QRegion_xywh 0 0 5 5)
           QRegion_empty (QRegion_xywh 50 50 5 5)); reflexivity.
Defined.

End WaylandFrameFacts.

Section GbmFrameFacts.
Import OpenGLBackend EglGbmPerOutput.

(** X27. [endFrame] of the DRM EGL backend reads the first entry of the
    damage history for [eglSwapBuffersWithDamageEXT] without looking
    whether there is one: on the primary GPU, with that extension and
    without a buffer for direct scanout, a frame that ends with an empty
    damage history (the first frame, or the frame after a failed one) is
    undefined; in every other case [endFrame] is defined. *)
Theorem gbm_endFrame_undefined_iff (caps : Caps) (ans : Answers) (output : Output)
  (renderedRegion damagedRegion : QRegion) :
  endFrame caps ans output renderedRegion damagedRegion = None
  <-> directScanoutBuffer output = false /\ isPrimary caps = true
      /\ supportsSwapBuffersWithDamage caps = true /\ damageHistory output = [].
Proof.
  unfold endFrame, presentOnOutput.
  destruct (directScanoutBuffer output), (isPrimary caps), (supportsSwapBuffersWithDamage caps),
    (damageHistory output) as [|first rest], (swap_ok ans), (present_ok ans),
    (supportsBufferAge caps); cbn; split; try done; intros (? & ? & ? & ?); done.
Qed.

Ltac in_events := repeat first [apply list_elem_of_here | apply list_elem_of_further].

Lemma prepareRenderingForOutput_empty_history (caps : Caps) (output : Output) :
  damageHistory output = [] ->
  prepareRenderingForOutput caps output = QRegion_of_rect (geometry output).
Proof.
  intros H. unfold prepareRenderingForOutput. rewrite H.
  destruct (supportsBufferAge caps); [|done].
  destruct (0 <? bufferAge output) eqn:E1, (bufferAge output <=? Z.of_nat (length [])) eqn:E2;
    try done.
  apply Z.ltb_lt in E1. apply Z.leb_le in E2. simpl in E2. lia.
Qed.

Lemma endFrame_empty_history (caps : Caps) (ans : Answers) (output : Output)
  (renderedRegion damagedRegion : QRegion) :
  directScanoutBuffer output = false -> isPrimary caps = true ->
  supportsSwapBuffersWithDamage caps = true -> damageHistory output = [] ->
  endFrame caps ans output renderedRegion damagedRegion = None.
Proof.
  intros Hd Hp Hs Hh. unfold endFrame, presentOnOutput. by rewrite Hd, Hp, Hs, Hh.
Qed.

(** What [presentOnOutput] leaves alone, and what it has done when it
    returns true. *)
Lemma presentOnOutput_spec (caps : Caps) (ans : Answers) (output output' : Output)
  (damagedRegion : QRegion) (ok : bool) (events : list Event) :
  presentOnOutput caps ans output damagedRegion = Some (ok, output', events) ->
  geometry output' = geometry output
  /\ damageHistory output' = damageHistory output
  /\ directScanoutBuffer output' = directScanoutBuffer output
  /\ (NotifyFrameFailed ∉ events)
  /\ (ok = true -> BackendPresent (fresh ans) ∈ events /\ buffer output' = Some (fresh ans)).
Proof.
  unfold presentOnOutput.
  destruct (directScanoutBuffer output) eqn:Ed, (isPrimary caps) eqn:Ep,
    (supportsSwapBuffersWithDamage caps) eqn:Es,
    (damageHistory output) as [|first rest] eqn:Eh, (swap_ok ans), (present_ok ans),
    (supportsBufferAge caps) eqn:Eb; cbn; intros H; try discriminate;
    injection H as <- <- <-; cbn [geometry damageHistory buffer directScanoutBuffer].
  all: split; [done|]; split; [done|]; split; [done|]; split;
    [rewrite ?elem_of_cons, ?elem_of_nil; intuition discriminate|].
  all: intros Hok; first [discriminate | split; [solve [in_events] | done]].
Qed.

(** X28. A frame the DRM EGL backend fails to present: the framebuffer
    has been rendered to the surface, the failure is notified to the render
    loop and the damage history is empty afterwards, so that the next
    [beginFrame] asks for the whole output; on the primary GPU with
    [eglSwapBuffersWithDamageEXT] and without direct scanout the next
    [endFrame] is then undefined.  A frame that is presented records its
    damage, cut to the output, in front of the history if buffer ages are
    supported. *)
Theorem gbm_frame_outcome (caps : Caps) (ans : Answers) (output output' : Output)
  (renderedRegion damagedRegion : QRegion) (events : list Event) :
  endFrame caps ans output renderedRegion damagedRegion = Some (output', events) ->
  geometry output' = geometry output
  /\ hd_error events = Some RenderFramebufferToSurface
  /\ (NotifyFrameFailed ∈ events ->
      damageHistory output' = []
      /\ prepareRenderingForOutput caps output' = QRegion_of_rect (geometry output)
      /\ (directScanoutBuffer output = false -> isPrimary caps = true ->
          supportsSwapBuffersWithDamage caps = true ->
          forall ans' r' d', endFrame caps ans' output' r' d' = None))
  /\ (NotifyFrameFailed ∉ events ->
      BackendPresent (fresh ans) ∈ events
      /\ buffer output' = Some (fresh ans)
      /\ (supportsBufferAge caps = true ->
          hd_error (damageHistory output')
          = Some (intersected damagedRegion (QRegion_of_rect (geometry output))))
      /\ (supportsBufferAge caps = false -> damageHistory output' = damageHistory output)).
Proof.
  intros H0. unfold endFrame in H0. revert H0.
  destruct (presentOnOutput caps ans output damagedRegion) as [[[ok out1] evs]|] eqn:E;
    [|discriminate].
  apply presentOnOutput_spec in E as (Hg & Hh & Hd & Hnot & Hok). cbn.
  destruct ok; cbn.
  - destruct (Hok eq_refl) as [Hin Hbuf].
    assert (Hno : NotifyFrameFailed ∉ RenderFramebufferToSurface :: evs).
    { rewrite elem_of_cons. intros [?|?]; [discriminate|done]. }
    destruct (supportsBufferAge caps) eqn:Eb; intros H; injection H as <- <-; cbn.
    + split; [done|]. split; [done|]. split; [done|]. intros _.
      split; [by apply list_elem_of_further|]. split; [done|].
      split; [intros _; by rewrite Hg|done].
    + split; [done|]. split; [done|]. split; [done|]. intros _.
      split; [by apply list_elem_of_further|]. done.
  - intros H; injection H as <- <-; cbn.
    split; [done|]. split; [done|]. split.
    + intros _. split; [done|]. split.
      * rewrite prepareRenderingForOutput_empty_history by done. cbn. by rewrite Hg.
      * intros Hds Hp Hs ans' r' d'. apply endFrame_empty_history; cbn; congruence.
    + intros Hnone. exfalso. apply Hnone.
      apply list_elem_of_further, elem_of_app. right. apply list_elem_of_here.
Qed.

Lemma gbm_frame_outcome_witness :
  prepareRenderingForOutput (mkCaps true true false)
    (mkOutput (QRect_xywh 0 0 100 100) (Some 7%nat) 3 [] false)
  = QRegion_of_rect (QRect_xywh 0 0 100 100).
Proof.
  destruct (gbm_frame_outcome (mkCaps true true false) (mkAnswers true false 7 None)
              (mkOutput (QRect_xywh 0 0 100 100) None 3 [QRegion_xywh 0 0 5 5] false)
              (mkOutput (QRect_xywh 0 0 100 100) (Some 7%nat) 3 [] false)
              QRegion_empty (QRegion_xywh 1 1 5 5)
              [RenderFramebufferToSurface; SwapBuffers; OutputChange (QRegion_xywh 1 1 5 5);
               BackendPresent 7; NotifyFrameFailed]
              ltac:(vm_compute; reflexivity)) as (_ & _ & Hfailed & _).
  apply Hfailed. do 4 apply list_elem_of_further. apply list_elem_of_here.
Defined.

End GbmFrameFacts.
